(** * auto-coder: a shallow embedding of the orchestration script

    The development follows the Python sources file by file:
    - [ai_coding_system.py]: [sanitize_text], [safe_write_file], the five
      generation phases and [run_simplified_coding_system];
    - [cli/cli.py]: [interactive_requirements_gathering], [main] and the
      script block;
    - [web/app.py]: the import of the entry point, [progress_monitor] and
      [create_project_in_thread];
    - [utils/code_quality.py]: the wrappers around Black, Pylint,
      pycodestyle and isort, the walks over a directory,
      [count_lines_of_code], [analyze_code_complexity] and
      [check_for_security_issues];
    - [utils/file_utils.py]: the text file helpers, [merge_files],
      [get_project_structure] and [create_project_skeleton].

    A Python [str] is a sequence of Unicode code points, so it is modelled
    as a list of code points ([list N]).  Effects (the model API, the file
    system, the console, subprocesses) are explicit: a computation maps the
    history of events seen so far to the events it emits and to either a
    value or a raised exception.  The outside world is a record of oracles. *)

From Stdlib Require Import String Ascii ZArith NArith List Bool Lia.
From Stdlib Require Import Floats.
From Stdlib Require DecimalString.
Import ListNotations.

Local Open Scope Z_scope.

(** ** Python strings *)

Definition str := list N.

(** An ASCII literal of the source, as code points. *)
Definition lit (s : string) : str :=
  map N_of_ascii (list_ascii_of_string s).

Definition str_eqb (a b : str) : bool :=
  if list_eq_dec N.eq_dec a b then true else false.

(** [s.startswith(p)] *)
Fixpoint startswith (p s : str) : bool :=
  match p, s with
  | [], _ => true
  | _ :: _, [] => false
  | a :: p', b :: s' => N.eqb a b && startswith p' s'
  end.

(** [s.find(sub)], scanning from offset [i]: the lowest index at which
    [sub] occurs, [-1] when there is none. *)
Fixpoint find_from (sub s : str) (i : Z) : Z :=
  match s with
  | [] => if startswith sub [] then i else -1
  | _ :: s' => if startswith sub s then i else find_from sub s' (i + 1)
  end.

Definition find (s sub : str) : Z := find_from sub s 0.

(** [s.rfind(sub)]: the highest index at which [sub] occurs, [-1] when there
    is none. *)
Fixpoint rfind_from (sub s : str) (i : Z) : Z :=
  match s with
  | [] => if startswith sub [] then i else -1
  | _ :: s' =>
      let r := rfind_from sub s' (i + 1) in
      if r =? -1 then (if startswith sub s then i else -1) else r
  end.

Definition rfind (s sub : str) : Z := rfind_from sub s 0.

(** Slice bounds are clamped the way Python clamps them; a negative bound
    counts from the end. *)
Definition slice_bound (len i : Z) : Z :=
  if i <? 0 then Z.max 0 (i + len) else Z.min i len.

(** [s[i:j]] *)
Definition slice (s : str) (i j : Z) : str :=
  let len := Z.of_nat (length s) in
  let a := slice_bound len i in
  let b := slice_bound len j in
  firstn (Z.to_nat (b - a)) (skipn (Z.to_nat a) s).

(** [s.replace(old, new)] for a non-empty [old]: occurrences are taken from
    left to right and do not overlap.  [skip] counts the characters of a
    matched occurrence that are still to be dropped.  (Every call site of
    the program passes a non-empty literal or dictionary key as [old].) *)
Fixpoint replace_aux (old new : str) (skip : nat) (s : str) : str :=
  match s with
  | [] => []
  | c :: s' =>
      match skip with
      | S k => replace_aux old new k s'
      | O =>
          if startswith old s
          then new ++ replace_aux old new (length old - 1) s'
          else c :: replace_aux old new 0 s'
      end
  end.

Definition replace (s old new : str) : str := replace_aux old new 0 s.

(** [s.split(sep)] for a non-empty [sep] (Python raises [ValueError] on an
    empty one; every call site passes a literal).  [cur] holds the current
    piece in reverse. *)
Fixpoint split_aux (sep : str) (skip : nat) (cur : str) (s : str) : list str :=
  match s with
  | [] => [rev cur]
  | c :: s' =>
      match skip with
      | S k => split_aux sep k cur s'
      | O =>
          if startswith sep s
          then rev cur :: split_aux sep (length sep - 1) [] s'
          else split_aux sep 0 (c :: cur) s'
      end
  end.

Definition split (s sep : str) : list str := split_aux sep 0 [] s.

(** [sep.join(parts)] *)
Fixpoint join (sep : str) (parts : list str) : str :=
  match parts with
  | [] => []
  | [p] => p
  | p :: rest => p ++ sep ++ join sep rest
  end.

(** [c.isspace()]: the code points Python treats as white space. *)
Definition isspace (c : N) : bool :=
  ((9 <=? c) && (c <=? 13) || (28 <=? c) && (c <=? 32)
   || (c =? 133) || (c =? 160) || (c =? 5760)
   || (8192 <=? c) && (c <=? 8202)
   || (c =? 8232) || (c =? 8233) || (c =? 8239) || (c =? 8287)
   || (c =? 12288))%N.

Fixpoint lstrip (s : str) : str :=
  match s with
  | [] => []
  | c :: s' => if isspace c then lstrip s' else s
  end.

Definition rstrip (s : str) : str := rev (lstrip (rev s)).

(** [s.strip()] *)
Definition strip (s : str) : str := rstrip (lstrip s).

(** [str(n)] for a non-negative integer. *)
Definition str_of_nat (n : nat) : str :=
  lit (DecimalString.NilZero.string_of_uint (Nat.to_uint n)).

(** [str(z)] for an integer. *)
Definition str_of_Z (z : Z) : str :=
  if z <? 0 then lit "-" ++ str_of_nat (Z.to_nat (- z))
  else str_of_nat (Z.to_nat z).

(** [int(x)] for a float: truncation towards zero; no value for an
    infinity or a NaN, where Python raises. *)
Definition int_of_float (x : float) : option Z :=
  match Prim2SF x with
  | S754_zero _ => Some 0
  | S754_finite s m e =>
      let v := if 0 <=? e then Z.pos m * 2 ^ e else Z.pos m / 2 ^ (- e) in
      Some (if s then - v else v)
  | S754_infinity _ | S754_nan => None
  end.

(** [float(z)] for an integer that a double represents exactly. *)
Definition float_of_Z (z : Z) : float := PrimFloat.of_uint63 (Uint63.of_Z z).

(** [l[i]] on a list: a negative index counts from the end. *)
Definition list_index {A} (l : list A) (i : Z) : option A :=
  let len := Z.of_nat (List.length l) in
  if (0 <=? i) && (i <? len) then nth_error l (Z.to_nat i)
  else if (- len <=? i) && (i <? 0) then nth_error l (Z.to_nat (i + len))
  else None.

(** ** [sanitize_text] (ai_coding_system.py) *)

(** A dictionary literal: a later pair with a key already present replaces
    the value and keeps the position of the first insertion. *)
Fixpoint dict_set (d : list (str * str)) (k v : str) : list (str * str) :=
  match d with
  | [] => [(k, v)]
  | (k', v') :: d' =>
      if str_eqb k' k then (k', v) :: d' else (k', v') :: dict_set d' k v
  end.

Definition dict_literal (pairs : list (str * str)) : list (str * str) :=
  fold_left (fun d kv => dict_set d (fst kv) (snd kv)) pairs [].

Definition dquote : str := [34%N].
Definition squote : str := [39%N].

(** Lines 34 and 35 of the source each read, after the indentation, three
    single quotes, a colon, a space, a single quote between double quotes
    and a comma.  Python reads the three quotes of line 34 as the opening
    of a triple-quoted string, which the three quotes of line 35 close: the
    two lines are one entry, whose key is the text between them (a colon, a
    space, a quoted single quote, a comma, a line break and the eight
    spaces of indentation) and whose value is a single quote. *)
Definition triple_quoted_key : str :=
  [58; 32; 34; 39; 34; 44; 10; 32; 32; 32; 32; 32; 32; 32; 32]%N.

Definition em_dash : str := [8212%N].
Definition en_dash : str := [8211%N].
Definition ellipsis : str := [8230%N].
Definition bullet : str := [8226%N].

(** The dictionary [replacements], entry by entry as the source has it:
    lines 32 and 33 both map the straight double quote to itself. *)
Definition replacements : list (str * str) :=
  dict_literal
    [ (dquote, dquote);
      (dquote, dquote);
      (triple_quoted_key, squote);
      (em_dash, lit "-");
      (en_dash, lit "-");
      (ellipsis, lit "...");
      (bullet, lit "*") ].

(** [text.encode('ascii', 'replace')]: the codec's [replace] handler turns
    every code point it cannot encode into a question mark, so the call
    returns for every string. *)
Definition encode_ascii_replace (text : str) : option (list N) :=
  Some (map (fun c => if (c <? 128)%N then c else 63%N) text).

(** [bytes.decode('ascii')] of bytes below 128. *)
Definition decode_ascii (b : list N) : str := b.

(** [char.encode('ascii')] for a single character: raises when the code
    point is above 127. *)
Definition encode_ascii_strict (c : N) : option (list N) :=
  if (c <? 128)%N then Some [c] else None.

(** The [except:] branch of [sanitize_text]. *)
Definition char_by_char (text : str) : str :=
  map (fun c => match encode_ascii_strict c with
                | Some _ => c
                | None => 63%N
                end) text.

Definition apply_replacements (text : str) : str :=
  fold_left (fun t kv => replace t (fst kv) (snd kv)) replacements text.

(** Which branch of the [try] produced the result. *)
Inductive branch := TryBranch | ExceptBranch.

Definition sanitize_text_branch (text : str) : branch * str :=
  let text := apply_replacements text in
  match encode_ascii_replace text with
  | Some b => (TryBranch, decode_ascii b)
  | None => (ExceptBranch, char_by_char text)
  end.

Definition sanitize_text (text : str) : str :=
  snd (sanitize_text_branch text).

(** ** Exceptions, events and the effect monad *)

(** The classes derived from [Exception] that the program raises, catches
    or receives from a library.  [PlainException] is [Exception(msg)]
    itself; [OtherError] stands for any other subclass (an [OSError], an
    API error).  Each carries the text of [str(e)]. *)
Inductive exn :=
| UnicodeEncodeError (msg : str)
| UnicodeDecodeError (msg : str)
| FileNotFoundError (msg : str)
| ImportError (msg : str)
| ValueError (msg : str)
| IndexError (msg : str)
| EOFError (msg : str)
| OtherError (msg : str)
| PlainException (msg : str).

(** [str(e)] *)
Definition exn_str (e : exn) : str :=
  match e with
  | UnicodeEncodeError m | UnicodeDecodeError m | FileNotFoundError m
  | ImportError m | ValueError m | IndexError m | EOFError m
  | OtherError m | PlainException m => m
  end.

(** What leaves a function that does not return: an instance of
    [Exception], or the [SystemExit] of [sys.exit(code)], which an
    [except Exception] clause does not catch.  Library calls raise
    instances of [Exception] only; an interrupt from the keyboard, which
    can arrive at any point of any function, is outside the model. *)
Inductive raised :=
| Exc (e : exn)
| SystemExit (code : Z).

Inductive encoding := Utf8 | AsciiReplace.

(** [subprocess.CompletedProcess] with captured text output. *)
Record completed_process := {
  returncode : Z;
  stdout : str;
  stderr : str
}.

(** One interaction with the outside world, with its outcome. *)
Inductive event :=
| Print (text : str)
| Input (prompt : str) (outcome : exn + str)
| CreateAgent (model_name : option str) (outcome : option exn)
| Invoke (system human : str) (outcome : exn + str)
| Makedirs (path : str) (outcome : option exn)
| FileWrite (path : str) (enc : encoding) (content : str)
    (outcome : option exn)
| FileRead (path : str) (enc : encoding) (outcome : exn + str)
| BlackFormatStr (code : str) (line_length : Z) (outcome : exn + str)
| PylintRun (path : str) (outcome : exn + str)
| Subprocess (argv : list str) (outcome : exn + completed_process).

(** The outside world.  An oracle that performs an effect sees the events
    that happened before its call, so its answers may change over time. *)
Record world := {
  (* os, os.path, pathlib *)
  getenv : str -> option str;
  path_join : str -> str -> str;
  path_dirname : str -> str;
  pathlib_str : str -> str;
  os_makedirs : list event -> str -> option exn;
  open_write : list event -> str -> encoding -> str -> option exn;
  open_read : list event -> str -> encoding -> exn + str;
  (* langchain_groq *)
  chat_groq : list event -> option str -> str -> option exn;
  llm_invoke : list event -> str -> str -> exn + str;
  (* the console: the lines the user will type *)
  stdin : list str;
  (* black, pylint, subprocess, re, float *)
  pylint_available : bool;
  black_format_str : list event -> str -> Z -> exn + str;
  pylint_run : list event -> str -> exn + str;
  subprocess_run : list event -> list str -> exn + completed_process;
  re_search_score : str -> option str;
  float_of_str : str -> exn + float;
  (* builtins and time *)
  int_of_str : str -> exn + Z;
  str_lower : str -> str;
  time_time : list event -> float;
  (* [divmod(elapsed, 60)] followed by [int] on both components, which
     returns on every finite value, the only ones a clock delivers *)
  minutes_seconds : float -> Z * Z
}.

(** A computation: from the history to the emitted events and the result. *)
Definition M (A : Type) : Type := list event -> list event * (raised + A).

Definition ret {A} (a : A) : M A := fun _ => ([], inr a).

Definition bind {A B} (c : M A) (k : A -> M B) : M B :=
  fun h =>
    match c h with
    | (ev, inl r) => (ev, inl r)
    | (ev, inr a) =>
        let (ev', res) := k a (h ++ ev) in (ev ++ ev', res)
    end.

Definition raise {A} (r : raised) : M A := fun _ => ([], inl r).

(** [try: body / except ...: handler]; the handler answers [None] for an
    exception that no clause of the statement matches. *)
Definition try_except {A} (body : M A) (handler : raised -> option (M A))
  : M A :=
  fun h =>
    match body h with
    | (ev, inr a) => (ev, inr a)
    | (ev, inl r) =>
        match handler r with
        | Some k => let (ev', res) := k (h ++ ev) in (ev ++ ev', res)
        | None => (ev, inl r)
        end
    end.

Declare Scope py_scope.
Delimit Scope py_scope with py.
Notation "x <- c1 ;; c2" := (bind c1 (fun x => c2))
  (at level 61, c1 at next level, right associativity) : py_scope.
Notation "c1 ;; c2" := (bind c1 (fun _ => c2))
  (at level 61, right associativity) : py_scope.
Local Open Scope py_scope.

(** A call whose outcome is an optional exception. *)
Definition call_unit (mk : option exn -> event)
  (oracle : list event -> option exn) : M unit :=
  fun h =>
    let o := oracle h in
    ([mk o], match o with Some e => inl (Exc e) | None => inr tt end).

(** A call whose outcome is an exception or a value. *)
Definition call_value {A} (mk : exn + A -> event)
  (oracle : list event -> exn + A) : M A :=
  fun h =>
    let o := oracle h in
    ([mk o], match o with inl e => inl (Exc e) | inr a => inr a end).

Definition print (text : str) : M unit := fun _ => ([Print text], inr tt).

(** The [n]-th call of [input] reads the [n]-th line of [stdin]; at the end
    of the input it raises [EOFError]. *)
Definition inputs_so_far (h : list event) : nat :=
  List.length (filter (fun e => match e with Input _ _ => true | _ => false end) h).

Definition input (W : world) (prompt : str) : M str :=
  call_value (Input prompt)
    (fun h => match nth_error (stdin W) (inputs_so_far h) with
              | Some line => inr line
              | None => inl (EOFError (lit "EOF when reading a line"))
              end).

Definition makedirs (W : world) (path : str) : M unit :=
  call_unit (Makedirs path) (fun h => os_makedirs W h path).

(** [with open(path, "w", encoding=...) as f: f.write(content)] *)
Definition write_file (W : world) (path : str) (enc : encoding)
  (content : str) : M unit :=
  call_unit (FileWrite path enc content)
    (fun h => open_write W h path enc content).

(** [with open(path, "r", encoding=...) as f: f.read()] *)
Definition read_file (W : world) (path : str) (enc : encoding) : M str :=
  call_value (FileRead path enc) (fun h => open_read W h path enc).

(** [llm.invoke([SystemMessage(system), HumanMessage(human)]).content] *)
Definition invoke (W : world) (system human : str) : M str :=
  call_value (Invoke system human) (fun h => llm_invoke W h system human).

Definition nl : str := [10%N].
Definition check_mark : N := 9989%N.   (* U+2705 *)
Definition cross_mark : N := 10060%N.  (* U+274C *)
Definition rocket : N := 128640%N.     (* U+1F680 *)
Definition clipboard : N := 128203%N.  (* U+1F4CB *)
Definition crane : str := [127959; 65039]%N. (* U+1F3D7 U+FE0F *)
Definition laptop : N := 128187%N.     (* U+1F4BB *)
Definition test_tube : N := 129514%N.  (* U+1F9EA *)
Definition books : N := 128218%N.      (* U+1F4DA *)
Definition folder : N := 128193%N.     (* U+1F4C1 *)
Definition stopwatch : str := [9201; 65039]%N. (* U+23F1 U+FE0F *)
Definition robot : N := 129302%N.      (* U+1F916 *)

(** ** ai_coding_system.py *)

(** The [system_prompt] literal of [generate_requirements_document]. *)
Definition requirements_system_prompt : str :=
  lit "
    You are a requirements analyst. Your task is to create a detailed requirements document for the following project.
    Make sure to cover:
    1. Functional requirements
    2. Non-functional requirements
    3. User stories
    4. Technical constraints
    
    Format your response as Markdown.
    Use only ASCII characters in your response - no special quotes, dashes, or unicode symbols.
    ".

(** The [system_prompt] literal of [generate_architecture_design]. *)
Definition architecture_system_prompt : str :=
  lit "
    You are a software architect. Based on the following requirements, create a detailed architecture design document.
    Include:
    1. High-level architecture
    2. Component diagram
    3. Data models
    4. API definitions (if applicable)
    5. File structure
    
    Format your response as Markdown.
    Use only ASCII characters in your response - no special quotes, dashes, or unicode symbols.
    ".

(** The [system_prompt] literal of [generate_code_files]. *)
Definition code_system_prompt : str :=
  lit "
    You are a software developer. Based on the provided requirements and architecture, implement the necessary code files.
    First, list all the files you'll create with their paths.
    Then, for each file, provide the complete content.
    
    Format your response with clear separators between files, for example:
    
    FILE: src/main.py
    ```python
    # Code content here
    ```
    
    FILE: src/utils.py
    ```python
    # Code content here
    ```
    
    Make sure each file is complete and functional.
    Use only ASCII characters in your code - no special quotes, dashes, or unicode symbols.
    ".

(** The [system_prompt] literal of [generate_tests]. *)
Definition tests_system_prompt : str :=
  lit "
    You are a software tester. Based on the requirements and code implementation, create appropriate test files.
    Make sure to test all critical functionality.
    
    Format your response with clear separators between files, for example:
    
    FILE: tests/test_main.py
    ```python
    # Test code here
    ```
    
    FILE: tests/test_utils.py
    ```python
    # Test code here
    ```
    
    Make sure each test file is complete and follows testing best practices.
    Use only ASCII characters in your code - no special quotes, dashes, or unicode symbols.
    ".

(** The [system_prompt] literal of [generate_documentation]. *)
Definition docs_system_prompt : str :=
  lit "
    You are a technical writer. Create comprehensive documentation for the project.
    Create a README.md file for the project root, and any additional documentation needed.
    
    For the README.md, include:
    1. Project name and description
    2. Installation instructions
    3. Usage examples
    4. Features
    5. Dependencies
    6. Configuration
    
    Format your response with clear separators between files, for example:
    
    FILE: README.md
    ```markdown
    # Project Name
    
    Description...
    ```
    
    FILE: docs/usage_guide.md
    ```markdown
    # Usage Guide
    
    Details...
    ```
    
    Make sure documentation is clear, concise, and helpful for users.
    Use only ASCII characters in your documentation - no special quotes, dashes, or unicode symbols.
    ".

Definition fence : str := lit "```".

(** The handle returned by [ChatGroq(...)]. *)
Record ChatGroq := {
  model : option str;
  api_key : str
}.

Section AiCodingSystem.

Variable W : world.

Definition failed_to_write (file_path : str) (e : exn) : raised :=
  Exc (PlainException
         (lit "Failed to write file " ++ file_path ++ lit ": " ++ exn_str e)).

Definition safe_write_file (file_path content : str) : M unit :=
  try_except
    (write_file W file_path Utf8 content)
    (fun r =>
       match r with
       | Exc (UnicodeEncodeError _) =>
           Some (try_except
                   (let sanitized_content := sanitize_text content in
                    write_file W file_path AsciiReplace sanitized_content ;;
                    print (lit "Warning: Saved file " ++ file_path
                           ++ lit " with ASCII encoding (some characters replaced)"))
                   (fun r' =>
                      match r' with
                      | Exc e => Some (raise (failed_to_write file_path e))
                      | SystemExit _ => None
                      end))
       | Exc e => Some (raise (failed_to_write file_path e))
       | SystemExit _ => None
       end).

Definition create_coding_agent : M ChatGroq :=
  match getenv W (lit "GROQ_API_KEY") with
  | None | Some [] =>
      raise (Exc (ValueError
                    (lit "GROQ_API_KEY environment variable is not set")))
  | Some key =>
      let model_name := getenv W (lit "MODEL_NAME") in
      call_unit (CreateAgent model_name)
        (fun h => chat_groq W h model_name key) ;;
      ret {| model := model_name; api_key := key |}
  end.

Fixpoint create_directories (output_dir : str) (directories : list str)
  : M unit :=
  match directories with
  | [] => ret tt
  | directory :: rest =>
      makedirs W (path_join W output_dir directory) ;;
      create_directories output_dir rest
  end.

Definition create_project_structure (output_dir : str) : M str :=
  makedirs W output_dir ;;
  create_directories output_dir [lit "src"; lit "tests"; lit "docs"] ;;
  ret output_dir.

Definition generate_requirements_document (llm : ChatGroq)
  (prompt output_dir : str) : M str :=
  response <- invoke W requirements_system_prompt prompt ;;
  let content := sanitize_text response in
  let requirements_dir := path_join W output_dir (lit "docs") in
  makedirs W requirements_dir ;;
  let file_path := path_join W requirements_dir (lit "requirements.md") in
  safe_write_file file_path content ;;
  print (check_mark :: lit " Generated requirements document") ;;
  ret content.

Definition architecture_human (requirements : str) : str :=
  lit "Requirements:" ++ nl ++ nl ++ requirements.

Definition generate_architecture_design (llm : ChatGroq)
  (requirements output_dir : str) : M str :=
  response <- invoke W architecture_system_prompt
                (architecture_human requirements) ;;
  let content := sanitize_text response in
  let design_dir := path_join W output_dir (lit "docs") in
  makedirs W design_dir ;;
  let file_path := path_join W design_dir (lit "architecture.md") in
  safe_write_file file_path content ;;
  print (check_mark :: lit " Generated architecture design") ;;
  ret content.

(** The condition of the [if] that guards the saving of a section. *)
Definition fenced (code_start code_end : Z) : bool :=
  negb (code_start =? -1) && negb (code_end =? -1)
  && (code_end >? code_start).

(** The [for section in file_sections[1:]] loop, which the three
    generating functions share word for word up to two literals: the fence
    tag removed before the bare fence ([tag]) and the text of the message
    printed per file ([label]). *)
Fixpoint save_sections (tag label output_dir : str) (sections : list str)
  (created : list str) : M (list str) :=
  match sections with
  | [] => ret created
  | section :: rest =>
      let lines := split (strip section) nl in
      let file_path := strip (nth 0 lines []) in
      let code_start := find section fence in
      let code_end := rfind section fence in
      if fenced code_start code_end then
        let code_content := strip (slice section code_start code_end) in
        let code_content :=
          strip (replace (replace code_content tag []) fence []) in
        let full_path := path_join W output_dir file_path in
        makedirs W (path_dirname W full_path) ;;
        safe_write_file full_path code_content ;;
        print (check_mark :: label ++ file_path) ;;
        save_sections tag label output_dir rest (created ++ [file_path])
      else
        save_sections tag label output_dir rest created
  end.

Definition code_human (requirements architecture : str) : str :=
  lit "Requirements:" ++ nl ++ nl ++ requirements ++ nl ++ nl
  ++ lit "Architecture:" ++ nl ++ nl ++ architecture.

Definition generate_code_files (llm : ChatGroq)
  (requirements architecture output_dir : str) : M (list str) :=
  response <- invoke W code_system_prompt
                (code_human requirements architecture) ;;
  let content := sanitize_text response in
  let file_sections := split content (lit "FILE: ") in
  created_files <- save_sections (lit "```python") (lit " Generated file: ")
                     output_dir (tl file_sections) [] ;;
  print (check_mark :: lit " Created "
         ++ str_of_nat (List.length created_files) ++ lit " code files") ;;
  ret created_files.

Definition could_not_read (file_path : str) (e : exn) : str :=
  lit "Warning: Could not read " ++ file_path ++ lit ": " ++ exn_str e.

(** The loop of [generate_tests] that reads the created files back. *)
Fixpoint read_created_files (output_dir : str) (created_files : list str)
  (files_content : list (str * str)) : M (list (str * str)) :=
  match created_files with
  | [] => ret files_content
  | file_path :: rest =>
      let full_path := path_join W output_dir file_path in
      files_content' <-
        try_except
          (text <- read_file W full_path Utf8 ;;
           ret (dict_set files_content file_path text))
          (fun r =>
             match r with
             | Exc (UnicodeDecodeError _) =>
                 Some (try_except
                         (text <- read_file W full_path AsciiReplace ;;
                          ret (dict_set files_content file_path text))
                         (fun r' =>
                            match r' with
                            | Exc e =>
                                Some (print (could_not_read file_path e) ;;
                                      ret files_content)
                            | SystemExit _ => None
                            end))
             | Exc e =>
                 Some (print (could_not_read file_path e) ;;
                       ret files_content)
             | SystemExit _ => None
             end) ;;
      read_created_files output_dir rest files_content'
  end.

Definition file_block (entry : str * str) : str :=
  lit "FILE: " ++ fst entry ++ nl ++ lit "```python" ++ nl
  ++ snd entry ++ nl ++ lit "```".

Definition tests_human (requirements files_content_str : str) : str :=
  lit "Requirements:" ++ nl ++ nl ++ requirements ++ nl ++ nl
  ++ lit "Implementation:" ++ nl ++ nl ++ files_content_str.

Definition generate_tests (llm : ChatGroq) (requirements : str)
  (created_files : list str) (output_dir : str) : M (list str) :=
  files_content <- read_created_files output_dir created_files [] ;;
  let files_content_str := join (nl ++ nl) (map file_block files_content) in
  response <- invoke W tests_system_prompt
                (tests_human requirements files_content_str) ;;
  let content := sanitize_text response in
  let file_sections := split content (lit "FILE: ") in
  created_tests <- save_sections (lit "```python")
                     (lit " Generated test file: ")
                     output_dir (tl file_sections) [] ;;
  print (check_mark :: lit " Created "
         ++ str_of_nat (List.length created_tests) ++ lit " test files") ;;
  ret created_tests.

Definition docs_human (requirements architecture files_summary : str)
  : str :=
  lit "Requirements:" ++ nl ++ nl ++ requirements ++ nl ++ nl
  ++ lit "Architecture:" ++ nl ++ nl ++ architecture ++ nl ++ nl
  ++ lit "Project files:" ++ nl ++ files_summary.

Definition generate_documentation (llm : ChatGroq)
  (requirements architecture : str) (created_files : list str)
  (output_dir : str) : M (list str) :=
  let files_summary := join nl created_files in
  response <- invoke W docs_system_prompt
                (docs_human requirements architecture files_summary) ;;
  let content := sanitize_text response in
  let file_sections := split content (lit "FILE: ") in
  created_docs <- save_sections (lit "```markdown")
                    (lit " Generated documentation file: ")
                    output_dir (tl file_sections) [] ;;
  print (check_mark :: lit " Created "
         ++ str_of_nat (List.length created_docs)
         ++ lit " documentation files") ;;
  ret created_docs.

Definition phase1_banner : str :=
  nl ++ clipboard :: lit " PHASE 1: Requirements Analysis".
Definition phase2_banner : str :=
  nl ++ crane ++ lit " PHASE 2: Architecture Design".
Definition phase3_banner : str :=
  nl ++ laptop :: lit " PHASE 3: Code Implementation".
Definition phase4_banner : str :=
  nl ++ test_tube :: lit " PHASE 4: Test Creation".
Definition phase5_banner : str :=
  nl ++ books :: lit " PHASE 5: Documentation".

Definition rule : str := repeat 45%N 70.  (* "-" * 70 *)

(** The body of the [try] of [run_simplified_coding_system]. *)
Definition run_phases (prompt output_dir : str) : M unit :=
  llm <- create_coding_agent ;;
  create_project_structure output_dir ;;
  print phase1_banner ;;
  requirements <- generate_requirements_document llm prompt output_dir ;;
  print phase2_banner ;;
  architecture <- generate_architecture_design llm requirements output_dir ;;
  print phase3_banner ;;
  created_files <- generate_code_files llm requirements architecture
                     output_dir ;;
  print phase4_banner ;;
  created_tests <- generate_tests llm requirements created_files
                     output_dir ;;
  print phase5_banner ;;
  created_docs <- generate_documentation llm requirements architecture
                    created_files output_dir ;;
  print (nl ++ check_mark :: lit " Project generation complete!") ;;
  print (folder :: lit " Project files are available at: " ++ output_dir).

(** The [try] statement yields [Some b] when a [return b] inside it ends
    the function, [None] when control reaches the statement after it. *)
Definition run_simplified_coding_system (prompt output_dir : str) : M bool :=
  print (nl ++ rocket :: lit " Starting Simplified AI Coding System") ;;
  print rule ;;
  returned <-
    try_except
      (run_phases prompt output_dir ;; ret None)
      (fun r =>
         match r with
         | Exc e =>
             Some (print (nl ++ cross_mark :: lit " Error: " ++ exn_str e) ;;
                   ret (Some false))
         | SystemExit _ => None
         end) ;;
  match returned with
  | Some b => ret b
  | None => ret true
  end.

End AiCodingSystem.

(** ** cli/cli.py *)

(** The namespace returned by [parse_args]. *)
Record args := {
  prompt : option str;
  output_dir : str;
  interactive : bool
}.

Section Cli.

Variable W : world.

Definition project_types : list str :=
  [ lit "Web application"; lit "API / Backend service"; lit "CLI tool";
    lit "Data processing script"; lit "Library / Framework";
    lit "Other (specify)" ].

Definition languages : list str :=
  [ lit "Python"; lit "JavaScript"; lit "TypeScript"; lit "Java"; lit "C#";
    lit "Go"; lit "Rust"; lit "Other (specify)" ].

(** [for i, t in enumerate(items, start): print(f"  {i}. {t}")] *)
Fixpoint print_numbered (i : nat) (items : list str) : M unit :=
  match items with
  | [] => ret tt
  | t :: rest =>
      print (lit "  " ++ str_of_nat i ++ lit ". " ++ t) ;;
      print_numbered (S i) rest
  end.

(** [items[int(input(question)) - 1]], then a free answer when the last
    entry was chosen. *)
Definition choose (question other : str) (items : list str) : M str :=
  answer <- input W question ;;
  match int_of_str W answer with
  | inl e => raise (Exc e)
  | inr n =>
      match list_index items (n - 1) with
      | None => raise (Exc (IndexError (lit "list index out of range")))
      | Some item =>
          if str_eqb item (lit "Other (specify)") then input W other
          else ret item
      end
  end.

(** The [while True] loop that reads one requirement per line.  Every turn
    consumes a line of the input, and [input] raises at its end, so the
    loop makes at most one turn per line and one more; [fuel] is set to
    that bound by the caller. *)
Fixpoint read_requirements (fuel : nat) (functional_reqs : list str)
  : M (list str) :=
  match fuel with
  | O => raise (Exc (EOFError (lit "EOF when reading a line")))
  | S fuel' =>
      req <- input W (lit "  - ") ;;
      match req with
      | [] => ret functional_reqs
      | _ :: _ => read_requirements fuel' (functional_reqs ++ [req])
      end
  end.

Definition bulleted (reqs : list str) : str :=
  join nl (map (fun req => lit "- " ++ req) reqs).

Definition interactive_prompt (project_name project_type language : str)
  (functional_reqs : list str) (additional_info : str) : str :=
  nl ++ lit "Project: " ++ project_name ++ nl
  ++ lit "Type: " ++ project_type ++ nl
  ++ lit "Language: " ++ language ++ nl ++ nl
  ++ lit "Functional Requirements:" ++ nl
  ++ bulleted functional_reqs ++ nl ++ nl
  ++ lit "Additional Information:" ++ nl
  ++ additional_info ++ nl ++ nl
  ++ lit "Based on these requirements, please design and implement a complete, production-ready solution."
  ++ nl.

Definition interactive_requirements_gathering : M str :=
  print (nl ++ robot
         :: lit " AI Coding System - Interactive Requirements Gathering") ;;
  print rule ;;
  project_name <- input W (nl ++ clipboard :: lit " Project name: ") ;;
  print (nl ++ clipboard :: lit " Project type (select number):") ;;
  print_numbered 1 project_types ;;
  project_type <- choose (nl ++ lit "Enter choice (1-6): ")
                    (lit "Specify project type: ") project_types ;;
  print (nl ++ clipboard :: lit " Programming language (select number):") ;;
  print_numbered 1 languages ;;
  language <- choose (nl ++ lit "Enter choice (1-8): ")
                (lit "Specify language: ") languages ;;
  print (nl ++ clipboard
         :: lit " Functional requirements (what should the system do?):") ;;
  print (lit "  Enter one requirement per line. Press Enter on an empty line when done.") ;;
  functional_reqs <- read_requirements (S (List.length (stdin W))) [] ;;
  additional_info <-
    input W (nl ++ clipboard
             :: lit " Any additional information or context? ") ;;
  let prompt := interactive_prompt project_name project_type language
                  functional_reqs additional_info in
  print (nl ++ clipboard :: lit " Generated prompt:") ;;
  print rule ;;
  print prompt ;;
  print rule ;;
  confirm <-
    input W (nl ++ clipboard
             :: lit " Do you want to proceed with this prompt? (y/n): ") ;;
  if negb (str_eqb (str_lower W confirm) (lit "y")) then
    print (lit "Exiting...") ;;
    raise (SystemExit 0)
  else ret prompt.

(** The three statements of [main] that choose the prompt, create the
    output directory and announce the start. *)
Definition main_setup (a : args) : M str :=
  prompt <-
    (match prompt a with
     | Some (c :: p) =>
         if interactive a then interactive_requirements_gathering
         else ret (c :: p)
     | Some [] | None => interactive_requirements_gathering
     end) ;;
  makedirs W (output_dir a) ;;
  print (nl ++ rocket :: lit " AI Coding System - Starting") ;;
  print rule ;;
  print (folder :: lit " Output directory: " ++ output_dir a) ;;
  ret prompt.

(** The end of [main]: the report and the exit code. *)
Definition main_report (a : args) (start_time : float) (success : bool)
  : M Z :=
  fun h =>
    let elapsed_time := PrimFloat.sub (time_time W h) start_time in
    let (minutes, seconds) := minutes_seconds W elapsed_time in
    ((if success then
        print (nl ++ check_mark :: lit " Project generation complete!") ;;
        print rule ;;
        print (stopwatch ++ lit "  Time taken: " ++ str_of_Z minutes
               ++ lit " minutes and " ++ str_of_Z seconds
               ++ lit " seconds") ;;
        print (folder :: lit " Project files are available at: "
               ++ output_dir a) ;;
        print (nl ++ lit "Thank you for using the AI Coding System!")
      else
        print (nl ++ cross_mark :: lit " Project generation failed.")) ;;
     ret (if success then 0 else 1)) h.

Definition main (a : args) : M Z :=
  prompt <- main_setup a ;;
  start_time <- (fun h => ([], inr (time_time W h))) ;;
  success <- run_simplified_coding_system W prompt (output_dir a) ;;
  main_report a start_time success.

(** The [if __name__ == "__main__"] block: the exit code of the process. *)
Definition script (a : args) (h : list event) : list event * Z :=
  match main a h with
  | (ev, inr exit_code) => (ev, exit_code)
  | (ev, inl (SystemExit code)) => (ev, code)
  | (ev, inl (Exc e)) =>
      (ev ++ [Print (nl ++ cross_mark :: lit " An error occurred: "
                     ++ exn_str e)], 1)
  end.

End Cli.

(** ** Module namespaces and [from ... import ...] *)

(** The names that executing ai_coding_system.py as an imported module
    binds at its top level, in order: its two leading functions, its
    imports, and its remaining functions.  (The block under
    [if __name__ == "__main__"] does not run on import.) *)
Definition ai_coding_system_names : list string :=
  [ "safe_write_file"; "sanitize_text"; "os"; "sys"; "json"; "tempfile";
    "shutil"; "Path"; "Dict"; "Any"; "List"; "Optional"; "HumanMessage";
    "SystemMessage"; "ChatGroq"; "load_dotenv"; "create_coding_agent";
    "create_project_structure"; "generate_requirements_document";
    "generate_architecture_design"; "generate_code_files"; "generate_tests";
    "generate_documentation"; "run_simplified_coding_system" ]%string.

(** [from module import name] against the names the module binds; the
    module is not a package, so a name it does not bind is an
    [ImportError]. *)
Definition from_import (module_name : string) (names : list string)
  (name : string) : exn + unit :=
  if existsb (String.eqb name) names then inr tt
  else inl (ImportError
              (lit "cannot import name '" ++ lit name ++ lit "' from '"
               ++ lit module_name ++ lit "'")).

(** Line 15 of cli/cli.py. *)
Definition cli_import : exn + unit :=
  from_import "ai_coding_system" ai_coding_system_names
    "run_simplified_coding_system".

(** ** web/app.py *)

Module WebApp.

(** [st.session_state] *)
Record session := {
  progress : Z;
  current_phase : str;
  messages : list str;
  is_running : bool;
  output_dir : option str;
  files : list str;
  download_ready : bool
}.

Definition set_progress (s : session) (v : Z) : session :=
  {| progress := v; current_phase := current_phase s;
     messages := messages s; is_running := is_running s;
     output_dir := output_dir s; files := files s;
     download_ready := download_ready s |}.

Definition set_current_phase (s : session) (v : str) : session :=
  {| progress := progress s; current_phase := v;
     messages := messages s; is_running := is_running s;
     output_dir := output_dir s; files := files s;
     download_ready := download_ready s |}.

Definition set_messages (s : session) (v : list str) : session :=
  {| progress := progress s; current_phase := current_phase s;
     messages := v; is_running := is_running s;
     output_dir := output_dir s; files := files s;
     download_ready := download_ready s |}.

Definition set_is_running (s : session) (v : bool) : session :=
  {| progress := progress s; current_phase := current_phase s;
     messages := messages s; is_running := v;
     output_dir := output_dir s; files := files s;
     download_ready := download_ready s |}.

Definition set_output_dir (s : session) (v : option str) : session :=
  {| progress := progress s; current_phase := current_phase s;
     messages := messages s; is_running := is_running s;
     output_dir := v; files := files s;
     download_ready := download_ready s |}.

Definition set_files (s : session) (v : list str) : session :=
  {| progress := progress s; current_phase := current_phase s;
     messages := messages s; is_running := is_running s;
     output_dir := output_dir s; files := v;
     download_ready := download_ready s |}.

Definition set_download_ready (s : session) (v : bool) : session :=
  {| progress := progress s; current_phase := current_phase s;
     messages := messages s; is_running := is_running s;
     output_dir := output_dir s; files := files s;
     download_ready := v |}.

(** Lines 18-31: the defaults of a fresh session. *)
Definition fresh_session : session :=
  {| progress := 0; current_phase := []; messages := [];
     is_running := false; output_dir := None; files := [];
     download_ready := false |}.

(** The top level of the module up to the session defaults: the import of
    line 15 comes first, and an exception there ends the load. *)
Definition load_module : exn + session :=
  match from_import "ai_coding_system" ai_coding_system_names
          "run_coding_system" with
  | inl e => inl e
  | inr _ => inr fresh_session
  end.

(** The list [phases] of [progress_monitor]. *)
Definition phases : list str :=
  [ lit "requirements_gathering"; lit "architecture_design";
    lit "implementation"; lit "testing"; lit "documentation";
    lit "review_and_finalization" ].

(** [x in l] *)
Definition contains (l : list str) (x : str) : bool :=
  existsb (str_eqb x) l.

(** [l.index(x)]: the first position of [x]; no value where Python raises
    [ValueError]. *)
Fixpoint index (l : list str) (x : str) : option nat :=
  match l with
  | [] => None
  | y :: l' =>
      if str_eqb y x then Some O
      else match index l' x with
           | Some i => Some (S i)
           | None => None
           end
  end.

(** [int((phase_idx / len(phases)) * 100)]: a true division of two
    integers, a product of doubles, a truncation. *)
Definition estimate (phase_idx : nat) : option Z :=
  int_of_float
    (PrimFloat.mul
       (PrimFloat.div (float_of_Z (Z.of_nat phase_idx))
          (float_of_Z (Z.of_nat (List.length phases))))
       (float_of_Z 100)).

(** The body of the [while] loop of [progress_monitor] before the sleep;
    no value where the thread would die of an exception. *)
Definition monitor_body (s : session) : option session :=
  if contains phases (current_phase s) then
    match index phases (current_phase s) with
    | Some phase_idx =>
        match estimate phase_idx with
        | Some v => Some (set_progress s v)
        | None => None
        end
    | None => None
    end
  else Some s.

(** Where the generation thread stands in [create_project_in_thread]. *)
Inductive gen_pc :=
| AtResetProgress
| AtSetStarting
| AtClearMessages
| AtSetRunning
| AtClearDownload
| AtStartMonitor
| AtRunSystem
| AtSetOutputDir
| AtGatherFiles
| AtSetFiles (found : list str)
| AtSetProgress
| AtSetComplete
| AtSetDownloadReady
| AtHandler (e : exn)
| AtFinally
| AtEnd.

(** Where the monitor thread stands in [progress_monitor]: before it is
    started, at the test of the [while], at the test [in phases], at the
    call of [index], at the assignment of the computed value, at the sleep,
    or after its end. *)
Inductive monitor_pc :=
| NotStarted
| AtLoopTest
| AtMembership
| AtIndex
| AtAssign (v : Z)
| AtSleep
| Exited
| Crashed.

Record state := {
  sess : session;
  gen : gen_pc;
  mon : monitor_pc
}.

Definition error_message (e : exn) : str :=
  cross_mark :: lit " Error: " ++ exn_str e.

(** One statement of the generation thread.  The call of the coding system
    and the walk over the output directory may return or raise, and
    neither touches the session. *)
Inductive gen_step (out : str) : state -> state -> Prop :=
| step_reset s m :
    gen_step out {| sess := s; gen := AtResetProgress; mon := m |}
      {| sess := set_progress s 0; gen := AtSetStarting; mon := m |}
| step_starting s m :
    gen_step out {| sess := s; gen := AtSetStarting; mon := m |}
      {| sess := set_current_phase s (lit "starting");
         gen := AtClearMessages; mon := m |}
| step_clear_messages s m :
    gen_step out {| sess := s; gen := AtClearMessages; mon := m |}
      {| sess := set_messages s []; gen := AtSetRunning; mon := m |}
| step_running s m :
    gen_step out {| sess := s; gen := AtSetRunning; mon := m |}
      {| sess := set_is_running s true; gen := AtClearDownload; mon := m |}
| step_clear_download s m :
    gen_step out {| sess := s; gen := AtClearDownload; mon := m |}
      {| sess := set_download_ready s false; gen := AtStartMonitor;
         mon := m |}
| step_start_monitor s m :
    gen_step out {| sess := s; gen := AtStartMonitor; mon := m |}
      {| sess := s; gen := AtRunSystem; mon := AtLoopTest |}
| step_run_returns s m :
    gen_step out {| sess := s; gen := AtRunSystem; mon := m |}
      {| sess := s; gen := AtSetOutputDir; mon := m |}
| step_run_raises s m e :
    gen_step out {| sess := s; gen := AtRunSystem; mon := m |}
      {| sess := s; gen := AtHandler e; mon := m |}
| step_output_dir s m :
    gen_step out {| sess := s; gen := AtSetOutputDir; mon := m |}
      {| sess := set_output_dir s (Some out); gen := AtGatherFiles;
         mon := m |}
| step_walk_returns s m found :
    gen_step out {| sess := s; gen := AtGatherFiles; mon := m |}
      {| sess := s; gen := AtSetFiles found; mon := m |}
| step_walk_raises s m e :
    gen_step out {| sess := s; gen := AtGatherFiles; mon := m |}
      {| sess := s; gen := AtHandler e; mon := m |}
| step_files s m found :
    gen_step out {| sess := s; gen := AtSetFiles found; mon := m |}
      {| sess := set_files s found; gen := AtSetProgress; mon := m |}
| step_progress s m :
    gen_step out {| sess := s; gen := AtSetProgress; mon := m |}
      {| sess := set_progress s 100; gen := AtSetComplete; mon := m |}
| step_complete s m :
    gen_step out {| sess := s; gen := AtSetComplete; mon := m |}
      {| sess := set_current_phase s (lit "complete");
         gen := AtSetDownloadReady; mon := m |}
| step_download_ready s m :
    gen_step out {| sess := s; gen := AtSetDownloadReady; mon := m |}
      {| sess := set_download_ready s true; gen := AtFinally; mon := m |}
| step_handler s m e :
    gen_step out {| sess := s; gen := AtHandler e; mon := m |}
      {| sess := set_messages s (messages s ++ [error_message e]);
         gen := AtFinally; mon := m |}
| step_finally s m :
    gen_step out {| sess := s; gen := AtFinally; mon := m |}
      {| sess := set_is_running s false; gen := AtEnd; mon := m |}.

(** One step of the monitor thread: each reading of the session is a step
    of its own, so the generation thread may run between the test
    [in phases] and the call of [index], and between that call and the
    assignment. *)
Inductive monitor_step : state -> state -> Prop :=
| step_loop_enter s g :
    is_running s = true ->
    monitor_step {| sess := s; gen := g; mon := AtLoopTest |}
      {| sess := s; gen := g; mon := AtMembership |}
| step_loop_exit s g :
    is_running s = false ->
    monitor_step {| sess := s; gen := g; mon := AtLoopTest |}
      {| sess := s; gen := g; mon := Exited |}
| step_member s g :
    contains phases (current_phase s) = true ->
    monitor_step {| sess := s; gen := g; mon := AtMembership |}
      {| sess := s; gen := g; mon := AtIndex |}
| step_not_member s g :
    contains phases (current_phase s) = false ->
    monitor_step {| sess := s; gen := g; mon := AtMembership |}
      {| sess := s; gen := g; mon := AtSleep |}
| step_index s g phase_idx v :
    index phases (current_phase s) = Some phase_idx ->
    estimate phase_idx = Some v ->
    monitor_step {| sess := s; gen := g; mon := AtIndex |}
      {| sess := s; gen := g; mon := AtAssign v |}
| step_index_raises s g :
    index phases (current_phase s) = None ->
    monitor_step {| sess := s; gen := g; mon := AtIndex |}
      {| sess := s; gen := g; mon := Crashed |}
| step_int_raises s g phase_idx :
    index phases (current_phase s) = Some phase_idx ->
    estimate phase_idx = None ->
    monitor_step {| sess := s; gen := g; mon := AtIndex |}
      {| sess := s; gen := g; mon := Crashed |}
| step_assign s g v :
    monitor_step {| sess := s; gen := g; mon := AtAssign v |}
      {| sess := set_progress s v; gen := g; mon := AtSleep |}
| step_sleep s g :
    monitor_step {| sess := s; gen := g; mon := AtSleep |}
      {| sess := s; gen := g; mon := AtLoopTest |}.

(** The two threads interleave. *)
Definition step (out : str) (st st' : state) : Prop :=
  gen_step out st st' \/ monitor_step st st'.

(** The states a run of [create_project_in_thread] goes through, from its
    first statement on an arbitrary session. *)
Inductive reachable (out : str) : state -> Prop :=
| reach_start s :
    reachable out {| sess := s; gen := AtResetProgress; mon := NotStarted |}
| reach_step st st' :
    reachable out st -> step out st st' -> reachable out st'.

(** Steps of the monitor alone. *)
Inductive monitor_steps : state -> state -> Prop :=
| monitor_stays st : monitor_steps st st
| monitor_moves st st' st'' :
    monitor_step st st' -> monitor_steps st' st'' -> monitor_steps st st''.

End WebApp.

(** ** utils/code_quality.py *)

Section CodeQuality.

Variable W : world.

Definition format_python_code (code : str) (line_length : Z) : M str :=
  try_except
    (call_value (BlackFormatStr code line_length)
       (fun h => black_format_str W h code line_length))
    (fun r =>
       match r with
       | Exc e =>
           Some (print (lit "Black formatting error: " ++ exn_str e) ;;
                 ret code)
       | SystemExit _ => None
       end).

(** [float(score_match.group(1)) if score_match else 0.0] *)
Definition extract_score (report : str) : M float :=
  match re_search_score W report with
  | Some digits =>
      match float_of_str W digits with
      | inl e => raise (Exc e)
      | inr score => ret score
      end
  | None => ret 0%float
  end.

Definition run_pylint (file_path : str) : M (str * float) :=
  if negb (pylint_available W) then
    ret (lit "Pylint not available", 0%float)
  else
    let path := pathlib_str W file_path in
    try_except
      (report <- call_value (PylintRun path)
                   (fun h => pylint_run W h path) ;;
       score <- extract_score report ;;
       ret (report, score))
      (fun r =>
         match r with
         | Exc e =>
             Some (ret (lit "Error running Pylint: " ++ exn_str e, 0%float))
         | SystemExit _ => None
         end).

(** [subprocess.run(argv, capture_output=True, text=True, check=False)] *)
Definition run_subprocess (argv : list str) : M completed_process :=
  call_value (Subprocess argv) (fun h => subprocess_run W h argv).

Definition nonempty (line : str) : bool :=
  match line with
  | [] => false
  | _ :: _ => true
  end.

Definition check_pep8_compliance (file_path : str) : M (bool * list str) :=
  let path := pathlib_str W file_path in
  try_except
    (result <- run_subprocess [lit "pycodestyle"; path] ;;
     if returncode result =? 0 then ret (true, [])
     else
       let violations := filter nonempty (split (stdout result) nl) in
       ret (false, violations))
    (fun r =>
       match r with
       | Exc (FileNotFoundError _) =>
           Some (ret (false, [lit "pycodestyle not installed or not in PATH"]))
       | Exc e =>
           Some (ret (false,
                      [lit "Error checking PEP 8 compliance: " ++ exn_str e]))
       | SystemExit _ => None
       end).

Definition optimize_imports (file_path : str) : M (bool * str) :=
  let path := pathlib_str W file_path in
  try_except
    (result <- run_subprocess
                 [lit "isort"; lit "--profile"; lit "black"; path] ;;
     if returncode result =? 0 then
       modified_code <- read_file W path Utf8 ;;
       ret (true, modified_code)
     else
       ret (false, lit "Error optimizing imports: " ++ stderr result))
    (fun r =>
       match r with
       | Exc (FileNotFoundError _) =>
           Some (ret (false, lit "isort not installed or not in PATH"))
       | Exc e =>
           Some (ret (false, lit "Error optimizing imports: " ++ exn_str e))
       | SystemExit _ => None
       end).

End CodeQuality.

(** Does the event start a child process? *)
Definition is_subprocess (e : event) : bool :=
  match e with
  | Subprocess _ _ => true
  | _ => false
  end.

(** ** utils/code_quality.py: files, directories and syntax trees *)

(** [f.readlines()] on a file opened for reading text: the lines of what
    [f.read()] returns, each with its line break, the last one without if
    the text does not end in one.  (In text mode every line ending has been
    translated to a line feed.)  [cur] holds the current line in reverse. *)
Fixpoint readlines_aux (cur : str) (s : str) : list str :=
  match s with
  | [] => match cur with
          | [] => []
          | _ :: _ => [rev cur]
          end
  | c :: s' =>
      if (c =? 10)%N then rev (c :: cur) :: readlines_aux [] s'
      else readlines_aux (c :: cur) s'
  end.

Definition readlines (content : str) : list str := readlines_aux [] content.

(** A Python number: an [int] or a [float]. *)
Inductive number :=
| PyInt (z : Z)
| PyFloat (x : float).

(** [a / b] on two integers that a double holds exactly (below 2^53, as
    any count of lines is): the division of the two doubles. *)
Definition true_div (a b : Z) : float :=
  PrimFloat.div (float_of_Z a) (float_of_Z b).

(** The dictionary returned by [count_lines_of_code]. *)
Record line_counts := {
  total_lines : Z;
  code_lines : Z;
  comment_lines : Z;
  blank_lines : Z;
  comment_ratio : number
}.

Definition no_lines : line_counts :=
  {| total_lines := 0; code_lines := 0; comment_lines := 0;
     blank_lines := 0; comment_ratio := PyInt 0 |}.

(** [line.strip() == ''] *)
Definition is_blank (line : str) : bool := str_eqb (strip line) [].

(** [line.strip().startswith('#')] *)
Definition is_comment (line : str) : bool := startswith (lit "#") (strip line).

(** [sum(1 for x in l if test(x))] *)
Definition sum_if {A} (test : A -> bool) (l : list A) : Z :=
  Z.of_nat (List.length (filter test l)).

Definition tally (lines : list str) : line_counts :=
  let total_lines := Z.of_nat (List.length lines) in
  let blank_lines := sum_if is_blank lines in
  let comment_lines := sum_if is_comment lines in
  let code_lines := total_lines - blank_lines - comment_lines in
  {| total_lines := total_lines;
     code_lines := code_lines;
     comment_lines := comment_lines;
     blank_lines := blank_lines;
     comment_ratio :=
       if code_lines >? 0 then PyFloat (true_div comment_lines code_lines)
       else PyInt 0 |}.

Section CodeQualityFiles.

Variable W : world.

(** A [Path] object is represented by a string it was built from:
    [Path(p)] of such a path is the same path, and its [str] is
    [pathlib_str W] of the string. *)

(** [except Exception as e: print(f"{label}{path}: {str(e)}"); return
    default] *)
Definition report_and_return {A} (label path : str) (default : M A)
  (r : raised) : option (M A) :=
  match r with
  | Exc e =>
      Some (print (label ++ path ++ lit ": " ++ exn_str e) ;; default)
  | SystemExit _ => None
  end.

Definition count_lines_of_code (file_path : str) : M line_counts :=
  let path := pathlib_str W file_path in
  try_except
    (content <- read_file W path Utf8 ;;
     ret (tally (readlines content)))
    (report_and_return (lit "Error counting lines in ") path (ret no_lines)).

Definition format_python_file (file_path : str) (line_length : Z) : M bool :=
  let path := pathlib_str W file_path in
  try_except
    (code <- read_file W path Utf8 ;;
     formatted_code <- format_python_code W code line_length ;;
     write_file W path Utf8 formatted_code ;;
     ret true)
    (report_and_return (lit "Error formatting ") path (ret false)).

End CodeQualityFiles.

(** *** Syntax trees *)

(** The nodes of [ast] that the module tells apart, and every other class
    of node.  A node holds its child nodes in the order of
    [ast.iter_child_nodes]. *)
Module Ast.

Inductive kind :=
| ClassDef
| FunctionDef
| AsyncFunctionDef
| Import
| ImportFrom
| For
| AsyncFor
| While
| If
| Try
| Other.

#[local] Unset Elimination Schemes.
Inductive node :=
| Node (k : kind) (children : list node).
#[local] Set Elimination Schemes.

Definition kind_of (n : node) : kind :=
  match n with
  | Node k _ => k
  end.

(** The number of nodes of a tree. *)
Fixpoint size (n : node) : nat :=
  match n with
  | Node _ children => S (list_sum (map size children))
  end.

(** [ast.walk(tree)]: the nodes of the tree, breadth first; the queue
    [todo] loses its first node and gains the children of that node at its
    end.  A turn of the loop yields one node, so the number of nodes
    bounds the turns. *)
Fixpoint walk_from (turns : nat) (todo : list node) : list node :=
  match turns with
  | O => []
  | S turns' =>
      match todo with
      | [] => []
      | Node k children :: rest =>
          Node k children :: walk_from turns' (rest ++ children)
      end
  end.

Definition walk (tree : node) : list node := walk_from (size tree) [tree].

End Ast.

(** What the module takes from [pathlib], [ast] and [re] besides the
    oracles of [world]. *)
Record toolbox := {
  (* [list(Path(directory).glob(pattern))] *)
  path_glob : list event -> str -> str -> exn + list str;
  (* [ast.parse(code)] *)
  ast_parse : str -> exn + Ast.node;
  (* [m.start()] for the matches [m] of [re.finditer(pattern, code)] *)
  re_finditer : str -> str -> list Z
}.

(** A call that consults the outside world without changing it. *)
Definition consult {A} (oracle : list event -> exn + A) : M A :=
  fun h => ([], match oracle h with
                | inl e => inl (Exc e)
                | inr a => inr a
                end).

(** [d[k] = v] on a dictionary kept in insertion order. *)
Fixpoint dict_store {V} (d : list (str * V)) (k : str) (v : V)
  : list (str * V) :=
  match d with
  | [] => [(k, v)]
  | (k', v') :: d' =>
      if str_eqb k' k then (k', v) :: d' else (k', v') :: dict_store d' k v
  end.

(** The counters of [NodeCounter]. *)
Record node_counter := {
  loop_count : Z;
  if_count : Z;
  try_count : Z
}.

(** [NodeCounter.visit]: the method named after the class of the node when
    there is one, which counts and goes on with [generic_visit], and
    [generic_visit] itself otherwise: the children, in order. *)
Fixpoint visit (n : Ast.node) (self : node_counter) : node_counter :=
  match n with
  | Ast.Node k children =>
      let self :=
        match k with
        | Ast.For | Ast.While =>
            {| loop_count := loop_count self + 1;
               if_count := if_count self;
               try_count := try_count self |}
        | Ast.If =>
            {| loop_count := loop_count self;
               if_count := if_count self + 1;
               try_count := try_count self |}
        | Ast.Try =>
            {| loop_count := loop_count self;
               if_count := if_count self;
               try_count := try_count self + 1 |}
        | _ => self
        end in
      fold_left (fun self child => visit child self) children self
  end.

Definition is_ClassDef (n : Ast.node) : bool :=
  match Ast.kind_of n with
  | Ast.ClassDef => true
  | _ => false
  end.

Definition is_FunctionDef (n : Ast.node) : bool :=
  match Ast.kind_of n with
  | Ast.FunctionDef => true
  | _ => false
  end.

Definition is_import (n : Ast.node) : bool :=
  match Ast.kind_of n with
  | Ast.Import | Ast.ImportFrom => true
  | _ => false
  end.

(** The dictionary returned by [analyze_code_complexity]. *)
Record complexity := {
  classes : Z;
  functions : Z;
  imports : Z;
  loops : Z;
  conditionals : Z;
  try_blocks : Z;
  lines_of_code : line_counts;
  cyclomatic_complexity : Z
}.

(** One entry of the table [patterns]. *)
Record pattern_info := {
  pattern : str;
  description : str;
  severity : str
}.

(** The table of [check_for_security_issues]; the patterns are raw
    strings, so their backslashes stand for themselves. *)
Definition patterns : list pattern_info :=
  [ {| pattern := lit "eval\s*\(";
       description := lit "Use of eval() can be dangerous if input is not sanitized";
       severity := lit "high" |};
    {| pattern := lit "exec\s*\(";
       description := lit "Use of exec() can be dangerous if input is not sanitized";
       severity := lit "high" |};
    {| pattern := lit "pickle\.loads";
       description := lit "Unpickling data can lead to remote code execution";
       severity := lit "high" |};
    {| pattern := lit "shell\s*=\s*True";
       description := lit "Running shell commands with shell=True can be vulnerable to injection";
       severity := lit "medium" |};
    {| pattern := lit "\.format\(.*?__.*?\)";
       description := lit "String formatting with object attributes can lead to information disclosure";
       severity := lit "medium" |};
    {| pattern := lit "os\.system\(";
       description := lit "Using os.system() can be vulnerable to command injection";
       severity := lit "medium" |};
    {| pattern := lit "subprocess\.call\([^,]*?,\s*shell=True";
       description := lit "Using subprocess with shell=True can be vulnerable to command injection";
       severity := lit "medium" |};
    {| pattern := lit "request\.get\([^)]*?verify\s*=\s*False";
       description := lit "Disabling SSL verification is insecure";
       severity := lit "medium" |};
    {| pattern := lit "input\(";
       description := lit "Using raw input() can be dangerous if not properly validated";
       severity := lit "low" |};
    {| pattern := lit "DEBUG\s*=\s*True";
       description := lit "Debug mode enabled in production code";
       severity := lit "low" |} ].

(** One entry of the list returned by [check_for_security_issues]. *)
Module Issue.
Record t := {
  line : Z;
  content : str;
  description : str;
  severity : str
}.
End Issue.

(** [s.count(sub)] for a non-empty [sub]: the occurrences from left to
    right that do not overlap. *)
Fixpoint count_aux (sub : str) (skip : nat) (s : str) : nat :=
  match s with
  | [] => O
  | _ :: s' =>
      match skip with
      | S k => count_aux sub k s'
      | O =>
          if startswith sub s
          then S (count_aux sub (List.length sub - 1) s')
          else count_aux sub 0 s'
      end
  end.

Definition count (s sub : str) : Z := Z.of_nat (count_aux sub 0 s).

(** [l[i]] as a statement that raises. *)
Definition subscript {A} (l : list A) (i : Z) : M A :=
  match list_index l i with
  | Some x => ret x
  | None => raise (Exc (IndexError (lit "list index out of range")))
  end.

Section CodeQualityAnalysis.

Variable W : world.
Variable T : toolbox.

(** [list(path.glob("**/*.py"))] or [list(path.glob("*.py"))] *)
Definition python_files (directory_path : str) (recursive : bool)
  : M (list str) :=
  consult (fun h =>
             path_glob T h directory_path
               (if recursive then lit "**/*.py" else lit "*.py")).

(** The loop of [format_python_directory]. *)
Fixpoint format_each (py_files : list str) (line_length : Z)
  (results : list (str * bool)) : M (list (str * bool)) :=
  match py_files with
  | [] => ret results
  | py_file :: rest =>
      formatted <- format_python_file W py_file line_length ;;
      format_each rest line_length
        (dict_store results (pathlib_str W py_file) formatted)
  end.

Definition format_python_directory (directory_path : str) (line_length : Z)
  (recursive : bool) : M (list (str * bool)) :=
  py_files <- python_files directory_path recursive ;;
  format_each py_files line_length [].

(** The loop of [run_pylint_directory]. *)
Fixpoint run_pylint_each (py_files : list str)
  (results : list (str * (str * float))) : M (list (str * (str * float))) :=
  match py_files with
  | [] => ret results
  | py_file :: rest =>
      linted <- run_pylint W py_file ;;
      run_pylint_each rest
        (dict_store results (pathlib_str W py_file) linted)
  end.

Definition run_pylint_directory (directory_path : str) (recursive : bool)
  : M (list (str * (str * float))) :=
  py_files <- python_files directory_path recursive ;;
  run_pylint_each py_files [].

Definition analyze_code_complexity (file_path : str) : M complexity :=
  let path := pathlib_str W file_path in
  try_except
    (code <- read_file W path Utf8 ;;
     tree <- consult (fun _ => ast_parse T code) ;;
     let class_count := sum_if is_ClassDef (Ast.walk tree) in
     let function_count := sum_if is_FunctionDef (Ast.walk tree) in
     let import_count := sum_if is_import (Ast.walk tree) in
     let counter :=
       visit tree {| loop_count := 0; if_count := 0; try_count := 0 |} in
     loc <- count_lines_of_code W file_path ;;
     let cyclomatic_complexity :=
       if_count counter + loop_count counter + try_count counter + 1 in
     ret {| classes := class_count;
            functions := function_count;
            imports := import_count;
            loops := loop_count counter;
            conditionals := if_count counter;
            try_blocks := try_count counter;
            lines_of_code := loc;
            cyclomatic_complexity := cyclomatic_complexity |})
    (fun r =>
       match r with
       | Exc e =>
           Some (print (lit "Error analyzing complexity of " ++ path
                        ++ lit ": " ++ exn_str e) ;;
                 loc <- count_lines_of_code W file_path ;;
                 ret {| classes := 0;
                        functions := 0;
                        imports := 0;
                        loops := 0;
                        conditionals := 0;
                        try_blocks := 0;
                        lines_of_code := loc;
                        cyclomatic_complexity := 0 |})
       | SystemExit _ => None
       end).

(** The body of the inner loop of [check_for_security_issues] for the
    match that starts at [start]. *)
Definition issue_at (code : str) (info : pattern_info) (start : Z)
  : M Issue.t :=
  let line_number := count (slice code 0 start) nl + 1 in
  let lines := split code nl in
  line_content <-
    (if line_number <=? Z.of_nat (List.length lines)
     then subscript lines (line_number - 1)
     else ret []) ;;
  ret {| Issue.line := line_number;
         Issue.content := line_content;
         Issue.description := description info;
         Issue.severity := severity info |}.

Fixpoint scan_matches (code : str) (info : pattern_info) (matches : list Z)
  (issues : list Issue.t) : M (list Issue.t) :=
  match matches with
  | [] => ret issues
  | start :: rest =>
      found <- issue_at code info start ;;
      scan_matches code info rest (issues ++ [found])
  end.

Fixpoint scan_patterns (code : str) (table : list pattern_info)
  (issues : list Issue.t) : M (list Issue.t) :=
  match table with
  | [] => ret issues
  | info :: rest =>
      issues <- scan_matches code info (re_finditer T (pattern info) code)
                  issues ;;
      scan_patterns code rest issues
  end.

Definition check_for_security_issues (file_path : str) : M (list Issue.t) :=
  let path := pathlib_str W file_path in
  try_except
    (code <- read_file W path Utf8 ;;
     scan_patterns code patterns [])
    (report_and_return (lit "Error checking security issues in ") path
       (ret [])).

End CodeQualityAnalysis.

(** ** utils/file_utils.py *)

Section FileUtils.

Variable W : world.

(** [str(Path(file_path).parent)] *)
Variable path_parent : str -> str.

(** [Path.mkdir(parents=True, exist_ok=True)] is the operation of
    [os.makedirs(path, exist_ok=True)], and is recorded as such. *)
Definition ensure_directory_exists (directory_path : str) : M str :=
  makedirs W (pathlib_str W directory_path) ;;
  ret directory_path.

Definition write_text_file (file_path content : str) (ensure_dir : bool)
  : M str :=
  (if ensure_dir
   then ensure_directory_exists (path_parent file_path) ;; ret tt
   else ret tt) ;;
  write_file W (pathlib_str W file_path) Utf8 content ;;
  ret file_path.

Definition read_text_file (file_path : str) : M str :=
  read_file W (pathlib_str W file_path) Utf8.

Definition error_reading (path : str) (e : exn) : str :=
  lit "Error reading " ++ pathlib_str W path ++ lit ": " ++ exn_str e.

(** The loop of [merge_files]. *)
Fixpoint read_each (paths : list str) (contents : list str)
  : M (list str) :=
  match paths with
  | [] => ret contents
  | path :: rest =>
      content <-
        try_except (read_text_file path)
          (fun r =>
             match r with
             | Exc e => Some (ret (error_reading path e))
             | SystemExit _ => None
             end) ;;
      read_each rest (contents ++ [content])
  end.

Definition merge_files (file_paths : list str) (output_path separator : str)
  : M str :=
  contents <- read_each file_paths [] ;;
  write_text_file output_path (join separator contents) true.

End FileUtils.

(** *** Directory trees *)

(** A directory tree as [iterdir] and [is_dir] show it: a file, or a
    directory with its entries in the order of [iterdir]; [denied] marks a
    directory whose listing raises [PermissionError].  Names are single
    path components, and a tree is finite: no link leads back into it.
    The permissions concern the listing only. *)
Module Fs.

#[local] Unset Elimination Schemes.
Inductive entry :=
| File
| Directory (denied : bool) (items : list (str * entry)).
#[local] Set Elimination Schemes.

End Fs.

(** The values of the dictionaries that describe a tree: [None], a
    string, or a dictionary in insertion order. *)
#[local] Unset Elimination Schemes.
Inductive py :=
| PyNone
| PyStr (text : str)
| PyDict (items : list (str * py)).
#[local] Set Elimination Schemes.

(** [d.get(k)] on a dictionary kept in insertion order. *)
Fixpoint dict_get {V} (d : list (str * V)) (k : str) : option V :=
  match d with
  | [] => None
  | (k', v) :: d' => if str_eqb k' k then Some v else dict_get d' k
  end.

(** [max_depth is not None and current_depth > max_depth] *)
Definition too_deep (max_depth : option Z) (current_depth : Z) : bool :=
  match max_depth with
  | Some m => current_depth >? m
  | None => false
  end.

(** The inner function of [get_project_structure], on the tree found at
    [current_path]. *)
Fixpoint _get_structure (max_depth : option Z) (current : Fs.entry)
  (current_depth : Z) : exn + py :=
  if too_deep max_depth current_depth then inr (PyStr (lit "..."))
  else
    match current with
    | Fs.File => inl (OtherError (lit "[Errno 20] Not a directory"))
    | Fs.Directory true _ => inr (PyStr (lit "Permission denied"))
    | Fs.Directory false items =>
        (fix loop (items : list (str * Fs.entry)) (result : list (str * py))
           : exn + py :=
           match items with
           | [] => inr (PyDict result)
           | (name, item) :: rest =>
               match item with
               | Fs.Directory _ _ =>
                   match _get_structure max_depth item (current_depth + 1)
                   with
                   | inl e => inl e
                   | inr below => loop rest (dict_store result name below)
                   end
               | Fs.File => loop rest (dict_store result name PyNone)
               end
           end) items []
    end.

(** [get_project_structure] for a path whose last component is [name] and
    at which the file system holds [root], if anything. *)
Definition get_project_structure (name : str) (root : option Fs.entry)
  (max_depth : option Z) : exn + list (str * py) :=
  match root with
  | Some current =>
      match _get_structure max_depth current 0 with
      | inl e => inl e
      | inr below => inr [(name, below)]
      end
  | None =>
      if too_deep max_depth 0 then inr [(name, PyStr (lit "..."))]
      else inl (FileNotFoundError (lit "[Errno 2] No such file or directory"))
  end.

(** [path.mkdir(parents=True, exist_ok=True)] for a [path] right below an
    existing directory with the entries [current]: the entries of the
    directory at [path] afterwards, with its mark. *)
Definition mkdir (current : list (str * Fs.entry)) (name : str)
  : exn + bool * list (str * Fs.entry) :=
  match dict_get current name with
  | Some Fs.File => inl (OtherError (lit "[Errno 17] File exists"))
  | Some (Fs.Directory denied items) => inr (denied, items)
  | None => inr (false, [])
  end.

(** [path.touch()] for a [path] right below an existing directory: an
    entry that exists is left as it is. *)
Definition touch (current : list (str * Fs.entry)) (name : str)
  : list (str * Fs.entry) :=
  match dict_get current name with
  | Some _ => current
  | None => dict_store current name Fs.File
  end.

(** The inner function of [create_project_skeleton]: from the entries of
    the directory at [current_path] to its entries afterwards.  (The
    callers pass a dictionary; anything else has no [items].) *)
Fixpoint _create_structure (structure_dict : py)
  (current : list (str * Fs.entry)) {struct structure_dict}
  : exn + list (str * Fs.entry) :=
  match structure_dict with
  | PyDict items =>
      (fix loop (items : list (str * py)) (current : list (str * Fs.entry))
         : exn + list (str * Fs.entry) :=
         match items with
         | [] => inr current
         | (name, contents) :: rest =>
             match contents with
             | PyNone => loop rest (touch current name)
             | PyStr _ =>
                 match mkdir current name with
                 | inl e => inl e
                 | inr (denied, below) =>
                     loop rest
                       (dict_store current name (Fs.Directory denied below))
                 end
             | PyDict _ =>
                 match mkdir current name with
                 | inl e => inl e
                 | inr (denied, below) =>
                     match _create_structure contents below with
                     | inl e => inl e
                     | inr below' =>
                         loop rest
                           (dict_store current name
                              (Fs.Directory denied below'))
                     end
                 end
             end
         end) items current
  | PyNone | PyStr _ =>
      inl (OtherError (lit "object has no attribute 'items'"))
  end.

(** [create_project_skeleton] on a project directory with the entries
    [project] (none when the directory is yet to be made): its entries
    afterwards. *)
Definition create_project_skeleton (project : list (str * Fs.entry))
  (structure : list (str * py)) : exn + list (str * Fs.entry) :=
  match structure with
  | [] => inl (OtherError [])   (* [StopIteration] *)
  | (root_name, root_contents) :: _ =>
      match mkdir project root_name with
      | inl e => inl e
      | inr (denied, items) =>
          match root_contents with
          | PyDict _ =>
              match _create_structure root_contents items with
              | inl e => inl e
              | inr items' =>
                  inr (dict_store project root_name
                         (Fs.Directory denied items'))
              end
          | _ =>
              inr (dict_store project root_name (Fs.Directory denied items))
          end
      end
  end.

(** ** Vocabulary of the properties *)

(** [sub] occurs in [s] at position [i]. *)
Definition occurs_at (sub s : str) (i : nat) : Prop :=
  (i <= List.length s)%nat /\ startswith sub (skipn i s) = true.

Definition first_occurrence (sub s : str) (i : nat) : Prop :=
  occurs_at sub s i /\ forall k, (k < i)%nat -> ~ occurs_at sub s k.

Definition last_occurrence (sub s : str) (j : nat) : Prop :=
  occurs_at sub s j /\ forall k, (j < k)%nat -> ~ occurs_at sub s k.

(** Two fences at distinct positions. *)
Definition has_fence_pair (section : str) : Prop :=
  exists i j, (i < j)%nat /\ occurs_at fence section i
              /\ occurs_at fence section j.

(** The characters of [s] from position [i] up to position [j]. *)
Definition between (s : str) (i j : nat) : str :=
  firstn (j - i) (skipn i s).

(** The first line of the stripped section, stripped. *)
Definition section_path (section : str) : str :=
  strip (hd [] (split (strip section) nl)).

(** What one section of a reply contributes: a file (path and content)
    when it holds a fence pair, nothing otherwise. *)
Inductive section_file (tag section : str) : option (str * str) -> Prop :=
| section_with_pair i j :
    first_occurrence fence section i ->
    last_occurrence fence section j ->
    (i < j)%nat ->
    section_file tag section
      (Some (section_path section,
             strip (replace (replace (strip (between section i j)) tag [])
                      fence [])))
| section_without_pair :
    ~ has_fence_pair section ->
    section_file tag section None.

Definition present {A} (l : list (option A)) : list A :=
  flat_map (fun o => match o with Some a => [a] | None => [] end) l.

(** The files written successfully, in order: path and content. *)
Definition written (ev : list event) : list (str * str) :=
  flat_map (fun e => match e with
                     | FileWrite path _ content None => [(path, content)]
                     | _ => []
                     end) ev.

(** A call of the model: system message, human message, outcome. *)
Record invocation := {
  system_message : str;
  human_message : str;
  reply : exn + str
}.

Definition invocations (ev : list event) : list invocation :=
  flat_map (fun e => match e with
                     | Invoke s u o =>
                         [{| system_message := s; human_message := u;
                             reply := o |}]
                     | _ => []
                     end) ev.

(** The five steps, by their system messages. *)
Definition five_steps : list str :=
  [ requirements_system_prompt; architecture_system_prompt;
    code_system_prompt; tests_system_prompt; docs_system_prompt ].

(** The directory creations and file writes never fail. *)
Definition writable (W : world) : Prop :=
  (forall h path, os_makedirs W h path = None)
  /\ (forall h path enc content, open_write W h path enc content = None).

(** The third key of the table wrapped in the two halves of
    itself, a string of plain ASCII. *)
Definition nested_key : str :=
  [58; 32; 34]%N ++ triple_quoted_key
  ++ [34; 44; 10; 32; 32; 32; 32; 32; 32; 32; 32]%N.

(** The computation never ends in [SystemExit]. *)
Definition exc_only {A} (c : M A) : Prop :=
  forall h ev code, c h <> (ev, inl (SystemExit code)).


(** The opening lines of [run_simplified_coding_system]. *)
Definition opening : list event :=
  [ Print (nl ++ rocket :: lit " Starting Simplified AI Coding System");
    Print rule ].

(** What the loop does with one section, as a value: the path and the
    content it saves, if any. *)
Definition section_plan (tag section : str) : option (str * str) :=
  let code_start := find section fence in
  let code_end := rfind section fence in
  if fenced code_start code_end then
    Some (section_path section,
          strip (replace
                   (replace (strip (slice section code_start code_end))
                      tag [])
                   fence []))
  else None.

(** The sections of a sanitized reply: the pieces after each marker. *)
Definition sections_of (content : str) : list str :=
  tl (split content (lit "FILE: ")).

(** Under the output directory. *)
Definition placed (W : world) (output_dir : str) (f : str * str)
  : str * str :=
  (path_join W output_dir (fst f), snd f).

(** The paths a reply to the code step makes [generate_code_files]
    return. *)
Definition code_paths (response : str) : list str :=
  map fst (present (map (section_plan (lit "```python"))
                      (sections_of (sanitize_text response)))).

(** Each call of the model gets a human message made of the prompt and of
    the replies to the calls before it (sanitized); the fourth also holds
    the text read back from the files of the third step. *)
Definition dataflow (prompt : str) (calls : list invocation) : Prop :=
  match calls with
  | [] => True
  | c1 :: calls1 =>
      human_message c1 = prompt
      /\ match calls1 with
         | [] => True
         | c2 :: calls2 =>
             exists r1,
               reply c1 = inr r1
               /\ human_message c2 = architecture_human (sanitize_text r1)
               /\ match calls2 with
                  | [] => True
                  | c3 :: calls3 =>
                      exists r2,
                        reply c2 = inr r2
                        /\ human_message c3
                           = code_human (sanitize_text r1) (sanitize_text r2)
                        /\ match calls3 with
                           | [] => True
                           | c4 :: calls4 =>
                               exists r3 implementation,
                                 reply c3 = inr r3
                                 /\ human_message c4
                                    = tests_human (sanitize_text r1)
                                        implementation
                                 /\ match calls4 with
                                    | [] => True
                                    | c5 :: calls5 =>
                                        exists r4,
                                          reply c4 = inr r4
                                          /\ human_message c5
                                             = docs_human (sanitize_text r1)
                                                 (sanitize_text r2)
                                                 (join nl (code_paths r3))
                                          /\ calls5 = []
                                    end
                           end
                  end
         end
  end.

(** The points of a run that mark its phases: the banner that
    [run_simplified_coding_system] prints before it calls a phase, a call
    of the model, and the line that a phase prints as its last statement
    before it returns. *)
Inductive milestone :=
| Start (k : nat)
| Call (c : invocation)
| Done.

Definition done_requirements : str :=
  check_mark :: lit " Generated requirements document".
Definition done_architecture : str :=
  check_mark :: lit " Generated architecture design".
Definition created_prefix : str := check_mark :: lit " Created ".

Definition milestone_of (e : event) : option milestone :=
  match e with
  | Invoke s u o =>
      Some (Call {| system_message := s; human_message := u; reply := o |})
  | Print text =>
      if startswith phase1_banner text then Some (Start 1)
      else if startswith phase2_banner text then Some (Start 2)
      else if startswith phase3_banner text then Some (Start 3)
      else if startswith phase4_banner text then Some (Start 4)
      else if startswith phase5_banner text then Some (Start 5)
      else if startswith done_requirements text
              || startswith done_architecture text
              || startswith created_prefix text
      then Some Done
      else None
  | _ => None
  end.

Definition milestones (ev : list event) : list milestone :=
  flat_map (fun e => match milestone_of e with
                     | Some m => [m]
                     | None => []
                     end) ev.

Definition calls_of (ms : list milestone) : list invocation :=
  flat_map (fun m => match m with Call c => [c] | _ => [] end) ms.

(** The milestones of phases that run one after the other, each to its
    end, numbered from [k]. *)
Fixpoint timeline (k : nat) (calls : list invocation) : list milestone :=
  match calls with
  | [] => []
  | c :: rest => Start k :: Call c :: Done :: timeline (S k) rest
  end.

(** The computation neither calls the model nor prints a line that marks
    a phase. *)
Definition quiet {A} (c : M A) : Prop :=
  forall h, milestones (fst (c h)) = [].

(** The computation prints the closing line of a phase when it returns,
    and nothing else that marks a phase. *)
Definition finishing {A} (c : M A) : Prop :=
  forall h,
    milestones (fst (c h))
    = match snd (c h) with
      | inr _ => [Done]
      | inl _ => []
      end.

(** The milestones of a run are in order: the messages of its calls
    follow [dataflow]; the system messages are the first of the five
    steps; the milestones are an initial part of the timeline of phases
    run one after the other; and when the body of the [try] ran to its end,
    all five steps were made and the timeline is complete. *)
Definition ordered {A} (prompt : str) (ms : list milestone)
  (result : raised + A) : Prop :=
  dataflow prompt (calls_of ms)
  /\ (exists n, map system_message (calls_of ms) = firstn n five_steps)
  /\ (exists n rest, ms = firstn n (timeline 1 (calls_of ms ++ rest)))
  /\ (forall a, result = inr a ->
                map system_message (calls_of ms) = five_steps
                /\ ms = timeline 1 (calls_of ms)).

(** The call of the model made at history [h]. *)
Definition call_of (W : world) (h : list event) (system human : str)
  : invocation :=
  {| system_message := system; human_message := human;
     reply := llm_invoke W h system human |}.

(** The call of the tests step, made after the files were read back. *)
Definition tests_call (W : world) (out requirements : str)
  (created_files : list str) (h : list event)
  (files_content : list (str * str)) : invocation :=
  call_of W (h ++ fst (read_created_files W out created_files [] h))
    tests_system_prompt
    (tests_human requirements
       (join (nl ++ nl) (map file_block files_content))).

(** The two phase names the generation thread assigns. *)
Definition settled (s : WebApp.session) : Prop :=
  WebApp.current_phase s = lit "starting"
  \/ WebApp.current_phase s = lit "complete".

(** What holds along a run of [create_project_in_thread]: the monitor is
    not started before the phase is set; from then on the phase is one of
    the two names the thread assigns; and the monitor never gets past its
    test [in phases], so it holds no value to assign and has not died. *)
Definition phase_invariant (st : WebApp.state) : Prop :=
  match WebApp.gen st with
  | WebApp.AtResetProgress | WebApp.AtSetStarting =>
      WebApp.mon st = WebApp.NotStarted
  | _ =>
      settled (WebApp.sess st)
      /\ match WebApp.mon st with
         | WebApp.AtIndex | WebApp.AtAssign _ | WebApp.Crashed => False
         | _ => True
         end
  end.

(** A value the monitor is about to assign is an estimate: at most 83. *)
Definition assign_bounded (st : WebApp.state) : Prop :=
  match WebApp.mon st with
  | WebApp.AtAssign v => 0 <= v <= 83
  | _ => True
  end.

(** The paths of the files a trace tries to read, in order. *)
Definition read_attempts (ev : list event) : list str :=
  flat_map (fun e => match e with
                     | FileRead path _ _ => [path]
                     | _ => []
                     end) ev.

(** The paths Pylint is run on, in order. *)
Definition lint_runs (ev : list event) : list str :=
  flat_map (fun e => match e with
                     | PylintRun path _ => [path]
                     | _ => []
                     end) ev.

(** [sum(l)] *)
Definition Zsum (l : list Z) : Z := fold_right Z.add 0 l.

(** The number of nodes of a tree, at any depth, that pass a test. *)
Fixpoint census (test : Ast.node -> bool) (n : Ast.node) : Z :=
  match n with
  | Ast.Node k children =>
      (if test (Ast.Node k children) then 1 else 0)
      + Zsum (map (census test) children)
  end.

Definition is_loop (n : Ast.node) : bool :=
  match Ast.kind_of n with
  | Ast.For | Ast.While => true
  | _ => false
  end.

Definition is_If (n : Ast.node) : bool :=
  match Ast.kind_of n with
  | Ast.If => true
  | _ => false
  end.

Definition is_Try (n : Ast.node) : bool :=
  match Ast.kind_of n with
  | Ast.Try => true
  | _ => false
  end.

(** The result of a failed analysis, the line counts apart. *)
Definition nothing_analyzed (c : complexity) : Prop :=
  classes c = 0 /\ functions c = 0 /\ imports c = 0 /\ loops c = 0
  /\ conditionals c = 0 /\ try_blocks c = 0 /\ cyclomatic_complexity c = 0.

(** An issue reports the line of the text in which the match that starts
    at [start] begins: the text splits into the lines before, that line
    and the rest, the line holds no line break and the offset falls in it,
    and the number of the line is one more than the line breaks before
    it. *)
Definition located (code : str) (found : Issue.t) (start : Z) : Prop :=
  exists before after,
    code = before ++ Issue.content found ++ after
    /\ ~ In 10%N (Issue.content found)
    /\ (before = [] \/ exists b, before = b ++ nl)
    /\ (after = [] \/ exists a, after = nl ++ a)
    /\ Issue.line found = 1 + Z.of_nat (count_occ N.eq_dec before 10%N)
    /\ Z.of_nat (List.length before) <= start
       <= Z.of_nat (List.length before + List.length (Issue.content found)).

(** The offsets of the matches of the whole table, pattern by pattern. *)
Definition all_matches (T : toolbox) (code : str) : list (pattern_info * Z) :=
  flat_map (fun info =>
              map (fun start => (info, start))
                (re_finditer T (pattern info) code)) patterns.

(** Every event a computation emits passes a test, whatever the history. *)
Definition emits {A} (P : event -> Prop) (c : M A) : Prop :=
  forall h, Forall P (fst (c h)).

(** Code points below 128 only. *)
Definition pure_ascii (s : str) : Prop := Forall (fun c => (c < 128)%N) s.

(** The event writes nothing but ASCII characters to a file. *)
Definition ascii_write (e : event) : Prop :=
  match e with
  | FileWrite _ _ content _ => pure_ascii content
  | _ => True
  end.

(** The event is an exchange with the console. *)
Definition console (e : event) : Prop :=
  match e with
  | Print _ | Input _ _ => True
  | _ => False
  end.

(** If the computation ends in [SystemExit], the exit code is [code]. *)
Definition exits_with {A} (code : Z) (c : M A) : Prop :=
  forall h ev code', c h = (ev, inl (SystemExit code')) -> code' = code.

(** If the computation ends in [SystemExit], the exit code is 0 and the
    computation has done nothing but talk to the console. *)
Definition declines {A} (c : M A) : Prop :=
  forall h ev code,
    c h = (ev, inl (SystemExit code)) -> code = 0 /\ Forall console ev.

Definition same_encoding (a b : encoding) : bool :=
  match a, b with
  | Utf8, Utf8 | AsciiReplace, AsciiReplace => true
  | _, _ => false
  end.

(** The paths of the files a trace tries to read with an encoding, in
    order. *)
Definition reads_with (enc : encoding) (ev : list event) : list str :=
  flat_map (fun e => match e with
                     | FileRead path enc' _ =>
                         if same_encoding enc enc' then [path] else []
                     | _ => []
                     end) ev.

(** The event reads a file or prints a line. *)
Definition read_or_print (e : event) : Prop :=
  match e with
  | FileRead _ _ _ | Print _ => True
  | _ => False
  end.

(** The event is no call of the model. *)
Definition no_call (e : event) : Prop :=
  match e with
  | Invoke _ _ _ => False
  | _ => True
  end.

(** The condition under which the page renders its progress section, the
    part of the page that writes the [messages] out: [is_running or
    progress > 0]. *)
Definition shows_progress (s : WebApp.session) : bool :=
  WebApp.is_running s || (WebApp.progress s >? 0).

(** The session right after the five assignments that open
    [create_project_in_thread]. *)
Definition opened (s : WebApp.session) : Prop :=
  WebApp.progress s = 0
  /\ WebApp.current_phase s = lit "starting"
  /\ WebApp.messages s = []
  /\ WebApp.is_running s = true
  /\ WebApp.download_ready s = false.

(** The two ways a run leaves the session, [is_running] apart: the
    project is offered for download, or one error message is recorded. *)
Definition succeeded (out : str) (s : WebApp.session) : Prop :=
  WebApp.download_ready s = true
  /\ WebApp.progress s = 100
  /\ WebApp.current_phase s = lit "complete"
  /\ WebApp.output_dir s = Some out
  /\ WebApp.messages s = [].

Definition failed (s : WebApp.session) : Prop :=
  WebApp.download_ready s = false
  /\ WebApp.progress s = 0
  /\ WebApp.current_phase s = lit "starting"
  /\ exists e, WebApp.messages s = [WebApp.error_message e].

(** The monitor is in its loop. *)
Definition polling (m : WebApp.monitor_pc) : Prop :=
  match m with
  | WebApp.AtLoopTest | WebApp.AtMembership | WebApp.AtSleep => True
  | _ => False
  end.

(** What holds at each statement of [create_project_in_thread], however
    the monitor is scheduled. *)
Definition run_invariant (out : str) (st : WebApp.state) : Prop :=
  let s := WebApp.sess st in
  let m := WebApp.mon st in
  match WebApp.gen st with
  | WebApp.AtResetProgress => m = WebApp.NotStarted
  | WebApp.AtSetStarting => m = WebApp.NotStarted /\ WebApp.progress s = 0
  | WebApp.AtClearMessages =>
      m = WebApp.NotStarted /\ WebApp.progress s = 0
      /\ WebApp.current_phase s = lit "starting"
  | WebApp.AtSetRunning =>
      m = WebApp.NotStarted /\ WebApp.progress s = 0
      /\ WebApp.current_phase s = lit "starting" /\ WebApp.messages s = []
  | WebApp.AtClearDownload =>
      m = WebApp.NotStarted /\ WebApp.progress s = 0
      /\ WebApp.current_phase s = lit "starting" /\ WebApp.messages s = []
      /\ WebApp.is_running s = true
  | WebApp.AtStartMonitor => m = WebApp.NotStarted /\ opened s
  | WebApp.AtRunSystem | WebApp.AtSetOutputDir | WebApp.AtHandler _ =>
      polling m /\ opened s
  | WebApp.AtGatherFiles | WebApp.AtSetFiles _ | WebApp.AtSetProgress =>
      polling m /\ opened s /\ WebApp.output_dir s = Some out
  | WebApp.AtSetComplete =>
      polling m /\ WebApp.progress s = 100
      /\ WebApp.current_phase s = lit "starting"
      /\ WebApp.messages s = [] /\ WebApp.is_running s = true
      /\ WebApp.download_ready s = false /\ WebApp.output_dir s = Some out
  | WebApp.AtSetDownloadReady =>
      polling m /\ WebApp.progress s = 100
      /\ WebApp.current_phase s = lit "complete"
      /\ WebApp.messages s = [] /\ WebApp.is_running s = true
      /\ WebApp.download_ready s = false /\ WebApp.output_dir s = Some out
  | WebApp.AtFinally =>
      polling m /\ WebApp.is_running s = true
      /\ (succeeded out s \/ failed s)
  | WebApp.AtEnd =>
      (polling m \/ m = WebApp.Exited) /\ WebApp.is_running s = false
      /\ (succeeded out s \/ failed s)
  end.

(** A number of steps of the two threads. *)
Inductive steps (out : str) : nat -> WebApp.state -> WebApp.state -> Prop :=
| steps_none st : steps out 0 st st
| steps_more n st st' st'' :
    WebApp.step out st st' -> steps out n st' st'' ->
    steps out (S n) st st''.

(** The steps the monitor has left when the generation thread is done. *)
Definition remaining (m : WebApp.monitor_pc) : nat :=
  match m with
  | WebApp.AtMembership => 3
  | WebApp.AtSleep => 2
  | WebApp.AtLoopTest => 1
  | _ => 0
  end.

(** No name twice in a directory, at any depth. *)
Fixpoint well_formed (e : Fs.entry) : Prop :=
  match e with
  | Fs.File => True
  | Fs.Directory _ items =>
      NoDup (map fst items)
      /\ (fix each (items : list (str * Fs.entry)) : Prop :=
            match items with
            | [] => True
            | (_, item) :: rest => well_formed item /\ each rest
            end) items
  end.

(** Every directory can be listed. *)
Fixpoint all_open (e : Fs.entry) : Prop :=
  match e with
  | Fs.File => True
  | Fs.Directory denied items =>
      denied = false
      /\ (fix each (items : list (str * Fs.entry)) : Prop :=
            match items with
            | [] => True
            | (_, item) :: rest => all_open item /\ each rest
            end) items
  end.

(** The shape of a tree as far as [get_project_structure] looks: a
    directory that is below the depth limit or cannot be listed is kept
    without its entries, and every directory can be listed. *)
Fixpoint skeleton (max_depth : option Z) (current_depth : Z) (e : Fs.entry)
  : Fs.entry :=
  match e with
  | Fs.File => Fs.File
  | Fs.Directory denied items =>
      if too_deep max_depth current_depth || denied
      then Fs.Directory false []
      else Fs.Directory false
             (map (fun entry =>
                     (fst entry,
                      skeleton max_depth (current_depth + 1) (snd entry)))
                items)
  end.

(** A value describes an entry found at a depth: [None] a file; for a
    directory, what [_get_structure] returns, from which
    [_create_structure] makes the skeleton of the directory, in an empty
    directory as well as in one that holds the skeleton already. *)
Definition mirrors (max_depth : option Z) (current_depth : Z)
  (e : Fs.entry) (v : py) : Prop :=
  match e with
  | Fs.File => v = PyNone
  | Fs.Directory _ _ =>
      _get_structure max_depth e current_depth = inr v
      /\ match v with
         | PyNone => False
         | PyStr _ => skeleton max_depth current_depth e = Fs.Directory false []
         | PyDict _ =>
             exists items,
               skeleton max_depth current_depth e = Fs.Directory false items
               /\ _create_structure v [] = inr items
               /\ _create_structure v items = inr items
         end
  end.

(** ** Sample worlds *)

Fixpoint lstrip_slashes (s : str) : str :=
  match s with
  | 47%N :: s' => lstrip_slashes s'
  | _ => s
  end.

(** POSIX [os.path.join] of two components. *)
Definition posix_join (a b : str) : str :=
  if startswith (lit "/") b then b
  else match rev a with
       | [] => b
       | 47%N :: _ => a ++ b
       | _ => a ++ lit "/" ++ b
       end.

(** POSIX [os.path.dirname]. *)
Definition posix_dirname (p : str) : str :=
  let head := slice p 0 (rfind p (lit "/") + 1) in
  if nonempty head && negb (forallb (N.eqb 47) head)
  then rev (lstrip_slashes (rev head))
  else head.

(** A world in which the key is set, every call succeeds and the model
    answers every request with [answer]. *)
Definition calm_world (answer : str) : world :=
  {| getenv := fun name =>
       if str_eqb name (lit "GROQ_API_KEY") then Some (lit "key") else None;
     path_join := posix_join;
     path_dirname := posix_dirname;
     pathlib_str := fun p => p;
     os_makedirs := fun _ _ => None;
     open_write := fun _ _ _ _ => None;
     open_read := fun _ _ _ => inr [];
     chat_groq := fun _ _ _ => None;
     llm_invoke := fun _ _ _ => inr answer;
     stdin := [];
     pylint_available := true;
     black_format_str := fun _ code _ => inr code;
     pylint_run := fun _ _ => inr [];
     subprocess_run := fun _ _ =>
       inr {| returncode := 0; stdout := []; stderr := [] |};
     re_search_score := fun _ => None;
     float_of_str := fun _ => inr 0%float;
     int_of_str := fun _ => inr 0;
     str_lower := fun s => s;
     time_time := fun _ => 0%float;
     minutes_seconds := fun _ => (0, 0) |}.

(** The same world without the API key. *)
Definition keyless_world : world :=
  {| getenv := fun _ => None;
     path_join := posix_join;
     path_dirname := posix_dirname;
     pathlib_str := fun p => p;
     os_makedirs := fun _ _ => None;
     open_write := fun _ _ _ _ => None;
     open_read := fun _ _ _ => inr [];
     chat_groq := fun _ _ _ => None;
     llm_invoke := fun _ _ _ => inr [];
     stdin := [];
     pylint_available := true;
     black_format_str := fun _ code _ => inr code;
     pylint_run := fun _ _ => inr [];
     subprocess_run := fun _ _ =>
       inr {| returncode := 0; stdout := []; stderr := [] |};
     re_search_score := fun _ => None;
     float_of_str := fun _ => inr 0%float;
     int_of_str := fun _ => inr 0;
     str_lower := fun s => s;
     time_time := fun _ => 0%float;
     minutes_seconds := fun _ => (0, 0) |}.

(** A reply with one fenced file and one section without fences. *)
Definition sample_reply : str :=
  lit "Files:" ++ nl ++ lit "FILE: src/main.py" ++ nl ++ lit "```python"
  ++ nl ++ lit "print(1)" ++ nl ++ lit "```" ++ nl
  ++ lit "FILE: notes.txt" ++ nl ++ lit "no code here" ++ nl.

(** A world like [calm_world] whose file system, as any does, refuses to
    open a path that ends in a slash for writing. *)
Definition strict_world (answer : str) : world :=
  {| getenv := getenv (calm_world answer);
     path_join := posix_join;
     path_dirname := posix_dirname;
     pathlib_str := fun p => p;
     os_makedirs := fun _ _ => None;
     open_write := fun _ path _ _ =>
       match rev path with
       | 47%N :: _ =>
           Some (OtherError
                   (lit "[Errno 21] Is a directory: '" ++ path ++ lit "'"))
       | _ => None
       end;
     open_read := fun _ _ _ => inr [];
     chat_groq := fun _ _ _ => None;
     llm_invoke := fun _ _ _ => inr answer;
     stdin := [];
     pylint_available := true;
     black_format_str := fun _ code _ => inr code;
     pylint_run := fun _ _ => inr [];
     subprocess_run := fun _ _ =>
       inr {| returncode := 0; stdout := []; stderr := [] |};
     re_search_score := fun _ => None;
     float_of_str := fun _ => inr 0%float;
     int_of_str := fun _ => inr 0;
     str_lower := fun s => s;
     time_time := fun _ => 0%float;
     minutes_seconds := fun _ => (0, 0) |}.

(** A reply whose first section names a directory. *)
Definition directory_reply : str :=
  lit "FILE: src/" ++ nl ++ lit "```python" ++ nl ++ lit "print(1)" ++ nl
  ++ lit "```" ++ nl
  ++ lit "FILE: src/main.py" ++ nl ++ lit "```python" ++ nl
  ++ lit "print(2)" ++ nl ++ lit "```" ++ nl.

(** A toolbox whose regular expressions find the literal [eval(] only,
    wherever it stands, and whose parser knows the empty module only. *)
Fixpoint literal_offsets (sub : str) (s : str) (i : Z) : list Z :=
  match s with
  | [] => []
  | _ :: s' =>
      if startswith sub s then i :: literal_offsets sub s' (i + 1)
      else literal_offsets sub s' (i + 1)
  end.

Definition sample_toolbox : toolbox :=
  {| path_glob := fun _ _ _ => inr [];
     ast_parse := fun code =>
       match code with
       | [] => inr (Ast.Node Ast.Other [])
       | _ :: _ => inl (OtherError (lit "invalid syntax"))
       end;
     re_finditer := fun pattern code =>
       if str_eqb pattern (lit "eval\s*\(")
       then literal_offsets (lit "eval(") code 0
       else [] |}.

(** A file with a call of [eval] on its second line. *)
Definition risky_code : str :=
  lit "x = 1" ++ nl ++ lit "y = eval(x)" ++ nl.

Definition risky_world : world :=
  {| getenv := getenv keyless_world;
     path_join := posix_join;
     path_dirname := posix_dirname;
     pathlib_str := fun p => p;
     os_makedirs := fun _ _ => None;
     open_write := fun _ _ _ _ => None;
     open_read := fun _ _ _ => inr risky_code;
     chat_groq := fun _ _ _ => None;
     llm_invoke := fun _ _ _ => inr [];
     stdin := [];
     pylint_available := true;
     black_format_str := fun _ code _ => inr code;
     pylint_run := fun _ _ => inr [];
     subprocess_run := fun _ _ =>
       inr {| returncode := 0; stdout := []; stderr := [] |};
     re_search_score := fun _ => None;
     float_of_str := fun _ => inr 0%float;
     int_of_str := fun _ => inr 0;
     str_lower := fun s => s;
     time_time := fun _ => 0%float;
     minutes_seconds := fun _ => (0, 0) |}.

(** [int(s)] on a string of decimal digits with an optional sign: one of
    the texts [int] accepts; any other text is refused here. *)
Fixpoint digits_value (acc : Z) (s : str) : option Z :=
  match s with
  | [] => Some acc
  | c :: s' =>
      if ((48 <=? c) && (c <=? 57))%N
      then digits_value (10 * acc + Z.of_N (c - 48)) s'
      else None
  end.

Definition decimal (s : str) : exn + Z :=
  let refused :=
    inl (ValueError (lit "invalid literal for int() with base 10: '" ++ s
                     ++ lit "'")) in
  match s with
  | [] => refused
  | 45%N :: c :: s' =>
      match digits_value 0 (c :: s') with
      | Some v => inr (- v)
      | None => refused
      end
  | _ =>
      match digits_value 0 s with
      | Some v => inr v
      | None => refused
      end
  end.

(** A world like [calm_world] with a user at the console, who types
    [lines]. *)
Definition typing_world (lines : list str) : world :=
  {| getenv := getenv (calm_world sample_reply);
     path_join := posix_join;
     path_dirname := posix_dirname;
     pathlib_str := fun p => p;
     os_makedirs := fun _ _ => None;
     open_write := fun _ _ _ _ => None;
     open_read := fun _ _ _ => inr [];
     chat_groq := fun _ _ _ => None;
     llm_invoke := fun _ _ _ => inr sample_reply;
     stdin := lines;
     pylint_available := true;
     black_format_str := fun _ code _ => inr code;
     pylint_run := fun _ _ => inr [];
     subprocess_run := fun _ _ =>
       inr {| returncode := 0; stdout := []; stderr := [] |};
     re_search_score := fun _ => None;
     float_of_str := fun _ => inr 0%float;
     int_of_str := decimal;
     str_lower := fun s => s;
     time_time := fun _ => 0%float;
     minutes_seconds := fun _ => (0, 0) |}.

(** The answers of a user who fills in the questionnaire and then
    declines the prompt. *)
Definition declining_answers : list str :=
  [ lit "demo"; lit "3"; lit "1"; lit "prints a greeting"; [];
    lit "none"; lit "n" ].

Definition no_arguments : args :=
  {| prompt := None; output_dir := lit "out"; interactive := false |}.

(** The session at the end of a run in which the coding system raised
    [e], started from the session of a new page; both threads are at
    their end. *)
Definition failed_run (e : exn) : WebApp.state :=
  {| WebApp.sess :=
       {| WebApp.progress := 0;
          WebApp.current_phase := lit "starting";
          WebApp.messages := [WebApp.error_message e];
          WebApp.is_running := false;
          WebApp.output_dir := None;
          WebApp.files := [];
          WebApp.download_ready := false |};
     WebApp.gen := WebApp.AtEnd;
     WebApp.mon := WebApp.Exited |}.

(** The same run when the monitor is still asleep as the generation
    thread ends. *)
Definition failed_run_asleep (e : exn) : WebApp.state :=
  {| WebApp.sess := WebApp.sess (failed_run e);
     WebApp.gen := WebApp.AtEnd;
     WebApp.mon := WebApp.AtSleep |}.

(** A small project: a file, a package with a module and a sub-package,
    and a directory that cannot be listed. *)
Definition sample_tree : Fs.entry :=
  Fs.Directory false
    [ (lit "README.md", Fs.File);
      (lit "src",
       Fs.Directory false
         [ (lit "main.py", Fs.File);
           (lit "pkg", Fs.Directory false [(lit "mod.py", Fs.File)]) ]);
      (lit "secret", Fs.Directory true [(lit "key", Fs.File)]) ].

(** The answers of a user who fills in the questionnaire and accepts the
    prompt. *)
Definition confirming_answers : list str :=
  [ lit "demo"; lit "3"; lit "1"; lit "prints a greeting"; [];
    lit "none"; lit "y" ].

(** * Properties *)

(** ** The effect monad *)

Lemma bind_run {A B} (c : M A) (k : A -> M B) (h : list event) :
  bind c k h
  = match snd (c h) with
    | inl r => (fst (c h), inl r)
    | inr a =>
        (fst (c h) ++ fst (k a (h ++ fst (c h))),
         snd (k a (h ++ fst (c h))))
    end.
Proof.
  unfold bind. destruct (c h) as [ev [r | a]]; cbn [fst snd]; [reflexivity |].
  destruct (k a (h ++ ev)); reflexivity.
Qed.

Lemma try_except_run {A} (body : M A) (handler : raised -> option (M A))
  (h : list event) :
  try_except body handler h
  = match snd (body h) with
    | inr a => (fst (body h), inr a)
    | inl r =>
        match handler r with
        | Some k =>
            (fst (body h) ++ fst (k (h ++ fst (body h))),
             snd (k (h ++ fst (body h))))
        | None => (fst (body h), inl r)
        end
    end.
Proof.
  unfold try_except. destruct (body h) as [ev [r | a]]; cbn [fst snd];
    [| reflexivity].
  destruct (handler r) as [k |]; [| reflexivity].
  destruct (k (h ++ ev)); reflexivity.
Qed.

Lemma invocations_app (a b : list event) :
  invocations (a ++ b) = invocations a ++ invocations b.
Proof. unfold invocations. apply flat_map_app. Qed.

Lemma written_app (a b : list event) :
  written (a ++ b) = written a ++ written b.
Proof. unfold written. apply flat_map_app. Qed.

(** *** Computations that end in an [Exception] or a value *)

Lemma exc_only_ret {A} (a : A) : exc_only (ret a).
Proof. intros h ev code. unfold ret. discriminate. Qed.

Lemma exc_only_print (text : str) : exc_only (print text).
Proof. intros h ev code. unfold print. discriminate. Qed.

Lemma exc_only_raise {A} (e : exn) : exc_only (@raise A (Exc e)).
Proof. intros h ev code. unfold raise. discriminate. Qed.

Lemma exc_only_call_unit mk oracle : exc_only (call_unit mk oracle).
Proof.
  intros h ev code. unfold call_unit. destruct (oracle h); discriminate.
Qed.

Lemma exc_only_call_value {A} mk (oracle : list event -> exn + A) :
  exc_only (call_value mk oracle).
Proof.
  intros h ev code. unfold call_value. destruct (oracle h); discriminate.
Qed.

Lemma exc_only_bind {A B} (c : M A) (k : A -> M B) :
  exc_only c -> (forall a, exc_only (k a)) -> exc_only (bind c k).
Proof.
  intros Hc Hk h ev code. rewrite bind_run.
  destruct (c h) as [ev1 [r | a]] eqn:E; cbn [fst snd].
  - intros H. injection H as <- ->. exact (Hc h ev1 code E).
  - intros H. apply (Hk a (h ++ ev1) (fst (k a (h ++ ev1))) code).
    rewrite (surjective_pairing (k a (h ++ ev1))). f_equal.
    injection H as _ H. exact H.
Qed.

Lemma exc_only_try_except {A} (body : M A) handler :
  exc_only body ->
  (forall r k, handler r = Some k -> exc_only k) ->
  exc_only (try_except body handler).
Proof.
  intros Hb Hh h ev code. rewrite try_except_run.
  destruct (body h) as [ev1 [r | a]] eqn:E; cbn [fst snd]; [| discriminate].
  destruct (handler r) as [k |] eqn:Hk.
  - intros H. apply (Hh r k Hk (h ++ ev1) (fst (k (h ++ ev1))) code).
    rewrite (surjective_pairing (k (h ++ ev1))). f_equal.
    injection H as _ H. exact H.
  - intros H. injection H as <- ->. exact (Hb h ev1 code E).
Qed.

Lemma exc_only_makedirs W path : exc_only (makedirs W path).
Proof. apply exc_only_call_unit. Qed.

Lemma exc_only_write_file W path enc content :
  exc_only (write_file W path enc content).
Proof. apply exc_only_call_unit. Qed.

Lemma exc_only_read_file W path enc : exc_only (read_file W path enc).
Proof. apply exc_only_call_value. Qed.

Lemma exc_only_invoke W system human : exc_only (invoke W system human).
Proof. apply exc_only_call_value. Qed.

Create HintDb exc.
#[local] Hint Resolve exc_only_ret exc_only_print exc_only_raise
  exc_only_call_unit exc_only_call_value exc_only_makedirs
  exc_only_write_file exc_only_read_file exc_only_invoke : exc.

Ltac exc_step :=
  first
    [ solve [auto with exc]
    | apply exc_only_bind; [| intros ?]
    | apply exc_only_try_except;
      [| let r := fresh "r" in
         let k := fresh "k" in
         let H := fresh "H" in
         intros r k H;
         repeat match type of H with
                | context [match ?x with _ => _ end] => destruct x
                end;
         try discriminate H; injection H as <- ] ].

Lemma exc_only_safe_write_file W file_path content :
  exc_only (safe_write_file W file_path content).
Proof. unfold safe_write_file, failed_to_write. repeat exc_step. Qed.

#[local] Hint Resolve exc_only_safe_write_file : exc.

Lemma exc_only_save_sections W tag label out sections :
  forall created, exc_only (save_sections W tag label out sections created).
Proof.
  induction sections as [| section rest IH]; intros created;
    cbn [save_sections].
  - auto with exc.
  - destruct (fenced _ _); [| apply IH]. repeat exc_step.
Qed.

Lemma exc_only_read_created_files W out created_files :
  forall files_content,
    exc_only (read_created_files W out created_files files_content).
Proof.
  induction created_files as [| file_path rest IH]; intros files_content;
    cbn [read_created_files].
  - auto with exc.
  - repeat exc_step.
Qed.

Lemma exc_only_create_directories W out directories :
  exc_only (create_directories W out directories).
Proof.
  induction directories as [| d rest IH]; cbn [create_directories].
  - auto with exc.
  - repeat exc_step.
Qed.

#[local] Hint Resolve exc_only_save_sections exc_only_read_created_files
  exc_only_create_directories : exc.

Lemma exc_only_run_phases W prompt out : exc_only (run_phases W prompt out).
Proof.
  unfold run_phases, create_coding_agent, create_project_structure,
    generate_requirements_document, generate_architecture_design,
    generate_code_files, generate_tests, generate_documentation.
  destruct (getenv W (lit "GROQ_API_KEY")) as [[| c key] |];
    repeat exc_step.
Qed.

(** ** [split], [join] and [replace] *)

Lemma startswith_prefix p s :
  startswith p s = true -> exists rest, s = p ++ rest.
Proof.
  revert s. induction p as [| a p IH]; intros s; cbn [startswith].
  - intros _. exists s. reflexivity.
  - destruct s as [| b s]; [discriminate |].
    intros H. apply andb_prop in H. destruct H as [Hab H].
    apply N.eqb_eq in Hab. subst b.
    destruct (IH s H) as [rest ->]. exists rest. reflexivity.
Qed.

Lemma split_aux_skip sep p :
  forall rest cur,
    split_aux sep (List.length p) cur (p ++ rest) = split_aux sep 0 cur rest.
Proof.
  induction p as [| a p IH]; intros rest cur; [reflexivity |].
  cbn [List.length app split_aux]. apply IH.
Qed.

Lemma replace_aux_skip old new p :
  forall rest,
    replace_aux old new (List.length p) (p ++ rest)
    = replace_aux old new 0 rest.
Proof.
  induction p as [| a p IH]; intros rest; [reflexivity |].
  cbn [List.length app replace_aux]. apply IH.
Qed.

Lemma split_aux_nonempty sep s :
  forall skip cur, split_aux sep skip cur s <> [].
Proof.
  induction s as [| c s IH]; intros skip cur; cbn [split_aux];
    [discriminate |].
  destruct skip; [| apply IH].
  destruct (startswith sep (c :: s)); [discriminate | apply IH].
Qed.

Lemma join_cons sep x l :
  l <> [] -> join sep (x :: l) = x ++ sep ++ join sep l.
Proof. destruct l; [congruence | reflexivity]. Qed.

(** The pieces of a split, joined by the separator, give the string back,
    and joined by another string they give the replacement. *)
Lemma split_aux_join sep new :
  sep <> [] ->
  forall n s cur,
    (List.length s <= n)%nat ->
    join sep (split_aux sep 0 cur s) = rev cur ++ s
    /\ join new (split_aux sep 0 cur s)
       = rev cur ++ replace_aux sep new 0 s.
Proof.
  intros Hsep. induction n as [| n IH]; intros s cur Hlen.
  - destruct s; [| cbn in Hlen; lia]. cbn. rewrite app_nil_r. auto.
  - destruct s as [| c s]; [cbn; rewrite app_nil_r; auto |].
    cbn [split_aux replace_aux].
    destruct (startswith sep (c :: s)) eqn:E.
    + destruct sep as [| c0 sep']; [congruence |].
      destruct (startswith_prefix _ _ E) as [rest Hrest].
      cbn [app] in Hrest. injection Hrest as <- ->.
      replace (List.length (c :: sep') - 1)%nat with (List.length sep')
        by (cbn [List.length]; lia).
      rewrite split_aux_skip, replace_aux_skip.
      rewrite !join_cons by apply split_aux_nonempty.
      assert (List.length rest <= n)%nat as Hrest.
      { cbn [List.length] in Hlen. rewrite length_app in Hlen. lia. }
      destruct (IH rest [] Hrest) as [H1 H2]. rewrite H1, H2.
      cbn [rev app]. split; reflexivity.
    + assert (List.length s <= n)%nat as Hs by (cbn in Hlen; lia).
      destruct (IH s (c :: cur) Hs) as [H1 H2]. rewrite H1, H2.
      cbn [rev]. rewrite <- !app_assoc. auto.
Qed.

(** X4: the model of the string primitives agrees with two identities of
    Python: for a non-empty separator, [sep.join(s.split(sep))] is [s], and
    [s.replace(sep, new)] is [new.join(s.split(sep))]. *)
Theorem split_join_replace (s sep new : str) :
  sep <> [] ->
  join sep (split s sep) = s
  /\ replace s sep new = join new (split s sep).
Proof.
  intros Hsep. unfold split, replace.
  destruct (split_aux_join sep new Hsep (List.length s) s [] (le_n _))
    as [H1 H2].
  rewrite H1, H2. split; reflexivity.
Qed.

Lemma split_join_replace_witness :
  join (lit "FILE: ") (split sample_reply (lit "FILE: ")) = sample_reply
  /\ replace sample_reply (lit "FILE: ") (lit "#")
     = join (lit "#") (split sample_reply (lit "FILE: ")).
Proof. apply (split_join_replace sample_reply). discriminate. Defined.

(** ** [find], [rfind] and slices *)

Lemma occurs_at_0 sub s : occurs_at sub s 0 <-> startswith sub s = true.
Proof.
  unfold occurs_at. cbn [skipn]. split; [tauto |].
  intros H. split; [lia | exact H].
Qed.

Lemma occurs_at_S sub c s k :
  occurs_at sub (c :: s) (S k) <-> occurs_at sub s k.
Proof. unfold occurs_at. cbn [skipn List.length]. split; intros [? ?]; split; auto; lia. Qed.

Lemma occurs_at_nil sub k : occurs_at sub [] k -> k = O.
Proof. unfold occurs_at. cbn [List.length]. lia. Qed.

Lemma occurs_at_bound sub s k :
  occurs_at sub s k -> (k <= List.length s)%nat.
Proof. unfold occurs_at. tauto. Qed.

Lemma first_occurrence_0 sub s :
  startswith sub s = true -> first_occurrence sub s 0.
Proof.
  intros H. split; [apply occurs_at_0; exact H | intros k Hk; lia].
Qed.

Lemma find_from_spec sub s :
  forall off, 0 <= off ->
    (find_from sub s off = -1 /\ forall k, ~ occurs_at sub s k)
    \/ (exists i, find_from sub s off = off + Z.of_nat i
                  /\ first_occurrence sub s i).
Proof.
  induction s as [| c s IH]; intros off Hoff; cbn [find_from].
  - destruct (startswith sub []) eqn:E.
    + right. exists O. split; [lia | apply first_occurrence_0; exact E].
    + left. split; [reflexivity |]. intros k Hk.
      pose proof (occurs_at_nil _ _ Hk) as ->.
      apply occurs_at_0 in Hk. congruence.
  - destruct (startswith sub (c :: s)) eqn:E.
    + right. exists O. split; [lia | apply first_occurrence_0; exact E].
    + destruct (IH (off + 1) ltac:(lia)) as [[Hf Hno] | [i [Hf [Hocc Hmin]]]].
      * left. split; [exact Hf |]. intros [| k] Hk.
        -- apply occurs_at_0 in Hk. congruence.
        -- apply occurs_at_S in Hk. exact (Hno k Hk).
      * right. exists (S i). split; [lia |]. split.
        -- apply occurs_at_S. exact Hocc.
        -- intros [| k] Hk Hk'.
           ++ apply occurs_at_0 in Hk'. congruence.
           ++ apply occurs_at_S in Hk'. apply (Hmin k); [lia | exact Hk'].
Qed.

Lemma rfind_from_spec sub s :
  forall off, 0 <= off ->
    (rfind_from sub s off = -1 /\ forall k, ~ occurs_at sub s k)
    \/ (exists j, rfind_from sub s off = off + Z.of_nat j
                  /\ last_occurrence sub s j).
Proof.
  induction s as [| c s IH]; intros off Hoff; cbn [rfind_from].
  - destruct (startswith sub []) eqn:E.
    + right. exists O. split; [lia |]. split.
      * apply occurs_at_0. exact E.
      * intros k Hk Hk'. apply occurs_at_nil in Hk'. lia.
    + left. split; [reflexivity |]. intros k Hk.
      pose proof (occurs_at_nil _ _ Hk) as ->.
      apply occurs_at_0 in Hk. congruence.
  - destruct (IH (off + 1) ltac:(lia)) as [[Hf Hno] | [j [Hf [Hocc Hmax]]]].
    + rewrite Hf. cbn [Z.eqb Pos.eqb].
      destruct (startswith sub (c :: s)) eqn:E.
      * right. exists O. split; [lia |]. split.
        -- apply occurs_at_0. exact E.
        -- intros [| k] Hk Hk'; [lia |].
           apply occurs_at_S in Hk'. exact (Hno k Hk').
      * left. split; [reflexivity |]. intros [| k] Hk.
        -- apply occurs_at_0 in Hk. congruence.
        -- apply occurs_at_S in Hk. exact (Hno k Hk).
    + rewrite Hf. destruct (Z.eqb_spec (off + 1 + Z.of_nat j) (-1)); [lia |].
      right. exists (S j). split; [lia |]. split.
      * apply occurs_at_S. exact Hocc.
      * intros [| k] Hk Hk'; [lia |].
        apply occurs_at_S in Hk'. apply (Hmax k); [lia | exact Hk'].
Qed.

Lemma slice_between s (i j : nat) :
  (i <= j)%nat -> (j <= List.length s)%nat ->
  slice s (Z.of_nat i) (Z.of_nat j) = between s i j.
Proof.
  intros Hij Hj. unfold slice, slice_bound, between.
  destruct (Z.ltb_spec (Z.of_nat i) 0); [lia |].
  destruct (Z.ltb_spec (Z.of_nat j) 0); [lia |].
  rewrite !Z.min_l by lia.
  rewrite <- Nat2Z.inj_sub by lia. rewrite !Nat2Z.id. reflexivity.
Qed.

(** The guard of the loop holds exactly for the sections with a fence
    pair, and then the saved text lies between the first and the last
    fence. *)
Lemma section_plan_spec tag section :
  section_file tag section (section_plan tag section).
Proof.
  unfold section_plan, fenced, find, rfind.
  destruct (find_from_spec fence section 0 ltac:(lia))
    as [[Hf Hno] | [i [Hf Hfirst]]].
  - rewrite Hf. cbn [Z.eqb negb andb]. apply section_without_pair.
    intros [a [b [_ [Ha _]]]]. exact (Hno a Ha).
  - destruct (rfind_from_spec fence section 0 ltac:(lia))
      as [[Hr Hno] | [j [Hr Hlast]]].
    + exfalso. exact (Hno i (proj1 Hfirst)).
    + rewrite Hf, Hr. cbn [Z.add].
      destruct (Z.eqb_spec (Z.of_nat i) (-1)); [lia |].
      destruct (Z.eqb_spec (Z.of_nat j) (-1)); [lia |]. cbn [negb andb].
      destruct (Z.gtb_spec (Z.of_nat j) (Z.of_nat i)) as [Hgt | Hle].
      * rewrite slice_between;
          [| lia | exact (occurs_at_bound _ _ _ (proj1 Hlast))].
        apply section_with_pair; [exact Hfirst | exact Hlast | lia].
      * apply section_without_pair. intros [a [b [Hab [Ha Hb]]]].
        destruct Hfirst as [_ Hmin]. destruct Hlast as [_ Hmax].
        destruct (Nat.lt_ge_cases a i) as [Hai | Hai];
          [exact (Hmin a Hai Ha) |].
        destruct (Nat.lt_ge_cases j b) as [Hjb | Hjb];
          [exact (Hmax b Hjb Hb) |]. lia.
Qed.

(** X2: the guard of the saving loop holds exactly for the sections that
    hold two fences at distinct positions. *)
Theorem fenced_iff_pair (section : str) :
  fenced (find section fence) (rfind section fence) = true
  <-> has_fence_pair section.
Proof.
  pose proof (section_plan_spec [] section) as H.
  unfold section_plan in H.
  destruct (fenced (find section fence) (rfind section fence)).
  - split; [intros _ | reflexivity].
    inversion H as [i j [Hi _] [Hj _] Hij |]. exists i, j. auto.
  - split; [discriminate |]. intros Hpair.
    inversion H as [| Hno]. contradiction.
Qed.

(** *** No fence is left in a saved text *)

Lemma occurs_at_suffix sub p s k :
  occurs_at sub s k -> occurs_at sub (p ++ s) (List.length p + k).
Proof.
  intros [Hk H]. split.
  - rewrite length_app. lia.
  - rewrite skipn_app, skipn_all2 by lia. cbn [app].
    replace (List.length p + k - List.length p)%nat with k by lia. exact H.
Qed.

Lemma startswith_app sub s q :
  startswith sub s = true -> startswith sub (s ++ q) = true.
Proof.
  revert s. induction sub as [| a sub IH]; intros s; [reflexivity |].
  destruct s as [| b s]; cbn [startswith app]; [discriminate |].
  intros H. apply andb_prop in H. destruct H as [-> H].
  cbn [andb]. apply IH. exact H.
Qed.

Lemma occurs_at_prefix sub s q k :
  occurs_at sub s k -> occurs_at sub (s ++ q) k.
Proof.
  intros [Hk H]. split.
  - rewrite length_app. lia.
  - rewrite skipn_app.
    replace (k - List.length s)%nat with O by lia. cbn [skipn].
    apply startswith_app. exact H.
Qed.

Lemma lstrip_suffix s : exists p, s = p ++ lstrip s.
Proof.
  induction s as [| c s [p IH]]; [exists []; reflexivity |].
  cbn [lstrip]. destruct (isspace c).
  - exists (c :: p). cbn [app]. f_equal. exact IH.
  - exists []. reflexivity.
Qed.

Lemma strip_inside s : exists p q, s = p ++ strip s ++ q.
Proof.
  unfold strip, rstrip.
  destruct (lstrip_suffix s) as [p Hp].
  destruct (lstrip_suffix (rev (lstrip s))) as [q Hq].
  exists p, (rev q). rewrite <- rev_app_distr, <- Hq, rev_involutive.
  exact Hp.
Qed.

(** An occurrence in the stripped string is an occurrence in the string. *)
Lemma occurs_at_strip sub s k :
  occurs_at sub (strip s) k -> exists k', occurs_at sub s k'.
Proof.
  intros H. destruct (strip_inside s) as [p [q Hs]].
  exists (List.length p + k)%nat. rewrite Hs at 1.
  apply occurs_at_suffix, occurs_at_prefix. exact H.
Qed.

Lemma fence_value : fence = [96; 96; 96]%N.
Proof. vm_compute. reflexivity. Qed.

(** Past a position that does not start a fence, the text with the fences
    removed does not start with a fence either: the characters that
    [replace] keeps in front of a removed fence never end in a backquote
    run that a later backquote could complete. *)
Lemma no_run_ahead (b c : N) (s : str) :
  startswith [b; b; b] (c :: s) = false ->
  startswith [b; b; b] (c :: replace_aux [b; b; b] [] 0 s) = false.
Proof.
  intros H.
  destruct (N.eqb_spec b c) as [<- | Hc].
  2: { cbn [startswith]. destruct (N.eqb_spec b c); [contradiction |].
       reflexivity. }
  destruct s as [| d s].
  { repeat (cbn [replace_aux startswith andb]; rewrite ?N.eqb_refl).
    reflexivity. }
  destruct (N.eqb_spec b d) as [<- | Hd].
  - destruct s as [| e s].
    { repeat (cbn [replace_aux startswith andb]; rewrite ?N.eqb_refl).
      reflexivity. }
    destruct (N.eqb_spec b e) as [<- | He].
    + exfalso. revert H.
      repeat (cbn [startswith andb]; rewrite ?N.eqb_refl). discriminate.
    + apply N.eqb_neq in He.
      repeat (cbn [replace_aux startswith andb]; rewrite ?N.eqb_refl, ?He).
      reflexivity.
  - apply N.eqb_neq in Hd.
    repeat (cbn [replace_aux startswith andb]; rewrite ?N.eqb_refl, ?Hd).
    reflexivity.
Qed.

Lemma no_fence_ahead c s :
  startswith fence (c :: s) = false ->
  startswith fence (c :: replace_aux fence [] 0 s) = false.
Proof. rewrite fence_value. apply no_run_ahead. Qed.

Lemma replace_fence_free :
  forall n s,
    (List.length s <= n)%nat ->
    forall k, ~ occurs_at fence (replace_aux fence [] 0 s) k.
Proof.
  induction n as [| n IH]; intros s Hlen k.
  - destruct s; [| cbn in Hlen; lia]. cbn [replace_aux].
    intros H. pose proof (occurs_at_nil _ _ H) as ->.
    apply occurs_at_0 in H. discriminate.
  - destruct s as [| c s].
    { cbn [replace_aux]. intros H. pose proof (occurs_at_nil _ _ H) as ->.
      apply occurs_at_0 in H. discriminate. }
    cbn [replace_aux].
    destruct (startswith fence (c :: s)) eqn:E.
    + destruct (startswith_prefix _ _ E) as [rest Hrest].
      rewrite fence_value in Hrest.
      cbn [app] in Hrest. injection Hrest as -> ->.
      change (List.length fence - 1)%nat with (List.length [96; 96]%N).
      change (96 :: 96 :: rest)%N with ([96; 96]%N ++ rest).
      rewrite replace_aux_skip. cbn [app].
      apply IH. cbn [List.length] in Hlen. lia.
    + destruct k as [| k].
      * intros H. apply occurs_at_0 in H.
        rewrite (no_fence_ahead c s E) in H. discriminate.
      * intros H. apply occurs_at_S in H. revert H. apply IH.
        cbn [List.length] in Hlen. lia.
Qed.

(** X6: a text saved by the loop holds no fence: after the removal of the
    tagged and of the bare fences, and the stripping, no run of three
    backquotes is left at any position. *)
Theorem saved_text_has_no_fence (tag section path content : str) (k : nat) :
  section_plan tag section = Some (path, content) ->
  ~ occurs_at fence content k.
Proof.
  unfold section_plan.
  destruct (fenced _ _); [| discriminate].
  intros H. injection H as _ <-. intros Hocc.
  apply occurs_at_strip in Hocc. destruct Hocc as [k' Hocc].
  revert Hocc. unfold replace at 1. apply (replace_fence_free _ _ (le_n _)).
Qed.

Lemma saved_text_has_no_fence_witness :
  ~ occurs_at fence (lit "print(1)") 0.
Proof.
  apply (saved_text_has_no_fence (lit "```python")
           (lit "src/main.py" ++ nl ++ lit "```python" ++ nl
            ++ lit "print(1)" ++ nl ++ lit "```" ++ nl)
           (lit "src/main.py")).
  vm_compute. reflexivity.
Defined.

(** ** [sanitize_text] *)

Lemma encode_ascii_replace_returns (text : str) :
  exists b, encode_ascii_replace text = Some b.
Proof. unfold encode_ascii_replace. eexists. reflexivity. Qed.

(** The [except:] branch is never taken. *)
Lemma sanitize_text_try_branch (text : str) :
  fst (sanitize_text_branch text) = TryBranch.
Proof. reflexivity. Qed.

(** Every character of the result is below 128. *)
Lemma sanitize_text_ascii (text : str) :
  Forall (fun c => (c < 128)%N) (sanitize_text text).
Proof.
  unfold sanitize_text, sanitize_text_branch. cbn [snd encode_ascii_replace decode_ascii].
  apply Forall_forall. intros c Hc. apply in_map_iff in Hc.
  destruct Hc as [x [Hx _]]. destruct (N.ltb_spec x 128); subst; lia.
Qed.

(** The dashes, the ellipsis and the bullet have their replacements. *)
Lemma sanitize_text_listed :
  sanitize_text em_dash = lit "-" /\ sanitize_text en_dash = lit "-"
  /\ sanitize_text ellipsis = lit "..." /\ sanitize_text bullet = lit "*".
Proof. repeat split; vm_compute; reflexivity. Qed.

(** The keys of the table, as the source has them. *)
Lemma replacements_keys :
  map fst replacements
  = [dquote; triple_quoted_key; em_dash; en_dash; ellipsis; bullet].
Proof. vm_compute. reflexivity. Qed.

(** C8, at the input where the code departs from it: the table holds the
    straight double quote twice, mapped to itself, where the typographic
    quotes were meant, so a curly quote, double (U+201C, U+201D) or single
    (U+2018, U+2019), has no entry and comes out as a question mark instead
    of the straight quote. *)
Theorem sanitize_text_curly_quotes :
  sanitize_text [8220%N] = lit "?" /\ sanitize_text [8221%N] = lit "?"
  /\ sanitize_text [8216%N] = lit "?" /\ sanitize_text [8217%N] = lit "?"
  /\ ~ In [8220%N] (map fst replacements)
  /\ In (dquote, dquote) replacements.
Proof.
  repeat split; try (vm_compute; reflexivity).
  - rewrite replacements_keys. cbv. intuition discriminate.
  - vm_compute. left. reflexivity.
Qed.

(** C9, at the input where the code departs from it: the third key of the
    table is a piece of the source text, replaced by a single quote, and
    replacing it can assemble a new occurrence of it.  On [nested_key] one
    pass yields the key and a second pass yields a single quote, so the
    function is not idempotent; and the key itself, plain ASCII without
    any typographic character, is not left unchanged. *)
Theorem sanitize_text_twice :
  Forall (fun c => (c < 128)%N) nested_key
  /\ sanitize_text nested_key = triple_quoted_key
  /\ sanitize_text (sanitize_text nested_key) = squote
  /\ sanitize_text (sanitize_text nested_key) <> sanitize_text nested_key
  /\ sanitize_text triple_quoted_key <> triple_quoted_key.
Proof.
  split.
  - apply Forall_forall. intros c Hc. vm_compute in Hc.
    repeat (destruct Hc as [<- | Hc]; [reflexivity |]). destruct Hc.
  - repeat split; try (vm_compute; reflexivity); vm_compute; discriminate.
Qed.

Lemma replacements_value :
  replacements
  = [ (dquote, dquote); (triple_quoted_key, squote); (em_dash, lit "-");
      (en_dash, lit "-"); (ellipsis, lit "..."); (bullet, lit "*") ].
Proof. vm_compute. reflexivity. Qed.

Lemma replace_single_other (c k : N) (new : str) :
  k <> c -> replace [c] [k] new = [c].
Proof.
  intros H. unfold replace. cbn [replace_aux startswith].
  destruct (N.eqb_spec k c); [contradiction | reflexivity].
Qed.

(** A character above 127 other than the two dashes, the ellipsis and the
    bullet becomes a question mark. *)
Lemma sanitize_text_other_char (c : N) :
  (128 <= c)%N ->
  c <> 8212%N -> c <> 8211%N -> c <> 8230%N -> c <> 8226%N ->
  sanitize_text [c] = lit "?".
Proof.
  intros Hc H1 H2 H3 H4.
  unfold sanitize_text, sanitize_text_branch, apply_replacements.
  rewrite replacements_value. cbn [fold_left fst snd].
  unfold dquote, em_dash, en_dash, ellipsis, bullet.
  rewrite (replace_single_other c 34) by lia.
  replace (replace [c] triple_quoted_key squote) with [c].
  2: { unfold replace, triple_quoted_key. cbn [replace_aux startswith].
       destruct (58 =? c)%N; reflexivity. }
  rewrite !replace_single_other by congruence.
  cbn [encode_ascii_replace decode_ascii snd map].
  destruct (N.ltb_spec c 128); [lia | reflexivity].
Qed.

(** X1, the part of C8 that holds on the code: [sanitize_text] returns for
    every string, through the [try] branch; every character of its result
    is below 128; the em dash and the en dash become a hyphen, the ellipsis
    three dots, the bullet a star; and any other character above 127, alone
    in a string, becomes a question mark. *)
Theorem sanitize_text_total_ascii :
  (forall text,
     fst (sanitize_text_branch text) = TryBranch
     /\ Forall (fun c => (c < 128)%N) (sanitize_text text))
  /\ sanitize_text em_dash = lit "-"
  /\ sanitize_text en_dash = lit "-"
  /\ sanitize_text ellipsis = lit "..."
  /\ sanitize_text bullet = lit "*"
  /\ (forall c,
        (128 <= c)%N ->
        c <> 8212%N -> c <> 8211%N -> c <> 8230%N -> c <> 8226%N ->
        sanitize_text [c] = lit "?").
Proof.
  split; [intros text; split;
          [apply sanitize_text_try_branch | apply sanitize_text_ascii] |].
  pose proof sanitize_text_listed as [? [? [? ?]]].
  repeat split; auto using sanitize_text_other_char.
Qed.

(** *** Away from the accidental key *)

Lemma replace_aux_absent c old new s :
  ~ In c s -> replace_aux (c :: old) new 0 s = s.
Proof.
  induction s as [| a s IH]; intros Hc; [reflexivity |].
  cbn [replace_aux startswith].
  destruct (N.eqb_spec c a) as [-> | Hne].
  - exfalso. apply Hc. left. reflexivity.
  - cbn [andb]. f_equal. apply IH. intros H. apply Hc. right. exact H.
Qed.

Lemma replace_aux_same k s : replace_aux [k] [k] 0 s = s.
Proof.
  induction s as [| a s IH]; [reflexivity |].
  cbn [replace_aux startswith].
  destruct (N.eqb_spec k a) as [-> | Hne]; cbn [andb List.length Nat.sub app];
    f_equal; exact IH.
Qed.

Lemma replace_aux_single_in k new s x :
  In x (replace_aux [k] new 0 s) -> In x s \/ In x new.
Proof.
  induction s as [| a s IH]; [intros H; left; exact H |].
  cbn [replace_aux startswith].
  destruct (N.eqb k a); cbn [andb List.length Nat.sub].
  - intros H. apply in_app_or in H. destruct H as [H | H];
      [right; exact H |].
    destruct (IH H) as [H' | H']; [left; right; exact H' | right; exact H'].
  - intros [<- | H]; [left; left; reflexivity |].
    destruct (IH H) as [H' | H']; [left; right; exact H' | right; exact H'].
Qed.

(** On a string without a colon the table only replaces the four listed
    characters. *)
Lemma apply_replacements_colon_free s :
  ~ In 58%N s ->
  apply_replacements s
  = replace (replace (replace (replace s em_dash (lit "-")) en_dash (lit "-"))
               ellipsis (lit "...")) bullet (lit "*").
Proof.
  intros Hs. unfold apply_replacements. rewrite replacements_value.
  cbn [fold_left fst snd]. unfold replace at 5 6.
  unfold dquote. rewrite replace_aux_same.
  unfold triple_quoted_key. rewrite (replace_aux_absent 58) by exact Hs.
  reflexivity.
Qed.

Lemma apply_replacements_keeps_out_colon s :
  ~ In 58%N s -> ~ In 58%N (apply_replacements s).
Proof.
  intros Hs. rewrite apply_replacements_colon_free by exact Hs.
  unfold replace, em_dash, en_dash, ellipsis, bullet.
  intros H.
  repeat (apply replace_aux_single_in in H;
          destruct H as [H | H];
          [| vm_compute in H; intuition discriminate]).
  exact (Hs H).
Qed.

Lemma apply_replacements_ascii s :
  Forall (fun c => (c < 128)%N) s -> ~ In 58%N s -> apply_replacements s = s.
Proof.
  intros Hascii Hs. rewrite apply_replacements_colon_free by exact Hs.
  assert (forall k, (128 <= k)%N -> ~ In k s) as Habsent.
  { intros k Hk Hin. rewrite Forall_forall in Hascii.
    specialize (Hascii k Hin). lia. }
  unfold replace, em_dash, en_dash, ellipsis, bullet.
  rewrite (replace_aux_absent 8212 [] (lit "-") s) by (apply Habsent; lia).
  rewrite (replace_aux_absent 8211 [] (lit "-") s) by (apply Habsent; lia).
  rewrite (replace_aux_absent 8230 [] (lit "...") s) by (apply Habsent; lia).
  apply replace_aux_absent. apply Habsent. lia.
Qed.

Lemma encode_ascii_identity s :
  Forall (fun c => (c < 128)%N) s ->
  map (fun c => if (c <? 128)%N then c else 63%N) s = s.
Proof.
  induction 1 as [| c s Hc _ IH]; [reflexivity |]. cbn [map].
  destruct (N.ltb_spec c 128); [| lia]. f_equal. exact IH.
Qed.

Lemma sanitize_text_plain s :
  Forall (fun c => (c < 128)%N) s -> ~ In 58%N s -> sanitize_text s = s.
Proof.
  intros Hascii Hs. unfold sanitize_text, sanitize_text_branch.
  cbn [encode_ascii_replace decode_ascii snd].
  rewrite apply_replacements_ascii by assumption.
  apply encode_ascii_identity. exact Hascii.
Qed.

Lemma sanitize_text_keeps_out_colon s :
  ~ In 58%N s -> ~ In 58%N (sanitize_text s).
Proof.
  intros Hs. unfold sanitize_text, sanitize_text_branch.
  cbn [encode_ascii_replace decode_ascii snd]. intros H.
  apply in_map_iff in H. destruct H as [c [Hc Hin]].
  apply (apply_replacements_keeps_out_colon s Hs).
  destruct (N.ltb_spec c 128); [subst; exact Hin | discriminate].
Qed.

(** X5, how far C9 holds on the code: the accidental key starts with a
    colon, and no replacement produces a colon, so on the strings without
    a colon [sanitize_text] is idempotent, and it is the identity on those
    that are plain ASCII. *)
Theorem sanitize_text_colon_free (s : str) :
  ~ In 58%N s ->
  sanitize_text (sanitize_text s) = sanitize_text s
  /\ (Forall (fun c => (c < 128)%N) s -> sanitize_text s = s).
Proof.
  intros Hs. split; [| intros Hascii; apply sanitize_text_plain; assumption].
  apply sanitize_text_plain;
    [apply sanitize_text_ascii | apply sanitize_text_keeps_out_colon, Hs].
Qed.

Lemma sanitize_text_colon_free_witness :
  sanitize_text (sanitize_text (lit "a - b" ++ em_dash))
  = sanitize_text (lit "a - b" ++ em_dash)
  /\ (Forall (fun c => (c < 128)%N) (lit "a - b" ++ em_dash) ->
      sanitize_text (lit "a - b" ++ em_dash) = lit "a - b" ++ em_dash).
Proof.
  apply (sanitize_text_colon_free (lit "a - b" ++ em_dash)).
  vm_compute. intuition discriminate.
Defined.

(** ** [safe_write_file] *)


(** ** Computations that mark no phase *)

Lemma milestones_app (a b : list event) :
  milestones (a ++ b) = milestones a ++ milestones b.
Proof. unfold milestones. apply flat_map_app. Qed.

Lemma print_is_no_call text c : milestone_of (Print text) <> Some (Call c).
Proof.
  cbn [milestone_of].
  repeat match goal with
         | |- context [if ?b then _ else _] => destruct b
         end; discriminate.
Qed.

(** The calls of a run are the calls among its milestones. *)
Lemma invocations_milestones (ev : list event) :
  invocations ev = calls_of (milestones ev).
Proof.
  induction ev as [| e ev IH]; [reflexivity |].
  change (e :: ev) with ([e] ++ ev).
  rewrite invocations_app, milestones_app.
  unfold calls_of in *. rewrite flat_map_app. rewrite <- IH. f_equal.
  destruct e; try reflexivity.
  cbn [invocations milestones flat_map app].
  pose proof (print_is_no_call text) as Hno.
  destruct (milestone_of (Print text)) as [[k | c |] |]; try reflexivity.
  exfalso. exact (Hno c eq_refl).
Qed.

Lemma quiet_ret {A} (a : A) : quiet (ret a).
Proof. intros h. reflexivity. Qed.

Lemma quiet_raise {A} r : quiet (@raise A r).
Proof. intros h. reflexivity. Qed.

Lemma quiet_print text :
  milestone_of (Print text) = None -> quiet (print text).
Proof.
  intros H h. cbn [print fst milestones flat_map]. rewrite H. reflexivity.
Qed.

Lemma quiet_makedirs W path : quiet (makedirs W path).
Proof. intros h. reflexivity. Qed.

Lemma quiet_write_file W path enc content :
  quiet (write_file W path enc content).
Proof. intros h. reflexivity. Qed.

Lemma quiet_read_file W path enc : quiet (read_file W path enc).
Proof. intros h. reflexivity. Qed.

Lemma quiet_bind {A B} (c : M A) (k : A -> M B) :
  quiet c -> (forall a, quiet (k a)) -> quiet (bind c k).
Proof.
  intros Hc Hk h. rewrite bind_run.
  destruct (snd (c h)) as [r | a]; cbn [fst snd]; [apply Hc |].
  rewrite milestones_app, Hc, Hk. reflexivity.
Qed.

Lemma quiet_try_except {A} (body : M A) handler :
  quiet body ->
  (forall r k, handler r = Some k -> quiet k) ->
  quiet (try_except body handler).
Proof.
  intros Hb Hh h. rewrite try_except_run.
  destruct (snd (body h)) as [r | a]; cbn [fst snd]; [| apply Hb].
  destruct (handler r) as [k |] eqn:Hk; cbn [fst snd]; [| apply Hb].
  rewrite milestones_app, Hb, (Hh r k Hk). reflexivity.
Qed.

Create HintDb quiet.
#[local] Hint Resolve quiet_ret quiet_raise quiet_makedirs
  quiet_write_file quiet_read_file : quiet.

Ltac quiet_step :=
  first
    [ solve [auto with quiet]
    | apply quiet_print; vm_compute; reflexivity
    | apply quiet_bind; [| intros ?]
    | apply quiet_try_except;
      [| let r := fresh "r" in
         let k := fresh "k" in
         let H := fresh "H" in
         intros r k H;
         repeat match type of H with
                | context [match ?x with _ => _ end] => destruct x
                end;
         try discriminate H; injection H as <- ] ].

Lemma quiet_safe_write_file W file_path content :
  quiet (safe_write_file W file_path content).
Proof. unfold safe_write_file, failed_to_write. repeat quiet_step. Qed.

#[local] Hint Resolve quiet_safe_write_file : quiet.

(** The lines the loop prints per file mark no phase, whatever the path:
    they differ from the closing lines after "Generated ". *)
Lemma quiet_save_sections W tag label out sections :
  (forall path, milestone_of (Print (check_mark :: label ++ path)) = None) ->
  forall created, quiet (save_sections W tag label out sections created).
Proof.
  intros Hlabel.
  induction sections as [| section rest IH]; intros created;
    cbn [save_sections].
  - auto with quiet.
  - destruct (fenced _ _); [| apply IH].
    apply quiet_bind; [auto with quiet | intros ?].
    apply quiet_bind; [auto with quiet | intros ?].
    apply quiet_bind; [apply quiet_print, Hlabel | intros ?]. apply IH.
Qed.

Lemma quiet_read_created_files W out created_files :
  forall files_content,
    quiet (read_created_files W out created_files files_content).
Proof.
  induction created_files as [| file_path rest IH]; intros files_content;
    cbn [read_created_files].
  - auto with quiet.
  - unfold could_not_read. repeat quiet_step.
Qed.

Lemma quiet_create_directories W out directories :
  quiet (create_directories W out directories).
Proof.
  induction directories as [| d rest IH]; cbn [create_directories].
  - auto with quiet.
  - repeat quiet_step.
Qed.

Lemma quiet_create_coding_agent W : quiet (create_coding_agent W).
Proof.
  unfold create_coding_agent.
  destruct (getenv W (lit "GROQ_API_KEY")) as [[| c key] |];
    try apply quiet_raise.
  apply quiet_bind; [intros h; reflexivity | intros; apply quiet_ret].
Qed.

#[local] Hint Resolve quiet_read_created_files quiet_create_directories
  quiet_create_coding_agent : quiet.

Lemma quiet_create_project_structure W out :
  quiet (create_project_structure W out).
Proof. unfold create_project_structure. repeat quiet_step. Qed.

#[local] Hint Resolve quiet_create_project_structure : quiet.

Lemma finishing_bind_quiet {A B} (c : M A) (k : A -> M B) :
  quiet c -> (forall a, finishing (k a)) -> finishing (bind c k).
Proof.
  intros Hc Hk h. rewrite bind_run.
  destruct (snd (c h)) as [r | a]; cbn [fst snd]; [apply Hc |].
  rewrite milestones_app, Hc, Hk. reflexivity.
Qed.

Lemma finishing_print_ret {A} text (x : A) :
  milestone_of (Print text) = Some Done ->
  finishing (bind (print text) (fun _ => ret x)).
Proof.
  intros H h. rewrite bind_run.
  cbn [print ret fst snd app milestones flat_map]. rewrite H. reflexivity.
Qed.

(** ** The loop over the sections *)

Lemma bind_returns {A B} (c : M A) (k : A -> M B) h b :
  snd (bind c k h) = inr b ->
  exists a, snd (c h) = inr a /\ snd (k a (h ++ fst (c h))) = inr b.
Proof.
  rewrite bind_run. destruct (snd (c h)) as [r | a]; cbn [snd];
    [discriminate |]. intros H. exists a. split; [reflexivity | exact H].
Qed.

Lemma nth_0_hd {A} (l : list A) d : nth 0 l d = hd d l.
Proof. destruct l; reflexivity. Qed.

Lemma present_cons {A} (o : option A) l :
  present (o :: l) = match o with Some a => [a] | None => [] end ++ present l.
Proof. reflexivity. Qed.

(** Whatever the world does, a list returned by the loop holds the paths
    of the sections with a fence pair, in order. *)
Lemma save_sections_result W tag label out sections :
  forall created h l,
    snd (save_sections W tag label out sections created h) = inr l ->
    l = created ++ map fst (present (map (section_plan tag) sections)).
Proof.
  induction sections as [| section rest IH]; intros created h l;
    cbn [save_sections map].
  - cbn. intros H. injection H as <-. rewrite app_nil_r. reflexivity.
  - rewrite present_cons. unfold section_plan at 1.
    destruct (fenced _ _).
    + intros H. apply bind_returns in H. destruct H as [u1 [_ H]].
      apply bind_returns in H. destruct H as [u2 [_ H]].
      apply bind_returns in H. destruct H as [u3 [_ H]].
      apply IH in H. rewrite H, <- app_assoc. cbn [app map fst].
      unfold section_path. rewrite nth_0_hd. reflexivity.
    + cbn [app]. apply IH.
Qed.

Lemma safe_write_file_ok W h file_path content :
  open_write W h file_path Utf8 content = None ->
  safe_write_file W file_path content h
  = ([FileWrite file_path Utf8 content None], inr tt).
Proof.
  intros H. unfold safe_write_file, try_except, write_file, call_unit.
  rewrite H. reflexivity.
Qed.

Lemma makedirs_ok W h path :
  os_makedirs W h path = None ->
  makedirs W path h = ([Makedirs path None], inr tt).
Proof. intros H. unfold makedirs, call_unit. rewrite H. reflexivity. Qed.

(** Where nothing fails, the loop saves every planned file. *)
Lemma save_sections_writable W tag label out sections :
  writable W ->
  forall created h,
    exists ev,
      save_sections W tag label out sections created h
      = (ev, inr (created
                  ++ map fst (present (map (section_plan tag) sections))))
      /\ written ev
         = map (placed W out) (present (map (section_plan tag) sections)).
Proof.
  intros [Hdirs Hwrites].
  induction sections as [| section rest IH]; intros created h;
    cbn [save_sections map].
  - exists []. rewrite app_nil_r. split; reflexivity.
  - rewrite present_cons. unfold section_plan at 1 3.
    destruct (fenced _ _).
    + rewrite bind_run, makedirs_ok by apply Hdirs. cbn [fst snd].
      rewrite bind_run, safe_write_file_ok by apply Hwrites. cbn [fst snd].
      rewrite bind_run. cbn [print fst snd].
      match goal with
      | |- context [save_sections W tag label out rest ?c ?h'] =>
          destruct (IH c h') as [ev [Hrun Hw]]; rewrite Hrun
      end.
      cbn [fst snd]. eexists. split.
      * f_equal. f_equal. rewrite <- app_assoc. cbn [app map fst].
        unfold section_path. rewrite nth_0_hd. reflexivity.
      * rewrite !written_app, Hw. cbn [written flat_map app map].
        unfold placed at 1, section_path. cbn [fst snd].
        rewrite nth_0_hd. reflexivity.
    + cbn [app]. apply IH.
Qed.

(** ** [generate_code_files] *)




(** The paths of a section are determined: the relation [section_file]
    has one outcome per section. *)
Lemma section_file_functional tag section o1 o2 :
  section_file tag section o1 -> section_file tag section o2 -> o1 = o2.
Proof.
  intros H1 H2.
  destruct H1 as [i j [Hi Hmin] [Hj Hmax] Hij | Hno];
    destruct H2 as [i' j' [Hi' Hmin'] [Hj' Hmax'] Hij' | Hno'].
  - assert (i = i') as <-.
    { destruct (Nat.lt_trichotomy i i') as [Hlt | [Heq | Hgt]];
        [exfalso; exact (Hmin' i Hlt Hi) | exact Heq
        | exfalso; exact (Hmin i' Hgt Hi')]. }
    assert (j = j') as <-.
    { destruct (Nat.lt_trichotomy j j') as [Hlt | [Heq | Hgt]];
        [exfalso; exact (Hmax j' Hlt Hj') | exact Heq
        | exfalso; exact (Hmax' j Hgt Hj)]. }
    reflexivity.
  - exfalso. apply Hno'. exists i, j. auto.
  - exfalso. apply Hno. exists i', j'. auto.
  - reflexivity.
Qed.

(** ** [run_simplified_coding_system] and the exit code of the CLI *)

Lemma run_simplified_coding_system_run W prompt out h :
  match run_phases W prompt out (h ++ opening) with
  | (ev, inr _) =>
      run_simplified_coding_system W prompt out h = (opening ++ ev, inr true)
  | (ev, inl (Exc e)) =>
      run_simplified_coding_system W prompt out h
      = (opening ++ ev
         ++ [Print (nl ++ cross_mark :: lit " Error: " ++ exn_str e)],
         inr false)
  | (ev, inl (SystemExit _)) => False
  end.
Proof.
  pose proof (exc_only_run_phases W prompt out (h ++ opening)) as Hexc.
  unfold run_simplified_coding_system.
  rewrite bind_run. cbn [print fst snd]. rewrite bind_run. cbn [print fst snd].
  rewrite <- app_assoc. cbn [app]. fold opening.
  rewrite bind_run, try_except_run, bind_run.
  destruct (run_phases W prompt out (h ++ opening)) as [ev [[e | code] | u]];
    cbn [fst snd ret print app].
  - rewrite bind_run. cbn [fst snd ret print app]. rewrite app_nil_r.
    reflexivity.
  - exact (Hexc ev code eq_refl).
  - rewrite !app_nil_r. reflexivity.
Qed.

Lemma run_simplified_coding_system_returns W prompt out h :
  exists ev success,
    run_simplified_coding_system W prompt out h = (ev, inr success).
Proof.
  pose proof (run_simplified_coding_system_run W prompt out h) as H.
  destruct (run_phases W prompt out (h ++ opening)) as [ev [[e | code] | u]];
    [eauto | contradiction | eauto].
Qed.


(** ** The five steps of a run *)

Lemma invoke_then_milestones {A} W system human (k : str -> M A) h :
  (forall r, finishing (k r)) ->
  milestones (fst (bind (invoke W system human) k h))
  = Call (call_of W h system human)
    :: match snd (bind (invoke W system human) k h) with
       | inr _ => [Done]
       | inl _ => []
       end.
Proof.
  intros Hk. rewrite bind_run. unfold invoke, call_value, call_of.
  destruct (llm_invoke W h system human) as [e | r]; cbn [fst snd];
    [reflexivity |].
  change (Invoke ?a ?b ?c :: ?l) with ([Invoke a b c] ++ l).
  rewrite milestones_app, Hk. reflexivity.
Qed.

Lemma invoke_then_returns {A} W system human (k : str -> M A) h x :
  snd (bind (invoke W system human) k h) = inr x ->
  exists r,
    llm_invoke W h system human = inr r
    /\ snd (k r (h ++ [Invoke system human (inr r)])) = inr x.
Proof.
  intros H. apply bind_returns in H. destruct H as [r [Hr H]].
  unfold invoke, call_value in Hr, H. cbn [fst snd] in Hr, H.
  destruct (llm_invoke W h system human) as [e | r']; [discriminate |].
  injection Hr as ->. exists r. split; [reflexivity | exact H].
Qed.

Lemma ret_returns {A} (a x : A) h : snd (ret a h) = inr x -> x = a.
Proof. cbn. intros H. injection H as <-. reflexivity. Qed.

Lemma banners :
  milestone_of (Print phase1_banner) = Some (Start 1)
  /\ milestone_of (Print phase2_banner) = Some (Start 2)
  /\ milestone_of (Print phase3_banner) = Some (Start 3)
  /\ milestone_of (Print phase4_banner) = Some (Start 4)
  /\ milestone_of (Print phase5_banner) = Some (Start 5).
Proof. repeat split; vm_compute; reflexivity. Qed.

Lemma milestones_print text l :
  milestones (Print text :: l)
  = match milestone_of (Print text) with
    | Some m => [m]
    | None => []
    end ++ milestones l.
Proof. reflexivity. Qed.

Section Phases.

Variable W : world.
Variable llm : ChatGroq.
Variable out : str.

Lemma requirements_milestones prompt h :
  milestones (fst (generate_requirements_document W llm prompt out h))
  = Call (call_of W h requirements_system_prompt prompt)
    :: match snd (generate_requirements_document W llm prompt out h) with
       | inr _ => [Done]
       | inl _ => []
       end.
Proof.
  unfold generate_requirements_document. apply invoke_then_milestones.
  intros r. do 2 (apply finishing_bind_quiet; [auto with quiet | intros ?]).
  apply finishing_print_ret. vm_compute. reflexivity.
Qed.

Lemma requirements_returns prompt h x :
  snd (generate_requirements_document W llm prompt out h) = inr x ->
  exists r,
    reply (call_of W h requirements_system_prompt prompt) = inr r
    /\ x = sanitize_text r.
Proof.
  unfold generate_requirements_document. intros H.
  apply invoke_then_returns in H. destruct H as [r [Hr H]].
  exists r. split; [exact Hr |].
  do 3 (apply bind_returns in H; destruct H as [? [_ H]]).
  apply ret_returns in H. exact H.
Qed.

Lemma architecture_milestones requirements h :
  milestones (fst (generate_architecture_design W llm requirements out h))
  = Call (call_of W h architecture_system_prompt
            (architecture_human requirements))
    :: match snd (generate_architecture_design W llm requirements out h)
       with
       | inr _ => [Done]
       | inl _ => []
       end.
Proof.
  unfold generate_architecture_design. apply invoke_then_milestones.
  intros r. do 2 (apply finishing_bind_quiet; [auto with quiet | intros ?]).
  apply finishing_print_ret. vm_compute. reflexivity.
Qed.

Lemma architecture_returns requirements h x :
  snd (generate_architecture_design W llm requirements out h) = inr x ->
  exists r,
    reply (call_of W h architecture_system_prompt
             (architecture_human requirements)) = inr r
    /\ x = sanitize_text r.
Proof.
  unfold generate_architecture_design. intros H.
  apply invoke_then_returns in H. destruct H as [r [Hr H]].
  exists r. split; [exact Hr |].
  do 3 (apply bind_returns in H; destruct H as [? [_ H]]).
  apply ret_returns in H. exact H.
Qed.

Lemma code_milestones requirements architecture h :
  milestones
    (fst (generate_code_files W llm requirements architecture out h))
  = Call (call_of W h code_system_prompt
            (code_human requirements architecture))
    :: match snd (generate_code_files W llm requirements architecture out h)
       with
       | inr _ => [Done]
       | inl _ => []
       end.
Proof.
  unfold generate_code_files. apply invoke_then_milestones.
  intros r. apply finishing_bind_quiet.
  - apply quiet_save_sections. intros path. vm_compute. reflexivity.
  - intros files. apply finishing_print_ret. vm_compute. reflexivity.
Qed.

Lemma code_returns requirements architecture h x :
  snd (generate_code_files W llm requirements architecture out h) = inr x ->
  exists r,
    reply (call_of W h code_system_prompt
             (code_human requirements architecture)) = inr r
    /\ x = code_paths r.
Proof.
  unfold generate_code_files. intros H.
  apply invoke_then_returns in H. destruct H as [r [Hr H]].
  exists r. split; [exact Hr |].
  apply bind_returns in H. destruct H as [l [Hl H]].
  apply save_sections_result in Hl. cbn [app] in Hl.
  apply bind_returns in H. destruct H as [? [_ H]].
  apply ret_returns in H. subst. reflexivity.
Qed.

Lemma tests_milestones requirements created_files h :
  milestones (fst (generate_tests W llm requirements created_files out h))
  = match snd (read_created_files W out created_files [] h) with
    | inl _ => []
    | inr files_content =>
        Call (tests_call W out requirements created_files h files_content)
        :: match snd (generate_tests W llm requirements created_files out h)
           with
           | inr _ => [Done]
           | inl _ => []
           end
    end.
Proof.
  unfold generate_tests, tests_call. rewrite bind_run.
  destruct (snd (read_created_files W out created_files [] h))
    as [e | files_content]; cbn [fst snd].
  - apply quiet_read_created_files.
  - rewrite milestones_app, quiet_read_created_files. cbn [app].
    apply invoke_then_milestones.
    intros r. apply finishing_bind_quiet.
    + apply quiet_save_sections. intros path. vm_compute. reflexivity.
    + intros files. apply finishing_print_ret. vm_compute. reflexivity.
Qed.

Lemma tests_returns requirements created_files h x :
  snd (generate_tests W llm requirements created_files out h) = inr x ->
  exists files_content r,
    snd (read_created_files W out created_files [] h) = inr files_content
    /\ reply (tests_call W out requirements created_files h files_content)
       = inr r.
Proof.
  intros H. unfold generate_tests in H.
  apply bind_returns in H. destruct H as [files_content [Hfc H]].
  apply invoke_then_returns in H. destruct H as [r [Hr _]].
  exists files_content, r. split; [exact Hfc | exact Hr].
Qed.

Lemma docs_milestones requirements architecture created_files h :
  milestones
    (fst (generate_documentation W llm requirements architecture
            created_files out h))
  = Call (call_of W h docs_system_prompt
            (docs_human requirements architecture (join nl created_files)))
    :: match snd (generate_documentation W llm requirements architecture
                    created_files out h) with
       | inr _ => [Done]
       | inl _ => []
       end.
Proof.
  unfold generate_documentation. apply invoke_then_milestones.
  intros r. apply finishing_bind_quiet.
  - apply quiet_save_sections. intros path. vm_compute. reflexivity.
  - intros files. apply finishing_print_ret. vm_compute. reflexivity.
Qed.

End Phases.

Lemma closing_lines out :
  milestones
    [ Print (nl ++ check_mark :: lit " Project generation complete!");
      Print (folder :: lit " Project files are available at: " ++ out) ]
  = [].
Proof. vm_compute. reflexivity. Qed.

Lemma opening_lines : milestones opening = [].
Proof. vm_compute. reflexivity. Qed.

Lemma error_line e :
  milestones [Print (nl ++ cross_mark :: lit " Error: " ++ exn_str e)] = [].
Proof. vm_compute. reflexivity. Qed.

Ltac flow :=
  cbn [dataflow];
  repeat match goal with
         | |- _ /\ _ => split
         | |- exists _, reply _ = _ /\ _ => eexists; split; [eassumption |]
         | |- exists _ _, reply _ = _ /\ _ =>
             eexists; eexists; split; [eassumption |]
         | |- True => exact I
         | |- human_message _ = _ => reflexivity
         | |- @eq (list invocation) _ _ => reflexivity
         end.

(** A run that stopped after [n] calls and [m] milestones. *)
Ltac stopped n m rest :=
  unfold ordered; cbn [calls_of flat_map app];
  split; [flow |];
  split; [exists n; reflexivity |];
  split; [exists m, rest; reflexivity | intros ? ?; discriminate].

Lemma run_phases_ordered W prompt out h :
  ordered prompt (milestones (fst (run_phases W prompt out h)))
    (snd (run_phases W prompt out h)).
Proof.
  destruct banners as [B1 [B2 [B3 [B4 B5]]]].
  unfold run_phases.
  (* the agent *)
  rewrite bind_run.
  destruct (snd (create_coding_agent W h)) as [r | llm] eqn:E0;
    cbn [fst snd];
    [rewrite quiet_create_coding_agent; stopped 0%nat 0%nat (@nil invocation)
    |].
  rewrite milestones_app, quiet_create_coding_agent. cbn [app].
  (* the directories *)
  rewrite bind_run.
  match goal with |- context [snd (create_project_structure W out ?h')] =>
    destruct (snd (create_project_structure W out h')) as [r | d] eqn:E0';
    cbn [fst snd];
    [rewrite quiet_create_project_structure;
     stopped 0%nat 0%nat (@nil invocation) |]
  end.
  rewrite milestones_app, quiet_create_project_structure. cbn [app].
  (* phase 1 *)
  rewrite bind_run. cbn [print fst snd app]. rewrite bind_run.
  rewrite milestones_print, B1. cbn [app].
  match goal with
  | |- context [snd (generate_requirements_document W llm prompt out ?h')] =>
    pose proof (requirements_milestones W llm out prompt h') as M1;
    destruct (snd (generate_requirements_document W llm prompt out h'))
      as [r | requirements] eqn:E1; cbn [fst snd];
    [rewrite M1; stopped 1%nat 2%nat (@nil invocation) |]
  end.
  apply requirements_returns in E1. destruct E1 as [r1 [Hr1 ->]].
  rewrite milestones_app, M1. cbn [app]. clear M1.
  (* phase 2 *)
  rewrite bind_run. cbn [print fst snd app]. rewrite bind_run.
  rewrite milestones_print, B2. cbn [app].
  match goal with
  | |- context [snd (generate_architecture_design W llm ?q out ?h')] =>
    pose proof (architecture_milestones W llm out q h') as M2;
    destruct (snd (generate_architecture_design W llm q out h'))
      as [r | architecture] eqn:E2; cbn [fst snd];
    [rewrite M2; stopped 2%nat 5%nat (@nil invocation) |]
  end.
  apply architecture_returns in E2. destruct E2 as [r2 [Hr2 ->]].
  rewrite milestones_app, M2. cbn [app]. clear M2.
  (* phase 3 *)
  rewrite bind_run. cbn [print fst snd app]. rewrite bind_run.
  rewrite milestones_print, B3. cbn [app].
  match goal with
  | |- context [snd (generate_code_files W llm ?q ?a out ?h')] =>
    pose proof (code_milestones W llm out q a h') as M3;
    destruct (snd (generate_code_files W llm q a out h'))
      as [r | created_files] eqn:E3; cbn [fst snd];
    [rewrite M3; stopped 3%nat 8%nat (@nil invocation) |]
  end.
  apply code_returns in E3. destruct E3 as [r3 [Hr3 ->]].
  rewrite milestones_app, M3. cbn [app]. clear M3.
  (* phase 4 *)
  rewrite bind_run. cbn [print fst snd app]. rewrite bind_run.
  rewrite milestones_print, B4. cbn [app].
  match goal with
  | |- context [snd (generate_tests W llm ?q ?f out ?h')] =>
    pose proof (tests_milestones W llm out q f h') as M4;
    destruct (snd (generate_tests W llm q f out h'))
      as [r | created_tests] eqn:E4; cbn [fst snd]
  end.
  { rewrite M4.
    match goal with |- context [match ?x with _ => _ end] => destruct x end.
    - stopped 3%nat 10%nat [call_of W [] [] []].
    - stopped 4%nat 11%nat (@nil invocation). }
  apply tests_returns in E4. destruct E4 as [files_content [r4 [Hfc Hr4]]].
  rewrite Hfc in M4.
  rewrite milestones_app, M4. cbn [app]. clear M4.
  (* phase 5 *)
  rewrite bind_run. cbn [print fst snd app]. rewrite bind_run.
  rewrite milestones_print, B5. cbn [app].
  match goal with
  | |- context [snd (generate_documentation W llm ?q ?a ?f out ?h')] =>
    pose proof (docs_milestones W llm out q a f h') as M5;
    destruct (snd (generate_documentation W llm q a f out h'))
      as [r | created_docs] eqn:E5; cbn [fst snd];
    [rewrite M5; stopped 5%nat 14%nat (@nil invocation) |]
  end.
  rewrite milestones_app, M5. cbn [app]. clear M5.
  rewrite !bind_run. cbn [print ret fst snd app]. rewrite closing_lines.
  unfold ordered. cbn [calls_of flat_map app].
  split; [flow |].
  split; [exists 5%nat; reflexivity |].
  split; [exists 15%nat, (@nil invocation); reflexivity |].
  intros _ _. split; reflexivity.
Qed.

Lemma five_steps_distinct : NoDup five_steps.
Proof.
  unfold five_steps.
  repeat (constructor;
          [cbn [In]; intros H;
           repeat (destruct H as [H | H];
                   [vm_compute in H; discriminate H |]);
           exact H |]).
  constructor.
Qed.



(** ** The command line *)

Lemma input_returns W question h line :
  snd (input W question h) = inr line ->
  (inputs_so_far h < List.length (stdin W))%nat.
Proof.
  unfold input, call_value. cbn [snd].
  destruct (nth_error (stdin W) (inputs_so_far h)) eqn:E; [| discriminate].
  intros _. apply nth_error_Some. congruence.
Qed.

Lemma input_counted W question h :
  inputs_so_far (h ++ fst (input W question h)) = S (inputs_so_far h).
Proof.
  unfold input, call_value, inputs_so_far. cbn [fst].
  rewrite filter_app, length_app. cbn. lia.
Qed.

(** The bound on the turns of the loop that reads the requirements is
    enough: with at least one turn allowed and more turns than lines left,
    allowing one more turn changes nothing, so the branch that stands for
    exhausted fuel is not taken. *)
Lemma read_requirements_fuel W :
  forall fuel functional_reqs h,
    (List.length (stdin W) < inputs_so_far h + S fuel)%nat ->
    read_requirements W (S (S fuel)) functional_reqs h
    = read_requirements W (S fuel) functional_reqs h.
Proof.
  induction fuel as [| fuel IH]; intros reqs h Hlen.
  - cbn [read_requirements]. rewrite !bind_run.
    destruct (snd (input W (lit "  - ") h)) as [r | [| c req]] eqn:E;
      [reflexivity | reflexivity |].
    apply input_returns in E. lia.
  - change (read_requirements W (S (S (S fuel))) reqs)
      with (bind (input W (lit "  - "))
              (fun req => match req with
                          | [] => ret reqs
                          | _ :: _ =>
                              read_requirements W (S (S fuel)) (reqs ++ [req])
                          end)).
    change (read_requirements W (S (S fuel)) reqs)
      with (bind (input W (lit "  - "))
              (fun req => match req with
                          | [] => ret reqs
                          | _ :: _ =>
                              read_requirements W (S fuel) (reqs ++ [req])
                          end)).
    rewrite !bind_run.
    destruct (snd (input W (lit "  - ") h)) as [r | [| c req]] eqn:E;
      [reflexivity | reflexivity |].
    rewrite IH; [reflexivity |]. rewrite input_counted. lia.
Qed.

Lemma main_setup_positional_run W a h c p :
  prompt a = Some (c :: p) ->
  interactive a = false ->
  main_setup W a h
  = match os_makedirs W h (output_dir a) with
    | None =>
        ([ Makedirs (output_dir a) None;
           Print (nl ++ rocket :: lit " AI Coding System - Starting");
           Print rule;
           Print (folder :: lit " Output directory: " ++ output_dir a) ],
         inr (c :: p))
    | Some e => ([Makedirs (output_dir a) (Some e)], inl (Exc e))
    end.
Proof.
  intros Hp Hi. unfold main_setup. rewrite Hp, Hi.
  unfold bind, ret, makedirs, call_unit, print. rewrite app_nil_r.
  destruct (os_makedirs W h (output_dir a)); reflexivity.
Qed.



(** ** The imports of the two front ends *)

(** C3, at the point where the code departs from it: web/app.py imports
    [run_coding_system], a name ai_coding_system.py does not define (it
    defines [run_simplified_coding_system], which cli/cli.py imports), so
    loading the module raises [ImportError] before any form is shown. *)
Theorem web_app_import_fails :
  WebApp.load_module
  = inl (ImportError
           (lit "cannot import name 'run_coding_system' from 'ai_coding_system'"))
  /\ ~ In "run_coding_system"%string ai_coding_system_names
  /\ cli_import = inr tt.
Proof.
  repeat split; try (vm_compute; reflexivity).
  cbv. intuition discriminate.
Qed.

(** ** The wrappers of utils/code_quality.py *)

Section Wrappers.

Variable W : world.
Variable h : list event.

Lemma format_python_code_run (code : str) (line_length : Z) :
  match black_format_str W h code line_length with
  | inr formatted =>
      format_python_code W code line_length h
      = ([BlackFormatStr code line_length (inr formatted)], inr formatted)
  | inl e =>
      format_python_code W code line_length h
      = ([BlackFormatStr code line_length (inl e);
          Print (lit "Black formatting error: " ++ exn_str e)], inr code)
  end.
Proof.
  unfold format_python_code, try_except, call_value.
  destruct (black_format_str W h code line_length); reflexivity.
Qed.

Lemma run_pylint_run (file_path : str) :
  let path := pathlib_str W file_path in
  if pylint_available W then
    match pylint_run W h path with
    | inl e =>
        run_pylint W file_path h
        = ([PylintRun path (inl e)],
           inr (lit "Error running Pylint: " ++ exn_str e, 0%float))
    | inr report =>
        run_pylint W file_path h
        = ([PylintRun path (inr report)],
           inr match re_search_score W report with
               | None => (report, 0%float)
               | Some digits =>
                   match float_of_str W digits with
                   | inl e =>
                       (lit "Error running Pylint: " ++ exn_str e, 0%float)
                   | inr score => (report, score)
                   end
               end)
    end
  else
    run_pylint W file_path h = ([], inr (lit "Pylint not available", 0%float)).
Proof.
  cbv zeta. unfold run_pylint.
  destruct (pylint_available W); [| reflexivity]. cbn [negb].
  unfold try_except, bind, call_value, extract_score.
  destruct (pylint_run W h (pathlib_str W file_path)) as [e | report];
    [reflexivity |].
  destruct (re_search_score W report) as [digits |]; [| reflexivity].
  destruct (float_of_str W digits); reflexivity.
Qed.

Lemma check_pep8_compliance_run (file_path : str) :
  let argv := [lit "pycodestyle"; pathlib_str W file_path] in
  match subprocess_run W h argv with
  | inl (FileNotFoundError m) =>
      check_pep8_compliance W file_path h
      = ([Subprocess argv (inl (FileNotFoundError m))],
         inr (false, [lit "pycodestyle not installed or not in PATH"]))
  | inl e =>
      check_pep8_compliance W file_path h
      = ([Subprocess argv (inl e)],
         inr (false, [lit "Error checking PEP 8 compliance: " ++ exn_str e]))
  | inr result =>
      check_pep8_compliance W file_path h
      = ([Subprocess argv (inr result)],
         inr (if returncode result =? 0 then (true, [])
              else (false, filter nonempty (split (stdout result) nl))))
  end.
Proof.
  cbv zeta. unfold check_pep8_compliance, try_except, bind, run_subprocess,
    call_value.
  destruct (subprocess_run W h _) as [e | result].
  - destruct e; reflexivity.
  - destruct (returncode result =? 0); reflexivity.
Qed.

Lemma optimize_imports_run (file_path : str) :
  let path := pathlib_str W file_path in
  let argv := [lit "isort"; lit "--profile"; lit "black"; path] in
  let missing := (false, lit "isort not installed or not in PATH") in
  let failed text := (false, lit "Error optimizing imports: " ++ text) in
  match subprocess_run W h argv with
  | inl (FileNotFoundError m) =>
      optimize_imports W file_path h
      = ([Subprocess argv (inl (FileNotFoundError m))], inr missing)
  | inl e =>
      optimize_imports W file_path h
      = ([Subprocess argv (inl e)], inr (failed (exn_str e)))
  | inr result =>
      if returncode result =? 0 then
        let o := open_read W (h ++ [Subprocess argv (inr result)]) path Utf8 in
        optimize_imports W file_path h
        = ([Subprocess argv (inr result); FileRead path Utf8 o],
           inr match o with
               | inl (FileNotFoundError _) => missing
               | inl e => failed (exn_str e)
               | inr modified_code => (true, modified_code)
               end)
      else
        optimize_imports W file_path h
        = ([Subprocess argv (inr result)], inr (failed (stderr result)))
  end.
Proof.
  cbv zeta. unfold optimize_imports, try_except, bind, run_subprocess,
    read_file, call_value.
  destruct (subprocess_run W h _) as [e | result].
  - destruct e; reflexivity.
  - destruct (returncode result =? 0); [| reflexivity].
    cbn [app].
    destruct (open_read W _ (pathlib_str W file_path) Utf8) as [e | code].
    + destruct e; reflexivity.
    + reflexivity.
Qed.

End Wrappers.


(** C5 as stated fails on the formatter and on the linter: in a world where
    every tool answers, neither emits a subprocess event. *)
Lemma formatter_and_linter_start_no_process :
  existsb is_subprocess
    (fst (format_python_code (calm_world []) (lit "x = 1") 88 [])) = false
  /\ existsb is_subprocess
       (fst (run_pylint (calm_world []) (lit "a.py") [])) = false.
Proof. split; vm_compute; reflexivity. Qed.

(** C5, amended: [optimize_imports] starts isort, and
    [check_pep8_compliance] pycodestyle, as a child process, once and as
    their first action; [format_python_code] calls [black.format_str] and
    [run_pylint] calls Pylint's [Run] inside the running process, and
    neither ever starts a child process. *)
Theorem subprocess_use (W : world) (h : list event)
  (code file_path : str) (line_length : Z) :
  let path := pathlib_str W file_path in
  (exists o rest,
     fst (optimize_imports W file_path h)
     = Subprocess [lit "isort"; lit "--profile"; lit "black"; path] o :: rest
     /\ filter is_subprocess rest = [])
  /\ (exists o,
        fst (check_pep8_compliance W file_path h)
        = [Subprocess [lit "pycodestyle"; path] o])
  /\ (exists o rest,
        fst (format_python_code W code line_length h)
        = BlackFormatStr code line_length o :: rest
        /\ filter is_subprocess rest = [])
  /\ (if pylint_available W then
        exists o, fst (run_pylint W file_path h) = [PylintRun path o]
      else fst (run_pylint W file_path h) = []).
Proof.
  cbv zeta. repeat split.
  - pose proof (optimize_imports_run W h file_path) as H. cbv zeta in H.
    destruct (subprocess_run W h _) as [e | result].
    + destruct e; rewrite H; eexists; exists []; split; reflexivity.
    + destruct (returncode result =? 0); rewrite H;
        eexists; eexists; split; reflexivity.
  - pose proof (check_pep8_compliance_run W h file_path) as H.
    cbv zeta in H.
    destruct (subprocess_run W h _) as [e | result].
    + destruct e; rewrite H; eexists; reflexivity.
    + rewrite H. eexists; reflexivity.
  - pose proof (format_python_code_run W h code line_length) as H.
    destruct (black_format_str W h code line_length); rewrite H;
      eexists; eexists; split; reflexivity.
  - pose proof (run_pylint_run W h file_path) as H. cbv zeta in H.
    destruct (pylint_available W).
    + destruct (pylint_run W h (pathlib_str W file_path));
        rewrite H; eexists; reflexivity.
    + rewrite H. reflexivity.
Qed.

(** ** What a computation emits *)

Section Emits.

Variable P : event -> Prop.

Lemma emits_ret {A} (a : A) : emits P (ret a).
Proof. intros h. constructor. Qed.

Lemma emits_raise {A} r : emits P (@raise A r).
Proof. intros h. constructor. Qed.

Lemma emits_print text : P (Print text) -> emits P (print text).
Proof. intros H h. repeat constructor. exact H. Qed.

Lemma emits_call_unit mk oracle :
  (forall o, P (mk o)) -> emits P (call_unit mk oracle).
Proof. intros H h. repeat constructor. apply H. Qed.

Lemma emits_call_value {A} mk (oracle : list event -> exn + A) :
  (forall o, P (mk o)) -> emits P (call_value mk oracle).
Proof. intros H h. repeat constructor. apply H. Qed.

Lemma emits_bind {A B} (c : M A) (k : A -> M B) :
  emits P c -> (forall a, emits P (k a)) -> emits P (bind c k).
Proof.
  intros Hc Hk h. rewrite bind_run.
  destruct (snd (c h)) as [r | a]; cbn [fst snd]; [apply Hc |].
  apply Forall_app. split; [apply Hc | apply Hk].
Qed.

Lemma emits_try_except {A} (body : M A) handler :
  emits P body ->
  (forall r k, handler r = Some k -> emits P k) ->
  emits P (try_except body handler).
Proof.
  intros Hb Hh h. rewrite try_except_run.
  destruct (snd (body h)) as [r | a]; cbn [fst snd]; [| apply Hb].
  destruct (handler r) as [k |] eqn:Hk; cbn [fst snd]; [| apply Hb].
  apply Forall_app. split; [apply Hb | apply (Hh r k Hk)].
Qed.

End Emits.

Lemma emits_weaken {A} (P Q : event -> Prop) (c : M A) :
  (forall e, P e -> Q e) -> emits P c -> emits Q c.
Proof.
  intros HPQ Hc h. eapply Forall_impl; [exact HPQ | apply Hc].
Qed.

Ltac emits_step :=
  first
    [ apply emits_ret
    | apply emits_raise
    | apply emits_print; exact I
    | apply emits_call_unit; intros ?; exact I
    | apply emits_call_value; intros ?; exact I
    | apply emits_bind; [| intros ?]
    | apply emits_try_except;
      [| let r := fresh "r" in
         let k := fresh "k" in
         let H := fresh "H" in
         intros r k H;
         repeat match type of H with
                | context [match ?x with _ => _ end] => destruct x
                end;
         try discriminate H; injection H as <- ] ].

(** ** Only ASCII reaches the disk *)

Lemma pure_ascii_lstrip s : pure_ascii s -> pure_ascii (lstrip s).
Proof.
  unfold pure_ascii. induction s as [| c s IH]; cbn [lstrip]; [auto |].
  intros H. destruct (isspace c); [| exact H].
  apply IH. inversion H. assumption.
Qed.

Lemma pure_ascii_strip s : pure_ascii s -> pure_ascii (strip s).
Proof.
  intros H. unfold strip, rstrip, pure_ascii. apply Forall_rev.
  apply pure_ascii_lstrip. apply Forall_rev. apply pure_ascii_lstrip.
  exact H.
Qed.

Lemma pure_ascii_slice s i j : pure_ascii s -> pure_ascii (slice s i j).
Proof.
  intros H. unfold slice, pure_ascii.
  cbv zeta. set (n := Z.to_nat (_ - _)). set (a := Z.to_nat _).
  assert (Forall (fun c => (c < 128)%N) (skipn a s)) as Hs.
  { rewrite <- (firstn_skipn a s) in H. apply Forall_app in H. apply H. }
  rewrite <- (firstn_skipn n (skipn a s)) in Hs. apply Forall_app in Hs.
  apply Hs.
Qed.

Lemma pure_ascii_replace s old new :
  pure_ascii s -> pure_ascii new -> pure_ascii (replace s old new).
Proof.
  unfold replace, pure_ascii. intros Hs Hnew. generalize 0%nat.
  induction s as [| c s IH]; intros skip; cbn [replace_aux]; [constructor |].
  inversion Hs as [| x l Hc Hrest]; subst.
  destruct skip; [| exact (IH Hrest _)].
  destruct (startswith old (c :: s)).
  - apply Forall_app. split; [exact Hnew | exact (IH Hrest _)].
  - constructor; [exact Hc | exact (IH Hrest _)].
Qed.

Lemma pure_ascii_split s sep :
  pure_ascii s -> Forall pure_ascii (split s sep).
Proof.
  unfold split, pure_ascii. intros Hs.
  assert (Forall (fun c => (c < 128)%N) (@nil N)) as Hcur by constructor.
  revert Hcur. generalize (@nil N) as cur. generalize 0%nat.
  induction s as [| c s IH]; intros skip cur Hcur; cbn [split_aux].
  - constructor; [apply Forall_rev; exact Hcur | constructor].
  - inversion Hs as [| x l Hc Hrest]; subst.
    destruct skip; [| exact (IH Hrest _ _ Hcur)].
    destruct (startswith sep (c :: s)).
    + constructor; [apply Forall_rev; exact Hcur |].
      apply (IH Hrest). constructor.
    + apply (IH Hrest). constructor; assumption.
Qed.

Lemma ascii_safe_write_file W file_path content :
  pure_ascii content -> emits ascii_write (safe_write_file W file_path content).
Proof.
  intros Hc. unfold safe_write_file, failed_to_write, write_file.
  apply emits_try_except.
  - apply emits_call_unit. intros o. exact Hc.
  - intros r k H. destruct r as [[] |]; try discriminate H;
      injection H as <-; try apply emits_raise.
    apply emits_try_except.
    + apply emits_bind; [| intros ?; apply emits_print; exact I].
      apply emits_call_unit. intros o. apply sanitize_text_ascii.
    + intros r' k' H'. destruct r'; [| discriminate H'].
      injection H' as <-. apply emits_raise.
Qed.

Lemma ascii_save_sections W tag label out sections :
  Forall pure_ascii sections ->
  forall created,
    emits ascii_write (save_sections W tag label out sections created).
Proof.
  induction 1 as [| section rest Hs _ IH]; intros created;
    cbn [save_sections].
  - apply emits_ret.
  - destruct (fenced _ _); [| apply IH].
    apply emits_bind; [unfold makedirs; emits_step |]. intros _.
    apply emits_bind.
    { apply ascii_safe_write_file. apply pure_ascii_strip.
      apply pure_ascii_replace; [| constructor].
      apply pure_ascii_replace; [| constructor].
      apply pure_ascii_strip, pure_ascii_slice. exact Hs. }
    intros _. apply emits_bind; [apply emits_print; exact I |].
    intros _. apply IH.
Qed.

Lemma ascii_sections response sep :
  Forall pure_ascii (tl (split (sanitize_text response) sep)).
Proof.
  pose proof (pure_ascii_split (sanitize_text response) sep
                (sanitize_text_ascii response)) as H.
  destruct (split (sanitize_text response) sep); [constructor |].
  inversion H. assumption.
Qed.

Lemma ascii_read_created_files W out created_files :
  forall files_content,
    emits ascii_write (read_created_files W out created_files files_content).
Proof.
  induction created_files as [| file_path rest IH]; intros files_content;
    cbn [read_created_files].
  - apply emits_ret.
  - unfold read_file. apply emits_bind; [| intros ?; apply IH].
    repeat emits_step.
Qed.

Lemma ascii_create_directories W out directories :
  emits ascii_write (create_directories W out directories).
Proof.
  induction directories as [| d rest IH]; cbn [create_directories].
  - apply emits_ret.
  - unfold makedirs. apply emits_bind; [emits_step | intros _; exact IH].
Qed.

Lemma ascii_run_phases W prompt out :
  emits ascii_write (run_phases W prompt out).
Proof.
  unfold run_phases, create_coding_agent, create_project_structure,
    generate_requirements_document, generate_architecture_design,
    generate_code_files, generate_tests, generate_documentation,
    invoke, makedirs.
  destruct (getenv W (lit "GROQ_API_KEY")) as [[| c key] |];
    repeat first
      [ apply ascii_create_directories
      | apply ascii_read_created_files
      | apply ascii_safe_write_file; apply sanitize_text_ascii
      | apply ascii_save_sections; apply ascii_sections
      | emits_step ].
Qed.


(** ** The exit of the command line *)

Lemma exits_with_exc_only {A} code (c : M A) : exc_only c -> exits_with code c.
Proof. intros Hc h ev code' H. exfalso. exact (Hc h ev code' H). Qed.

Lemma exits_with_raise {A} code : exits_with code (@raise A (SystemExit code)).
Proof. intros h ev code' H. unfold raise in H. congruence. Qed.

Lemma exits_with_bind {A B} code (c : M A) (k : A -> M B) :
  exits_with code c -> (forall a, exits_with code (k a)) ->
  exits_with code (bind c k).
Proof.
  intros Hc Hk h ev code'. rewrite bind_run.
  destruct (c h) as [ev1 [r | a]] eqn:E; cbn [fst snd].
  - intros H. injection H as <- ->. exact (Hc h ev1 code' E).
  - intros H. apply (Hk a (h ++ ev1) (fst (k a (h ++ ev1))) code').
    rewrite (surjective_pairing (k a (h ++ ev1))). f_equal.
    injection H as _ H. exact H.
Qed.

Lemma exc_only_input W question : exc_only (input W question).
Proof. apply exc_only_call_value. Qed.

Lemma exc_only_print_numbered items :
  forall i, exc_only (print_numbered i items).
Proof.
  induction items as [| t rest IH]; intros i; cbn [print_numbered].
  - apply exc_only_ret.
  - apply exc_only_bind; [apply exc_only_print | intros _; apply IH].
Qed.

Lemma exc_only_choose W question other items :
  exc_only (choose W question other items).
Proof.
  unfold choose. apply exc_only_bind; [apply exc_only_input |].
  intros answer. destruct (int_of_str W answer) as [e | n];
    [apply exc_only_raise |].
  destruct (list_index items (n - 1)) as [item |]; [| apply exc_only_raise].
  destruct (str_eqb item _); [apply exc_only_input | apply exc_only_ret].
Qed.

Lemma exc_only_read_requirements W fuel :
  forall functional_reqs, exc_only (read_requirements W fuel functional_reqs).
Proof.
  induction fuel as [| fuel IH]; intros functional_reqs;
    cbn [read_requirements].
  - apply exc_only_raise.
  - apply exc_only_bind; [apply exc_only_input |].
    intros [| c req]; [apply exc_only_ret | apply IH].
Qed.

(** The questionnaire leaves through [sys.exit] with the code 0 only. *)
Lemma interactive_exits_with_0 W :
  exits_with 0 (interactive_requirements_gathering W).
Proof.
  unfold interactive_requirements_gathering.
  repeat first
    [ apply exits_with_bind;
      [ apply exits_with_exc_only;
        first [ apply exc_only_print | apply exc_only_input
              | apply exc_only_print_numbered | apply exc_only_choose
              | apply exc_only_read_requirements ]
      | intros ? ] ].
  destruct (negb _).
  - apply exits_with_bind;
      [apply exits_with_exc_only, exc_only_print | intros _].
    apply exits_with_raise.
  - apply exits_with_exc_only, exc_only_ret.
Qed.

(** The questionnaire talks to the console and does nothing else. *)
Lemma console_print_numbered items :
  forall i, emits console (print_numbered i items).
Proof.
  induction items as [| t rest IH]; intros i; cbn [print_numbered].
  - apply emits_ret.
  - apply emits_bind; [apply emits_print; exact I | intros _; apply IH].
Qed.

Lemma console_input W question : emits console (input W question).
Proof. unfold input. apply emits_call_value. intros o. exact I. Qed.

Lemma console_choose W question other items :
  emits console (choose W question other items).
Proof.
  unfold choose. apply emits_bind; [apply console_input |].
  intros answer. destruct (int_of_str W answer) as [e | n];
    [apply emits_raise |].
  destruct (list_index items (n - 1)) as [item |]; [| apply emits_raise].
  destruct (str_eqb item _); [apply console_input | apply emits_ret].
Qed.

Lemma console_read_requirements W fuel :
  forall functional_reqs,
    emits console (read_requirements W fuel functional_reqs).
Proof.
  induction fuel as [| fuel IH]; intros functional_reqs;
    cbn [read_requirements].
  - apply emits_raise.
  - apply emits_bind; [apply console_input |].
    intros [| c req]; [apply emits_ret | apply IH].
Qed.

Lemma console_interactive W :
  emits console (interactive_requirements_gathering W).
Proof.
  unfold interactive_requirements_gathering.
  repeat first
    [ apply emits_bind;
      [ first [ apply emits_print; exact I | apply console_input
              | apply console_print_numbered | apply console_choose
              | apply console_read_requirements ]
      | intros ? ] ].
  destruct (negb _).
  - apply emits_bind; [apply emits_print; exact I | intros _].
    apply emits_raise.
  - apply emits_ret.
Qed.

Lemma declines_exc_only {A} (c : M A) : exc_only c -> declines c.
Proof. intros Hc h ev code H. exfalso. exact (Hc h ev code H). Qed.

Lemma declines_console {A} (c : M A) :
  emits console c -> exits_with 0 c -> declines c.
Proof.
  intros Hev Hexit h ev code H. split; [exact (Hexit h ev code H) |].
  pose proof (Hev h) as Hall. rewrite H in Hall. exact Hall.
Qed.

Lemma declines_bind {A B} (c : M A) (k : A -> M B) :
  declines c -> (forall a, exc_only (k a)) -> declines (bind c k).
Proof.
  intros Hc Hk h ev code. rewrite bind_run.
  destruct (c h) as [ev1 [r | a]] eqn:E; cbn [fst snd].
  - intros H. injection H as <- ->. exact (Hc h ev1 code E).
  - intros H. exfalso.
    apply (Hk a (h ++ ev1) (fst (k a (h ++ ev1))) code).
    rewrite (surjective_pairing (k a (h ++ ev1))). f_equal.
    injection H as _ H. exact H.
Qed.

Lemma exc_only_run_simplified_coding_system W prompt out :
  exc_only (run_simplified_coding_system W prompt out).
Proof.
  intros h ev code H.
  destruct (run_simplified_coding_system_returns W prompt out h)
    as [ev' [b Hb]].
  congruence.
Qed.

Lemma main_report_run W a start_time success h :
  exists ev,
    main_report W a start_time success h
    = (ev, inr (if success then 0 else 1))
    /\ Forall console ev.
Proof.
  unfold main_report. destruct (minutes_seconds W _) as [minutes seconds].
  destruct success; rewrite !bind_run; cbn [print ret fst snd app];
    eexists; (split; [reflexivity |]); repeat constructor.
Qed.

Lemma exc_only_main_tail W a prompt :
  exc_only (start_time <- (fun h => ([], inr (time_time W h))) ;;
            success <- run_simplified_coding_system W prompt (output_dir a) ;;
            main_report W a start_time success).
Proof.
  apply exc_only_bind; [intros h ev code; discriminate |].
  intros start_time.
  apply exc_only_bind; [apply exc_only_run_simplified_coding_system |].
  intros success h ev code H.
  destruct (main_report_run W a start_time success h) as [ev' [Hrun _]].
  congruence.
Qed.

Lemma declines_main_setup W a : declines (main_setup W a).
Proof.
  unfold main_setup. apply declines_bind.
  - assert (declines (interactive_requirements_gathering W)) as Hi.
    { apply declines_console;
        [apply console_interactive | apply interactive_exits_with_0]. }
    destruct (prompt a) as [[| c p] |]; try exact Hi.
    destruct (interactive a); [exact Hi |].
    apply declines_exc_only, exc_only_ret.
  - intros p. repeat exc_step.
Qed.

Lemma declines_main W a : declines (main W a).
Proof.
  unfold main. apply declines_bind; [apply declines_main_setup |].
  intros p. apply exc_only_main_tail.
Qed.

Lemma main_returns W a h ev code :
  main W a h = (ev, inr code) ->
  exists p h' success,
    snd (run_simplified_coding_system W p (output_dir a) h') = inr success
    /\ code = (if success then 0 else 1).
Proof.
  unfold main. rewrite bind_run.
  destruct (snd (main_setup W a h)) as [r | p]; [discriminate |].
  rewrite bind_run. cbn [fst snd]. rewrite bind_run. intros H.
  match type of H with
  | context [run_simplified_coding_system W p (output_dir a) ?h'] =>
      destruct (run_simplified_coding_system_returns W p (output_dir a) h')
        as [ev1 [success Hrun]];
      exists p, h', success; rewrite Hrun in H |- *
  end.
  cbn [fst snd] in H |- *.
  match type of H with
  | context [main_report W a ?t success ?h'] =>
      destruct (main_report_run W a t success h') as [ev2 [Hrep _]];
      rewrite Hrep in H
  end.
  cbn [fst snd] in H. injection H as _ <-. split; reflexivity.
Qed.


(** The branch is taken: a user who answers the questions and then
    declines leaves [main] through [sys.exit(0)]. *)
Lemma declining_user_exits :
  snd (main (typing_world declining_answers) no_arguments [])
  = inl (SystemExit 0)
  /\ script (typing_world declining_answers) no_arguments []
     = (fst (main (typing_world declining_answers) no_arguments []), 0).
Proof. vm_compute. split; reflexivity. Qed.

(** ** The menus of the questionnaire *)

Lemma menu_index items n :
  items = project_types \/ items = languages ->
  let L := Z.of_nat (List.length items) in
  ((1 <= n < L \/ - L < n < 0) ->
   exists item,
     list_index items (n - 1) = Some item
     /\ nth_error items (Z.to_nat ((n - 1) mod L)) = Some item
     /\ str_eqb item (lit "Other (specify)") = false)
  /\ ((n = 0 \/ n = L) ->
      list_index items (n - 1) = Some (lit "Other (specify)"))
  /\ ((L < n \/ n <= - L) -> list_index items (n - 1) = None).
Proof.
  intros [-> | ->]; cbv zeta;
    match goal with
    | |- context [Z.of_nat (List.length ?l)] =>
        let v := eval vm_compute in (Z.of_nat (List.length l)) in
        change (Z.of_nat (List.length l)) with v
    end.
  - split; [| split].
    + intros Hn.
      assert (n = 1 \/ n = 2 \/ n = 3 \/ n = 4 \/ n = 5
              \/ n = -1 \/ n = -2 \/ n = -3 \/ n = -4 \/ n = -5) as Hc by lia.
      repeat (destruct Hc as [-> | Hc]); try subst n;
        (eexists; split; [vm_compute; reflexivity |];
         split; vm_compute; reflexivity).
    + intros [-> | ->]; vm_compute; reflexivity.
    + intros Hn. unfold list_index. cbv zeta.
      change (Z.of_nat (List.length project_types)) with 6.
      destruct (Z.leb_spec 0 (n - 1)), (Z.ltb_spec (n - 1) 6),
        (Z.leb_spec (Z.opp 6) (n - 1)), (Z.ltb_spec (n - 1) 0);
        cbn [andb]; try reflexivity; exfalso; lia.
  - split; [| split].
    + intros Hn.
      assert (n = 1 \/ n = 2 \/ n = 3 \/ n = 4 \/ n = 5 \/ n = 6 \/ n = 7
              \/ n = -1 \/ n = -2 \/ n = -3 \/ n = -4 \/ n = -5 \/ n = -6
              \/ n = -7) as Hc by lia.
      repeat (destruct Hc as [-> | Hc]); try subst n;
        (eexists; split; [vm_compute; reflexivity |];
         split; vm_compute; reflexivity).
    + intros [-> | ->]; vm_compute; reflexivity.
    + intros Hn. unfold list_index. cbv zeta.
      change (Z.of_nat (List.length languages)) with 8.
      destruct (Z.leb_spec 0 (n - 1)), (Z.ltb_spec (n - 1) 8),
        (Z.leb_spec (Z.opp 8) (n - 1)), (Z.ltb_spec (n - 1) 0);
        cbn [andb]; try reflexivity; exfalso; lia.
Qed.

(** X13: the two menus of the questionnaire, for an answer that [int]
    reads as [n], with [L] entries in the menu (6 project types, 8
    languages).  An [n] from 1 to [L - 1] selects the entry of that
    number.  So does a negative [n] above [- L], counted from the end of
    the list: -1 is the entry before the last.  Both [L] and 0 select the
    last entry, "Other (specify)", and the user is asked for a free text.
    Any other number raises [IndexError]; nothing is asked after it. *)
Theorem menu_choice (W : world) (question other : str) (items : list str)
  (h : list event) (line : str) (n : Z) :
  items = project_types \/ items = languages ->
  nth_error (stdin W) (inputs_so_far h) = Some line ->
  int_of_str W line = inr n ->
  let L := Z.of_nat (List.length items) in
  let asked := Input question (inr line) in
  ((1 <= n < L \/ - L < n < 0) ->
   exists item,
     nth_error items (Z.to_nat ((n - 1) mod L)) = Some item
     /\ item <> lit "Other (specify)"
     /\ choose W question other items h = ([asked], inr item))
  /\ ((n = 0 \/ n = L) ->
      choose W question other items h
      = (asked :: fst (input W other (h ++ [asked])),
         snd (input W other (h ++ [asked]))))
  /\ ((L < n \/ n <= - L) ->
      choose W question other items h
      = ([asked],
         inl (Exc (IndexError (lit "list index out of range"))))).
Proof.
  intros Hitems Hline Hint. cbv zeta.
  destruct (menu_index items n Hitems) as [Hin [Hother Hout]].
  assert (choose W question other items h
             = (let (ev, res) :=
                  match list_index items (n - 1) with
                  | None =>
                      raise (Exc (IndexError (lit "list index out of range")))
                  | Some item =>
                      if str_eqb item (lit "Other (specify)")
                      then input W other
                      else ret item
                  end (h ++ [Input question (inr line)]) in
                (Input question (inr line) :: ev, res)))
    as Hrun.
  { unfold choose, bind. unfold input at 1, call_value.
    rewrite Hline, Hint. reflexivity. }
  split; [| split].
  - intros Hn. destruct (Hin Hn) as [item [Hidx [Hnth Hne]]].
    exists item. split; [exact Hnth |]. split.
    + intros Heq. rewrite Heq in Hne. vm_compute in Hne. discriminate.
    + rewrite Hrun, Hidx, Hne. reflexivity.
  - intros Hn. rewrite Hrun, (Hother Hn).
    replace (str_eqb (lit "Other (specify)") (lit "Other (specify)"))
      with true by (vm_compute; reflexivity).
    destruct (input W other _); reflexivity.
  - intros Hn. rewrite Hrun, (Hout Hn). reflexivity.
Qed.

Lemma menu_choice_witness :
  let W := typing_world [lit "3"] in
  let asked := Input (lit "Enter choice (1-6): ") (inr (lit "3")) in
  ((1 <= 3 < 6 \/ - 6 < 3 < 0) ->
   exists item,
     nth_error project_types (Z.to_nat ((3 - 1) mod 6)) = Some item
     /\ item <> lit "Other (specify)"
     /\ choose W (lit "Enter choice (1-6): ") (lit "Specify project type: ")
          project_types []
        = ([asked], inr item))
  /\ ((3 = 0 \/ 3 = 6) ->
      choose W (lit "Enter choice (1-6): ") (lit "Specify project type: ")
        project_types []
      = (asked :: fst (input W (lit "Specify project type: ") ([] ++ [asked])),
         snd (input W (lit "Specify project type: ") ([] ++ [asked]))))
  /\ ((6 < 3 \/ 3 <= - 6) ->
      choose W (lit "Enter choice (1-6): ") (lit "Specify project type: ")
        project_types []
      = ([asked],
         inl (Exc (IndexError (lit "list index out of range"))))).
Proof.
  apply (menu_choice (typing_world [lit "3"]) (lit "Enter choice (1-6): ")
           (lit "Specify project type: ") project_types [] (lit "3") 3);
    [left; reflexivity | reflexivity | reflexivity].
Defined.
(** X12: whatever the model replies and whatever the file system does,
    every text that a run of [run_simplified_coding_system] writes, or
    tries to write, to a file holds ASCII characters only; so does every
    text written by a run of the command line. *)
Theorem run_writes_ascii_only (W : world) (a : args) (request out : str)
  (h : list event) :
  Forall ascii_write (fst (run_simplified_coding_system W request out h))
  /\ Forall ascii_write (fst (script W a h)).
Proof.
  assert (forall p o, emits ascii_write (run_simplified_coding_system W p o))
    as Hrun.
  { intros p o. unfold run_simplified_coding_system.
    apply emits_bind; [apply emits_print; exact I | intros _].
    apply emits_bind; [apply emits_print; exact I | intros _].
    apply emits_bind.
    - apply emits_try_except.
      + apply emits_bind; [apply ascii_run_phases | intros _; apply emits_ret].
      + intros r k H. destruct r; [| discriminate H]. injection H as <-.
        repeat emits_step.
    - intros [b |]; apply emits_ret. }
  split; [apply Hrun |].
  assert (forall e, console e -> ascii_write e) as Hconsole.
  { intros []; cbn; tauto. }
  assert (emits ascii_write (main W a)) as Hmain.
  { unfold main, main_setup.
    apply emits_bind.
    - apply emits_bind.
      + pose proof (emits_weaken console ascii_write _ Hconsole
                      (console_interactive W)) as Hi.
        destruct (prompt a) as [[| c p] |]; try exact Hi.
        destruct (interactive a); [exact Hi | apply emits_ret].
      + intros p. unfold makedirs. repeat emits_step.
    - intros p. apply emits_bind; [intros h'; constructor |].
      intros start_time. apply emits_bind; [apply Hrun |].
      intros success h'.
      destruct (main_report_run W a start_time success h') as [ev [-> Hev]].
      cbn [fst]. eapply Forall_impl; [exact Hconsole | exact Hev]. }
  unfold script. pose proof (Hmain h) as Hall.
  destruct (main W a h) as [ev [[e | code] | code]]; cbn [fst] in *;
    try exact Hall.
  apply Forall_app. split; [exact Hall | repeat constructor].
Qed.

(** ** Without an API key *)



(** ** The requirements, one per line *)

Lemma read_requirements_lines W :
  forall reqs before acc h fuel,
    inputs_so_far h = List.length before ->
    Forall (fun req => req <> []) reqs ->
    (List.length reqs < fuel)%nat ->
    let asked :=
      map (fun req => Input (lit "  - ") (inr req)) reqs in
    (forall rest,
       stdin W = before ++ reqs ++ [] :: rest ->
       read_requirements W fuel acc h
       = (asked ++ [Input (lit "  - ") (inr [])], inr (acc ++ reqs)))
    /\ (stdin W = before ++ reqs ->
        read_requirements W fuel acc h
        = (asked
           ++ [Input (lit "  - ")
                 (inl (EOFError (lit "EOF when reading a line")))],
           inl (Exc (EOFError (lit "EOF when reading a line"))))).
Proof.
  induction reqs as [| req reqs IH]; intros before acc h fuel Hh Hne Hfuel;
    cbv zeta; (destruct fuel as [| fuel]; [cbn in Hfuel; lia |]);
    cbn [read_requirements map app].
  - split.
    + intros rest Hin. unfold bind, input, call_value.
      rewrite Hh, Hin, nth_error_app2, Nat.sub_diag by lia.
      cbn [nth_error app]. rewrite app_nil_r. reflexivity.
    + intros Hin. unfold bind, input, call_value.
      rewrite Hh, Hin, app_nil_r.
      unfold str.
      assert (nth_error before (List.length before) = None) as Hend
        by (apply nth_error_None; lia).
      rewrite Hend. reflexivity.
  - inversion Hne as [| x l Hreq Hrest]; subst.
    assert (forall tail,
               stdin W = before ++ (req :: reqs) ++ tail ->
               input W (lit "  - ") h
               = ([Input (lit "  - ") (inr req)], inr req)) as Hread.
    { intros tail Hin. unfold input, call_value.
      rewrite Hh, Hin, nth_error_app2, Nat.sub_diag by lia. reflexivity. }
    assert (inputs_so_far (h ++ [Input (lit "  - ") (inr req)])
            = List.length (before ++ [req])) as Hh'.
    { unfold inputs_so_far in *. rewrite filter_app, !length_app, Hh.
      reflexivity. }
    cbn [List.length] in Hfuel.
    destruct (IH (before ++ [req]) (acc ++ [req])
                (h ++ [Input (lit "  - ") (inr req)]) fuel Hh' Hrest
                ltac:(lia)) as [IH1 IH2].
    unfold str in *. split.
    + intros rest Hin. rewrite bind_run, (Hread _ Hin). cbn [fst snd].
      destruct req as [| c req]; [congruence |]. cbv iota.
      rewrite (IH1 rest) by (rewrite Hin, <- !app_assoc; reflexivity).
      rewrite <- app_assoc. reflexivity.
    + intros Hin. rewrite bind_run.
      rewrite (Hread [])
        by (rewrite Hin, app_nil_r; reflexivity).
      cbn [fst snd]. destruct req as [| c req]; [congruence |]. cbv iota.
      rewrite IH2 by (rewrite Hin, <- !app_assoc; reflexivity).
      reflexivity.
Qed.

(** X21: the loop of the questionnaire that reads the functional
    requirements takes the lines the user types up to the first empty
    line: it returns the lines before it, in order, and leaves the lines
    after it for the questions that follow.  When the input ends before an
    empty line, the loop raises [EOFError] after the last line. *)
Theorem requirements_until_empty_line (W : world) (h : list event)
  (before reqs : list str) :
  inputs_so_far h = List.length before ->
  Forall (fun req => req <> []) reqs ->
  let asked := map (fun req => Input (lit "  - ") (inr req)) reqs in
  (forall rest,
     stdin W = before ++ reqs ++ [] :: rest ->
     read_requirements W (S (List.length (stdin W))) [] h
     = (asked ++ [Input (lit "  - ") (inr [])], inr reqs)
     /\ inputs_so_far (h ++ asked ++ [Input (lit "  - ") (inr [])])
        = List.length (before ++ reqs ++ [[]]))
  /\ (stdin W = before ++ reqs ->
      read_requirements W (S (List.length (stdin W))) [] h
      = (asked
         ++ [Input (lit "  - ")
               (inl (EOFError (lit "EOF when reading a line")))],
         inl (Exc (EOFError (lit "EOF when reading a line"))))).
Proof.
  intros Hh Hne. cbv zeta. split.
  - intros rest Hin.
    assert (List.length reqs < S (List.length (stdin W)))%nat as Hfuel.
    { rewrite Hin, !length_app. lia. }
    destruct (read_requirements_lines W reqs before [] h _ Hh Hne Hfuel)
      as [H1 _].
    split; [exact (H1 rest Hin) |].
    unfold inputs_so_far in *. rewrite !filter_app, !length_app, Hh.
    cbn [filter List.length]. f_equal. f_equal.
    clear. induction reqs as [| req reqs IH]; [reflexivity |].
    cbn [map filter List.length]. rewrite IH. reflexivity.
  - intros Hin.
    assert (List.length reqs < S (List.length (stdin W)))%nat as Hfuel.
    { rewrite Hin, !length_app. lia. }
    destruct (read_requirements_lines W reqs before [] h _ Hh Hne Hfuel)
      as [_ H2].
    exact (H2 Hin).
Qed.

Lemma requirements_until_empty_line_witness :
  let W := typing_world [lit "name"; lit "login"; lit "logout"; [];
                         lit "none"] in
  let h := [Input (lit "Project name: ") (inr (lit "name"))] in
  let reqs := [lit "login"; lit "logout"] in
  let asked := map (fun req => Input (lit "  - ") (inr req)) reqs in
  (forall rest,
     stdin W = [lit "name"] ++ reqs ++ [] :: rest ->
     read_requirements W (S (List.length (stdin W))) [] h
     = (asked ++ [Input (lit "  - ") (inr [])], inr reqs)
     /\ inputs_so_far (h ++ asked ++ [Input (lit "  - ") (inr [])])
        = List.length ([lit "name"] ++ reqs ++ [[]]))
  /\ (stdin W = [lit "name"] ++ reqs ->
      read_requirements W (S (List.length (stdin W))) [] h
      = (asked
         ++ [Input (lit "  - ")
               (inl (EOFError (lit "EOF when reading a line")))],
         inl (Exc (EOFError (lit "EOF when reading a line"))))).
Proof.
  apply (requirements_until_empty_line
           (typing_world [lit "name"; lit "login"; lit "logout"; [];
                          lit "none"])
           [Input (lit "Project name: ") (inr (lit "name"))]
           [lit "name"] [lit "login"; lit "logout"]).
  - reflexivity.
  - repeat constructor; discriminate.
Defined.

(** ** The progress monitor of web/app.py *)

Import WebApp.

Lemma estimate_values :
  map estimate (seq 0 6) = map Some [0; 16; 33; 50; 66; 83].
Proof. vm_compute. reflexivity. Qed.

Lemma estimate_below_six i :
  (i < 6)%nat ->
  estimate i = Some (100 * Z.of_nat i / 6) /\ 0 <= 100 * Z.of_nat i / 6 <= 83.
Proof.
  intros Hi.
  do 6 (destruct i as [| i]; [split; [vm_compute; reflexivity |
                                       vm_compute; split; discriminate] |]).
  lia.
Qed.

Lemma index_bound l x i : index l x = Some i -> (i < List.length l)%nat.
Proof.
  revert i. induction l as [| y l IH]; intros i; cbn [index List.length].
  - discriminate.
  - destruct (str_eqb y x).
    + intros H. injection H as <-. lia.
    + destruct (index l x) as [k |]; [| discriminate].
      intros H. injection H as <-. specialize (IH k eq_refl). lia.
Qed.

Lemma str_eqb_eq a b : str_eqb a b = true <-> a = b.
Proof.
  unfold str_eqb. destruct (list_eq_dec N.eq_dec a b); split; intros;
    congruence.
Qed.

Lemma str_eqb_sym a b : str_eqb a b = str_eqb b a.
Proof.
  destruct (str_eqb a b) eqn:Hab; destruct (str_eqb b a) eqn:Hba;
    try reflexivity.
  - apply str_eqb_eq in Hab. subst b. rewrite <- Hba. symmetry.
    apply str_eqb_eq. reflexivity.
  - apply str_eqb_eq in Hba. subst b. rewrite <- Hab.
    apply str_eqb_eq. reflexivity.
Qed.

(** [x in l] holds exactly when [l.index(x)] returns. *)
Lemma contains_index l x :
  contains l x = true <-> exists i, index l x = Some i.
Proof.
  unfold contains. induction l as [| y l IH]; cbn [existsb index].
  - split; [discriminate | intros [i H]; discriminate].
  - rewrite (str_eqb_sym x y). destruct (str_eqb y x); cbn [orb].
    + split; eauto.
    + rewrite IH. destruct (index l x) as [k |]; split; eauto;
        intros [i H]; discriminate.
Qed.

(** A turn of the monitor leaves the session as it is or sets the estimate
    to a value between 0 and 83. *)
Lemma monitor_body_cases s s' :
  monitor_body s = Some s' ->
  s' = s \/ exists v, s' = set_progress s v /\ 0 <= v <= 83.
Proof.
  unfold monitor_body. destruct (contains phases (current_phase s)).
  - destruct (index phases (current_phase s)) as [i |] eqn:Hi;
      [| discriminate].
    apply index_bound in Hi. change (List.length phases) with 6%nat in Hi.
    destruct (estimate_below_six i Hi) as [-> Hv].
    intros H. injection H as <-. right. eauto.
  - intros H. injection H as <-. left. reflexivity.
Qed.

Lemma monitor_body_named s i name :
  nth_error phases i = Some name ->
  current_phase s = name ->
  index phases name = Some i
  /\ monitor_body s = Some (set_progress s (100 * Z.of_nat i / 6)).
Proof.
  intros Hnth Hname. unfold monitor_body. rewrite Hname.
  do 6 (destruct i as [| i];
        [injection Hnth as <-; split; vm_compute; reflexivity |]).
  destruct i; discriminate.
Qed.

Lemma monitor_body_unnamed s :
  contains phases (current_phase s) = false -> monitor_body s = Some s.
Proof. intros H. unfold monitor_body. rewrite H. reflexivity. Qed.

(** Left alone, the monitor never dies in a turn: the name it has just
    found in the list is still there for [index]. *)
Lemma monitor_body_returns s : monitor_body s <> None.
Proof.
  unfold monitor_body.
  destruct (contains phases (current_phase s)) eqn:Hc; [| discriminate].
  apply contains_index in Hc. destruct Hc as [i Hi]. rewrite Hi.
  apply index_bound in Hi. change (List.length phases) with 6%nat in Hi.
  destruct (estimate_below_six i Hi) as [-> _]. discriminate.
Qed.

(** [monitor_body] is the turn of the loop when the other thread does not
    run in between: from the test [in phases] to the sleep. *)
Lemma monitor_turn s g s' :
  monitor_body s = Some s' ->
  monitor_steps {| sess := s; gen := g; mon := AtMembership |}
    {| sess := s'; gen := g; mon := AtSleep |}.
Proof.
  unfold monitor_body.
  destruct (contains phases (current_phase s)) eqn:Hc.
  - destruct (index phases (current_phase s)) as [i |] eqn:Hi;
      [| discriminate].
    destruct (estimate i) as [v |] eqn:Hv; [| discriminate].
    intros H. injection H as <-.
    eapply monitor_moves; [apply step_member; exact Hc |].
    eapply monitor_moves; [eapply step_index; eassumption |].
    eapply monitor_moves; [apply step_assign |].
    apply monitor_stays.
  - intros H. injection H as <-.
    eapply monitor_moves; [apply step_not_member; exact Hc |].
    apply monitor_stays.
Qed.

Lemma settled_unnamed s :
  settled s -> contains phases (current_phase s) = false.
Proof. intros [H | H]; rewrite H; vm_compute; reflexivity. Qed.

Ltac session_simpl :=
  cbn [gen mon sess progress current_phase set_progress set_current_phase
       set_messages set_is_running set_output_dir set_files
       set_download_ready] in *.

Lemma phase_invariant_reachable out st :
  reachable out st -> phase_invariant st.
Proof.
  induction 1 as [s | st st' Hreach IH Hstep].
  - reflexivity.
  - unfold phase_invariant, settled in *.
    destruct Hstep as [Hstep | Hstep]; destruct Hstep; session_simpl.
    all: try solve [auto | tauto | subst; auto].
    all: match goal with
         | g : gen_pc |- _ =>
             destruct g; try solve [exact IH | discriminate IH | tauto]
         end.
    all: exfalso; destruct IH as [Hs _]; apply settled_unnamed in Hs;
      congruence.
Qed.

Lemma assign_bounded_step out st st' :
  assign_bounded st -> step out st st' -> assign_bounded st'.
Proof.
  unfold assign_bounded. intros Hb [Hstep | Hstep]; destruct Hstep;
    session_simpl; try exact Hb; try exact I.
  match goal with
  | Hi : index phases _ = Some _ |- _ =>
      apply index_bound in Hi; change (List.length phases) with 6%nat in Hi;
      destruct (estimate_below_six _ Hi) as [He Hv]
  end.
  congruence.
Qed.

(** The relation is inhabited as the code runs: from the session of a new
    page, a run in which the coding system returns and the walk finds
    [found] goes to the end of both threads, the monitor having polled in
    between, with the estimate at 100 and the download offered. *)
Lemma run_reaches_end out found :
  exists st,
    reachable out st
    /\ gen st = AtEnd /\ mon st = Exited
    /\ progress (sess st) = 100
    /\ current_phase (sess st) = lit "complete"
    /\ files (sess st) = found
    /\ output_dir (sess st) = Some out
    /\ download_ready (sess st) = true
    /\ is_running (sess st) = false.
Proof.
  pose proof (reach_start out fresh_session) as H.
  eapply reach_step in H; [| left; apply step_reset].
  eapply reach_step in H; [| left; apply step_starting].
  eapply reach_step in H; [| left; apply step_clear_messages].
  eapply reach_step in H; [| left; apply step_running].
  eapply reach_step in H; [| left; apply step_clear_download].
  eapply reach_step in H; [| left; apply step_start_monitor].
  eapply reach_step in H; [| right; apply step_loop_enter; reflexivity].
  eapply reach_step in H;
    [| right; apply step_not_member; vm_compute; reflexivity].
  eapply reach_step in H; [| right; apply step_sleep].
  eapply reach_step in H; [| left; apply step_run_returns].
  eapply reach_step in H; [| left; apply step_output_dir].
  eapply reach_step in H; [| left; apply (step_walk_returns out _ _ found)].
  eapply reach_step in H; [| left; apply step_files].
  eapply reach_step in H; [| left; apply step_progress].
  eapply reach_step in H; [| left; apply step_complete].
  eapply reach_step in H; [| left; apply step_download_ready].
  eapply reach_step in H; [| left; apply step_finally].
  eapply reach_step in H; [| right; apply step_loop_exit; reflexivity].
  eexists. split; [exact H |]. repeat split.
Qed.


(** ** Lines of a file *)

Lemma readlines_aux_concat s :
  forall cur, concat (readlines_aux cur s) = rev cur ++ s.
Proof.
  induction s as [| c s IH]; intros cur; cbn [readlines_aux].
  - destruct cur; [reflexivity |]. cbn [concat]. rewrite !app_nil_r.
    reflexivity.
  - destruct (c =? 10)%N.
    + cbn [concat]. rewrite IH. cbn [rev app]. rewrite <- app_assoc.
      reflexivity.
    + rewrite IH. cbn [rev]. rewrite <- app_assoc. reflexivity.
Qed.

Lemma last_app_cons {A} (a : list A) x b d :
  last (a ++ x :: b) d = last (x :: b) d.
Proof.
  induction a as [| y a IH]; [reflexivity |].
  cbn [app]. rewrite <- IH. destruct (a ++ x :: b) eqn:E; [| reflexivity].
  destruct a; discriminate.
Qed.

(** The number of lines: one per line feed, and one more for a last line
    without a line feed. *)
Lemma readlines_aux_length s :
  forall cur,
    ~ In 10%N cur ->
    Z.of_nat (List.length (readlines_aux cur s))
    = Z.of_nat (count_occ N.eq_dec s 10%N)
      + (if (last (rev cur ++ s) 10 =? 10)%N then 0 else 1).
Proof.
  induction s as [| c s IH]; intros cur Hcur.
  - cbn [readlines_aux count_occ]. rewrite app_nil_r.
    destruct cur as [| c cur]; [reflexivity |].
    cbn [rev]. rewrite last_app_cons. cbn [last List.length].
    destruct (N.eqb_spec c 10); [| reflexivity].
    exfalso. apply Hcur. left. exact e.
  - cbn [readlines_aux count_occ]. rewrite last_app_cons.
    destruct (N.eqb_spec c 10) as [-> | Hc].
    + destruct (N.eq_dec 10 10) as [_ | Hne]; [| congruence].
      cbn [List.length]. rewrite !Nat2Z.inj_succ, (IH []) by (intros []).
      cbn [rev app]. destruct s as [| c' s]; [reflexivity |].
      change (10%N :: c' :: s) with ([10%N] ++ c' :: s).
      rewrite last_app_cons. lia.
    + destruct (N.eq_dec c 10) as [Heq | _]; [congruence |].
      rewrite (IH (c :: cur)).
      * cbn [rev]. rewrite <- app_assoc. cbn [app].
        rewrite last_app_cons. reflexivity.
      * intros [H | H]; [congruence | exact (Hcur H)].
Qed.

(** A line of [readlines] is not empty and holds no line feed before its
    last character. *)
Lemma readlines_aux_lines s :
  forall cur line,
    ~ In 10%N cur ->
    In line (readlines_aux cur s) ->
    line <> [] /\ ~ In 10%N (removelast line).
Proof.
  induction s as [| c s IH]; intros cur line Hcur; cbn [readlines_aux].
  - destruct cur as [| c cur]; [intros [] |].
    intros [<- | []]. split.
    + cbn [rev]. destruct (rev cur); discriminate.
    + intros H. apply Hcur. apply in_rev.
      destruct (rev (c :: cur)) as [| x l] eqn:E; [destruct H |].
      rewrite (app_removelast_last x (l := x :: l)) by discriminate.
      apply in_or_app. left. exact H.
  - destruct (N.eqb_spec c 10) as [-> | Hc].
    + intros [<- | H].
      * split; [cbn [rev]; destruct (rev cur); discriminate |].
        cbn [rev]. rewrite removelast_last. intros H. apply Hcur.
        apply in_rev. exact H.
      * apply (IH [] line); [intros [] | exact H].
    + apply IH. intros [H | H]; [congruence | exact (Hcur H)].
Qed.

(** ** White space around a line *)

Lemma lstrip_nil s : lstrip s = [] <-> forallb isspace s = true.
Proof.
  induction s as [| c s IH]; cbn [lstrip forallb]; [tauto |].
  destruct (isspace c); cbn [andb]; [exact IH |].
  split; discriminate.
Qed.

Lemma lstrip_head s c rest : lstrip s = c :: rest -> isspace c = false.
Proof.
  induction s as [| a s IH]; cbn [lstrip]; [discriminate |].
  destruct (isspace a) eqn:E; [exact IH |].
  intros H. injection H as -> _. exact E.
Qed.

Lemma lstrip_split s :
  exists ws, s = ws ++ lstrip s /\ forallb isspace ws = true.
Proof.
  induction s as [| c s [ws [IH1 IH2]]]; [exists []; split; reflexivity |].
  cbn [lstrip]. destruct (isspace c) eqn:E.
  - exists (c :: ws). cbn [app forallb]. rewrite E, IH2. split; [| reflexivity].
    f_equal. exact IH1.
  - exists []. split; reflexivity.
Qed.

Lemma lstrip_app_solid a c :
  isspace c = false -> lstrip (a ++ [c]) = lstrip a ++ [c].
Proof.
  intros Hc. induction a as [| x a IH]; cbn [app lstrip].
  - rewrite Hc. reflexivity.
  - destruct (isspace x); [exact IH | reflexivity].
Qed.

Lemma forallb_rev {A} (f : A -> bool) l : forallb f (rev l) = forallb f l.
Proof.
  induction l as [| x l IH]; [reflexivity |].
  cbn [rev forallb]. rewrite forallb_app, IH. cbn [forallb].
  rewrite andb_true_r. apply andb_comm.
Qed.

(** [line.strip() == ''] holds for the lines made of white space only. *)
Lemma is_blank_spec line : is_blank line = forallb isspace line.
Proof.
  unfold is_blank, strip, rstrip.
  destruct (forallb isspace line) eqn:E.
  - apply lstrip_nil in E. rewrite E. reflexivity.
  - destruct (lstrip line) as [| c rest] eqn:El.
    + apply lstrip_nil in El. congruence.
    + pose proof (lstrip_head _ _ _ El) as Hc.
      cbn [rev]. rewrite lstrip_app_solid by exact Hc.
      rewrite rev_app_distr. reflexivity.
Qed.

(** [line.strip().startswith('#')] holds for the lines whose first
    character after the leading white space is a hash sign. *)
Lemma is_comment_spec line :
  is_comment line = true
  <-> exists ws rest,
        line = ws ++ 35%N :: rest /\ forallb isspace ws = true.
Proof.
  unfold is_comment, strip, rstrip. split.
  - intros H. destruct (lstrip_split line) as [ws [Hl Hws]].
    destruct (lstrip line) as [| c rest] eqn:El;
      [vm_compute in H; discriminate H |].
    pose proof (lstrip_head _ _ _ El) as Hc.
    cbn [rev] in H. rewrite lstrip_app_solid in H by exact Hc.
    rewrite rev_app_distr in H. cbn [rev app] in H.
    change (lit "#") with [35%N] in H. cbn [startswith] in H.
    destruct (N.eqb_spec 35 c) as [<- | Hne]; [| discriminate H].
    exists ws, rest. split; assumption.
  - intros [ws [rest [-> Hws]]].
    assert (lstrip (ws ++ 35%N :: rest) = 35%N :: rest) as ->.
    { clear -Hws. induction ws as [| c ws IH]; [reflexivity |].
      cbn [forallb] in Hws. apply andb_prop in Hws. destruct Hws as [Hc Hws].
      cbn [app lstrip]. rewrite Hc. exact (IH Hws). }
    cbn [rev]. rewrite lstrip_app_solid by reflexivity.
    rewrite rev_app_distr. reflexivity.
Qed.

Lemma blank_not_comment line : is_blank line = true -> is_comment line = false.
Proof.
  unfold is_blank, is_comment. intros H. apply str_eqb_eq in H. rewrite H.
  reflexivity.
Qed.

(** The three counts are disjoint: the code lines are the lines that are
    neither blank nor comments. *)
Lemma tally_code lines :
  code_lines (tally lines)
  = sum_if (fun line => negb (is_blank line) && negb (is_comment line)) lines.
Proof.
  unfold tally, sum_if. cbn [code_lines].
  induction lines as [| line lines IH]; [reflexivity |].
  cbn [filter List.length].
  destruct (is_blank line) eqn:Eb.
  - rewrite (blank_not_comment line Eb). cbn [negb andb List.length].
    rewrite !Nat2Z.inj_succ. lia.
  - destruct (is_comment line); cbn [negb andb List.length];
      rewrite !Nat2Z.inj_succ; lia.
Qed.

Lemma sum_if_bounds {A} (test : A -> bool) l :
  0 <= sum_if test l <= Z.of_nat (List.length l).
Proof.
  unfold sum_if. pose proof (filter_length_le test l). lia.
Qed.

Lemma count_lines_of_code_run W h file_path :
  let path := pathlib_str W file_path in
  count_lines_of_code W file_path h
  = match open_read W h path Utf8 with
    | inl e =>
        ([FileRead path Utf8 (inl e);
          Print (lit "Error counting lines in " ++ path ++ lit ": "
                 ++ exn_str e)],
         inr no_lines)
    | inr content =>
        ([FileRead path Utf8 (inr content)], inr (tally (readlines content)))
    end.
Proof.
  cbv zeta.
  unfold count_lines_of_code, try_except, bind, read_file, call_value,
    report_and_return, print, ret.
  destruct (open_read W h _ Utf8); reflexivity.
Qed.


(** ** [format_python_file] *)


(** ** The two walks over a directory *)

Lemma read_attempts_app a b :
  read_attempts (a ++ b) = read_attempts a ++ read_attempts b.
Proof. unfold read_attempts. apply flat_map_app. Qed.

Lemma lint_runs_app a b : lint_runs (a ++ b) = lint_runs a ++ lint_runs b.
Proof. unfold lint_runs. apply flat_map_app. Qed.

Lemma dict_store_in {V} (d : list (str * V)) k v k' v' :
  In (k', v') (dict_store d k v) ->
  (k' = k /\ v' = v) \/ In (k', v') d.
Proof.
  induction d as [| [k0 v0] d IH]; cbn [dict_store].
  - intros [H | []]. injection H as <- <-. left. split; reflexivity.
  - destruct (str_eqb k0 k) eqn:E.
    + apply str_eqb_eq in E. subst k0.
      intros [H | H].
      * injection H as <- <-. left. split; reflexivity.
      * right. right. exact H.
    + intros [H | H].
      * right. left. exact H.
      * destruct (IH H) as [H' | H']; [left; exact H' | right; right; exact H'].
Qed.

Lemma dict_store_keys {V} (d : list (str * V)) k v k' :
  In k' (map fst (dict_store d k v)) <-> k' = k \/ In k' (map fst d).
Proof.
  induction d as [| [k0 v0] d IH]; cbn [dict_store map fst In].
  - split; [intros [H | []]; left; congruence | intros [H | []]; left; congruence].
  - destruct (str_eqb k0 k) eqn:E; cbn [map fst In].
    + apply str_eqb_eq in E. subst k0. split.
      * intros [H | H]; [left; congruence | right; right; exact H].
      * intros [H | [H | H]]; [left; congruence | left; exact H | right; exact H].
    + rewrite IH. tauto.
Qed.

Lemma dict_store_nodup {V} (d : list (str * V)) k v :
  NoDup (map fst d) -> NoDup (map fst (dict_store d k v)).
Proof.
  induction d as [| [k0 v0] d IH]; cbn [dict_store map fst]; intros Hd.
  - constructor; [intros [] | constructor].
  - inversion Hd as [| x l Hnotin Hrest]; subst.
    destruct (str_eqb k0 k) eqn:E; cbn [map fst].
    + constructor; assumption.
    + constructor; [| exact (IH Hrest)].
      rewrite dict_store_keys. intros [H | H]; [| exact (Hnotin H)].
      subst k0. rewrite (proj2 (str_eqb_eq k k) eq_refl) in E. discriminate.
Qed.

(** What the walks need of one formatting. *)
Lemma format_python_file_attempt W file_path line_length h :
  exists ev formatted,
    format_python_file W file_path line_length h = (ev, inr formatted)
    /\ read_attempts ev = [pathlib_str W file_path]
    /\ (formatted = true ->
        In (pathlib_str W file_path) (map fst (written ev))).
Proof.
  unfold format_python_file, format_python_code, try_except, bind, read_file,
    write_file, call_value, call_unit, report_and_return, print, ret.
  destruct (open_read W h _ Utf8) as [e | code].
  - eexists _, _. split; [reflexivity |]. split; [reflexivity | discriminate].
  - destruct (black_format_str W _ code line_length) as [e | formatted];
      cbn [app];
      match goal with
      | |- context [open_write W ?a ?b ?c ?d] =>
          destruct (open_write W a b c d)
      end;
      (eexists _, _; split; [reflexivity |]; split;
       [reflexivity | first [discriminate | intros _; cbn; auto]]).
Qed.

Lemma format_each_run W py_files line_length :
  forall results h,
    NoDup (map fst results) ->
    exists ev final,
      format_each W py_files line_length results h = (ev, inr final)
      /\ read_attempts ev = map (pathlib_str W) py_files
      /\ NoDup (map fst final)
      /\ (forall k, In k (map fst final)
                    <-> In k (map fst results)
                        \/ In k (map (pathlib_str W) py_files))
      /\ (forall k, In (k, true) final ->
                    In (k, true) results \/ In k (map fst (written ev))).
Proof.
  induction py_files as [| py_file rest IH]; intros results h Hd;
    cbn [format_each].
  - exists [], results. cbn. repeat split; tauto.
  - rewrite bind_run.
    destruct (format_python_file_attempt W py_file line_length h)
      as [ev1 [formatted [Hrun [Hreads Hwritten]]]].
    rewrite Hrun. cbn [fst snd].
    destruct (IH (dict_store results (pathlib_str W py_file) formatted)
                (h ++ ev1) (dict_store_nodup _ _ _ Hd))
      as [ev2 [final [Hrun2 [Hreads2 [Hnodup [Hkeys Htrue]]]]]].
    rewrite Hrun2. cbn [fst snd]. exists (ev1 ++ ev2), final.
    split; [reflexivity |].
    split; [rewrite read_attempts_app, Hreads, Hreads2; reflexivity |].
    split; [exact Hnodup |].
    split.
    + intros k. rewrite Hkeys, dict_store_keys. cbn [map In]. intuition.
    + intros k Hk. rewrite written_app, map_app, in_app_iff.
      destruct (Htrue k Hk) as [H | H]; [| tauto].
      apply dict_store_in in H. destruct H as [[-> <-] | H]; [| tauto].
      right. left. apply Hwritten. reflexivity.
Qed.

Lemma run_pylint_attempt W file_path h :
  exists ev linted,
    run_pylint W file_path h = (ev, inr linted)
    /\ lint_runs ev
       = (if pylint_available W then [pathlib_str W file_path] else [])
    /\ (pylint_available W = false ->
        ev = [] /\ linted = (lit "Pylint not available", 0%float)).
Proof.
  pose proof (run_pylint_run W h file_path) as H. cbv zeta in H.
  destruct (pylint_available W).
  - destruct (pylint_run W h _); rewrite H; eexists _, _;
      (split; [reflexivity |]; split; [reflexivity | discriminate]).
  - rewrite H. eexists _, _.
    split; [reflexivity |]. split; [reflexivity |]. split; reflexivity.
Qed.

Lemma run_pylint_each_run W py_files :
  forall results h,
    NoDup (map fst results) ->
    exists ev final,
      run_pylint_each W py_files results h = (ev, inr final)
      /\ lint_runs ev
         = (if pylint_available W then map (pathlib_str W) py_files else [])
      /\ NoDup (map fst final)
      /\ (forall k, In k (map fst final)
                    <-> In k (map fst results)
                        \/ In k (map (pathlib_str W) py_files))
      /\ (pylint_available W = false ->
          ev = []
          /\ forall k v, In (k, v) final ->
                         In (k, v) results
                         \/ v = (lit "Pylint not available", 0%float)).
Proof.
  induction py_files as [| py_file rest IH]; intros results h Hd;
    cbn [run_pylint_each].
  - exists [], results. cbn. destruct (pylint_available W);
      repeat split; tauto.
  - rewrite bind_run.
    destruct (run_pylint_attempt W py_file h)
      as [ev1 [linted [Hrun [Hruns Hnone]]]].
    rewrite Hrun. cbn [fst snd].
    destruct (IH (dict_store results (pathlib_str W py_file) linted)
                (h ++ ev1) (dict_store_nodup _ _ _ Hd))
      as [ev2 [final [Hrun2 [Hruns2 [Hnodup [Hkeys Hoff]]]]]].
    rewrite Hrun2. cbn [fst snd]. exists (ev1 ++ ev2), final.
    split; [reflexivity |].
    split.
    { rewrite lint_runs_app, Hruns, Hruns2.
      destruct (pylint_available W); reflexivity. }
    split; [exact Hnodup |].
    split.
    + intros k. rewrite Hkeys, dict_store_keys. cbn [map In]. intuition.
    + intros Hav. destruct (Hoff Hav) as [Hev2 Hvals]. split.
      * subst ev2. rewrite app_nil_r. exact (proj1 (Hnone Hav)).
      * intros k v Hkv. destruct (Hvals k v Hkv) as [H | H]; [| tauto].
        apply dict_store_in in H. destruct H as [[_ ->] | H]; [| tauto].
        right. exact (proj2 (Hnone Hav)).
Qed.


(** ** Syntax trees and [analyze_code_complexity] *)

Lemma node_induction (P : Ast.node -> Prop) :
  (forall k children, Forall P children -> P (Ast.Node k children)) ->
  forall n, P n.
Proof.
  intros H.
  refine (fix IH (n : Ast.node) : P n :=
            match n with
            | Ast.Node k children =>
                H k children
                  ((fix all (l : list Ast.node) : Forall P l :=
                      match l with
                      | [] => Forall_nil P
                      | x :: l' => Forall_cons x (IH x) (all l')
                      end) children)
            end).
Qed.

Lemma Zsum_app a b : Zsum (a ++ b) = Zsum a + Zsum b.
Proof.
  unfold Zsum. induction a as [| x a IH]; cbn [app fold_right]; lia.
Qed.

Lemma sum_if_cons {A} (test : A -> bool) x l :
  sum_if test (x :: l) = (if test x then 1 else 0) + sum_if test l.
Proof.
  unfold sum_if. cbn [filter]. destruct (test x); cbn [List.length]; lia.
Qed.

Lemma size_positive n : (1 <= Ast.size n)%nat.
Proof. destruct n. cbn [Ast.size]. lia. Qed.

(** The breadth-first walk meets every node of the trees in its queue
    once: the nodes it yields that pass a test are as many as the trees
    hold. *)
Lemma walk_from_census test :
  forall turns todo,
    (list_sum (map Ast.size todo) <= turns)%nat ->
    sum_if test (Ast.walk_from turns todo) = Zsum (map (census test) todo).
Proof.
  induction turns as [| turns IH]; intros todo Hturns.
  - destruct todo as [| n rest]; [reflexivity |].
    cbn [map list_sum fold_right] in Hturns.
    pose proof (size_positive n). lia.
  - destruct todo as [| [k children] rest]; [reflexivity |].
    cbn [Ast.walk_from]. rewrite sum_if_cons, IH.
    + rewrite map_app, Zsum_app. cbn [map Zsum fold_right census].
      fold (Zsum (map (census test) rest)).
      fold (Zsum (map (census test) children)). lia.
    + cbn [map list_sum fold_right Ast.size] in Hturns.
      rewrite map_app, list_sum_app.
      fold (list_sum (map Ast.size rest)) in Hturns. lia.
Qed.

Lemma walk_census test tree :
  sum_if test (Ast.walk tree) = census test tree.
Proof.
  unfold Ast.walk. rewrite walk_from_census.
  - cbn [map Zsum fold_right]. lia.
  - cbn [map list_sum fold_right]. lia.
Qed.

(** The visitor reaches every node as well: each counter grows by the
    number of nodes of its classes. *)
Lemma visit_census :
  forall n self,
    loop_count (visit n self) = loop_count self + census is_loop n
    /\ if_count (visit n self) = if_count self + census is_If n
    /\ try_count (visit n self) = try_count self + census is_Try n.
Proof.
  induction n as [k children IH] using node_induction. intros self.
  cbn [visit census].
  assert (forall c,
             loop_count (fold_left (fun self child => visit child self)
                           children c)
             = loop_count c + Zsum (map (census is_loop) children)
             /\ if_count (fold_left (fun self child => visit child self)
                            children c)
                = if_count c + Zsum (map (census is_If) children)
             /\ try_count (fold_left (fun self child => visit child self)
                             children c)
                = try_count c + Zsum (map (census is_Try) children))
    as Hfold.
  { induction IH as [| child rest Hchild _ IHrest]; intros c.
    - cbn. lia.
    - cbn [fold_left map Zsum fold_right].
      fold (Zsum (map (census is_loop) rest)).
      fold (Zsum (map (census is_If) rest)).
      fold (Zsum (map (census is_Try) rest)).
      destruct (IHrest (visit child c)) as [H1 [H2 H3]].
      destruct (Hchild c) as [G1 [G2 G3]]. lia. }
  destruct k;
    match goal with
    | |- context [fold_left _ children ?c] =>
        destruct (Hfold c) as [H1 [H2 H3]]
    end;
    rewrite H1, H2, H3;
    cbn [loop_count if_count try_count is_loop is_If is_Try Ast.kind_of];
    lia.
Qed.

Lemma census_nonnegative test n : 0 <= census test n.
Proof.
  induction n as [k children IH] using node_induction. cbn [census].
  assert (0 <= Zsum (map (census test) children)) as H.
  { induction IH as [| child rest Hchild _ IHrest]; cbn; [lia |].
    fold (Zsum (map (census test) rest)). lia. }
  destruct (test _); lia.
Qed.

Lemma count_lines_of_code_returns W file_path h :
  exists ev loc, count_lines_of_code W file_path h = (ev, inr loc).
Proof.
  rewrite count_lines_of_code_run. cbv zeta.
  destruct (open_read W h _ Utf8); eexists _, _; reflexivity.
Qed.


(** ** [check_for_security_issues] *)

Lemma count_aux_single c s :
  count_aux [c] 0 s = count_occ N.eq_dec s c.
Proof.
  induction s as [| x s IH]; [reflexivity |].
  cbn [count_aux startswith List.length Nat.sub count_occ].
  destruct (N.eq_dec x c) as [-> | Hne].
  - rewrite N.eqb_refl. cbn [andb]. rewrite IH. reflexivity.
  - destruct (N.eqb_spec c x) as [-> | _]; [congruence |].
    cbn [andb]. exact IH.
Qed.

Lemma split_single_none c s :
  forall cur, ~ In c s -> split_aux [c] 0 cur s = [rev cur ++ s].
Proof.
  induction s as [| x s IH]; intros cur Hs; cbn [split_aux].
  - rewrite app_nil_r. reflexivity.
  - cbn [startswith]. destruct (N.eqb_spec c x) as [-> | Hne].
    + exfalso. apply Hs. left. reflexivity.
    + cbn [andb]. rewrite IH by (intros H; apply Hs; right; exact H).
      cbn [rev]. rewrite <- app_assoc. reflexivity.
Qed.

Lemma split_single_first c a b :
  forall cur,
    ~ In c a ->
    split_aux [c] 0 cur (a ++ c :: b) = (rev cur ++ a) :: split_aux [c] 0 [] b.
Proof.
  induction a as [| x a IH]; intros cur Ha; cbn [app split_aux].
  - cbn [startswith]. rewrite N.eqb_refl. cbn [andb List.length Nat.sub].
    rewrite app_nil_r. reflexivity.
  - cbn [startswith]. destruct (N.eqb_spec c x) as [-> | Hne].
    + exfalso. apply Ha. left. reflexivity.
    + cbn [andb]. rewrite IH by (intros H; apply Ha; right; exact H).
      cbn [rev]. rewrite <- app_assoc. reflexivity.
Qed.

Lemma first_break (c : N) s :
  ~ In c s \/ exists a b, s = a ++ c :: b /\ ~ In c a.
Proof.
  induction s as [| x s IH]; [left; intros [] |].
  destruct (N.eq_dec x c) as [-> | Hne].
  - right. exists [], s. split; [reflexivity | intros []].
  - destruct IH as [IH | [a [b [-> Ha]]]].
    + left. intros [H | H]; [congruence | exact (IH H)].
    + right. exists (x :: a), b. split; [reflexivity |].
      intros [H | H]; [congruence | exact (Ha H)].
Qed.

(** The line of a text in which a position falls: the piece of the split
    whose index is the number of line breaks before the position. *)
Lemma line_of_position (c : N) :
  forall n pre post,
    count_occ N.eq_dec pre c = n ->
    exists before seg1 seg2 after,
      pre = before ++ seg1
      /\ post = seg2 ++ after
      /\ ~ In c (seg1 ++ seg2)
      /\ (before = [] \/ exists b, before = b ++ [c])
      /\ (after = [] \/ exists a, after = [c] ++ a)
      /\ nth_error (split (pre ++ post) [c]) n = Some (seg1 ++ seg2)
      /\ count_occ N.eq_dec before c = n.
Proof.
  unfold split. induction n as [| n IH]; intros pre post Hn.
  - apply count_occ_not_In in Hn.
    destruct (first_break c post) as [Hpost | [a [b [-> Ha]]]].
    + exists [], pre, post, []. rewrite app_nil_r.
      assert (~ In c (pre ++ post)) as Hall.
      { rewrite in_app_iff. tauto. }
      rewrite split_single_none by exact Hall.
      repeat split; auto.
    + exists [], pre, a, (c :: b).
      assert (~ In c (pre ++ a)) as Hall.
      { rewrite in_app_iff. tauto. }
      rewrite app_assoc, split_single_first by exact Hall.
      repeat split; auto. right. exists b. reflexivity.
  - destruct (first_break c pre) as [Hpre | [a [pre' [-> Ha]]]].
    + apply (count_occ_not_In N.eq_dec) in Hpre. congruence.
    + rewrite count_occ_app in Hn. cbn [count_occ] in Hn.
      destruct (N.eq_dec c c) as [_ | Hne]; [| congruence].
      apply (count_occ_not_In N.eq_dec) in Ha as Ha0.
      assert (count_occ N.eq_dec pre' c = n) as Hn' by lia.
      destruct (IH pre' post Hn')
        as [before [seg1 [seg2 [after [-> [-> [Hseg [Hb [Haf [Hnth Hc]]]]]]]]]].
      exists (a ++ c :: before), seg1, seg2, after.
      split; [rewrite <- app_assoc; reflexivity |].
      split; [reflexivity |]. split; [exact Hseg |].
      split.
      { right. destruct Hb as [-> | [b ->]].
        - exists a. reflexivity.
        - exists (a ++ c :: b). rewrite <- app_assoc. reflexivity. }
      split; [exact Haf |].
      split.
      { rewrite <- app_assoc. cbn [app].
        rewrite split_single_first by exact Ha. cbn [nth_error rev app].
        exact Hnth. }
      rewrite count_occ_app. cbn [count_occ].
      destruct (N.eq_dec c c) as [_ | Hne]; [| congruence]. lia.
Qed.

Lemma slice_prefix s (start : Z) :
  0 <= start <= Z.of_nat (List.length s) ->
  slice s 0 start = firstn (Z.to_nat start) s.
Proof.
  intros H. unfold slice, slice_bound. cbn [Z.ltb Z.compare].
  destruct (Z.ltb_spec start 0); [lia |].
  rewrite Z.min_l by lia. rewrite Z.min_l by lia.
  rewrite Z.sub_0_r. reflexivity.
Qed.

Lemma issue_at_run code info start h :
  0 <= start <= Z.of_nat (List.length code) ->
  exists found,
    issue_at code info start h = ([], inr found)
    /\ located code found start
    /\ Issue.description found = description info
    /\ Issue.severity found = severity info.
Proof.
  intros Hstart. unfold issue_at, count.
  rewrite slice_prefix by exact Hstart. unfold nl.
  rewrite count_aux_single.
  set (pre := firstn (Z.to_nat start) code).
  set (post := skipn (Z.to_nat start) code).
  destruct (line_of_position 10%N (count_occ N.eq_dec pre 10%N) pre post
              eq_refl)
    as [before [seg1 [seg2 [after [Hpre [Hpost [Hseg [Hb [Ha [Hnth Hc]]]]]]]]]].
  assert (pre ++ post = code) as Hcode by apply firstn_skipn.
  rewrite Hcode in Hnth.
  assert (count_occ N.eq_dec pre 10%N < List.length (split code [10%N]))%nat
    as Hlen.
  { apply nth_error_Some. rewrite Hnth. discriminate. }
  destruct (Z.leb_spec (Z.of_nat (count_occ N.eq_dec pre 10%N) + 1)
              (Z.of_nat (List.length (split code [10%N])))) as [_ | Hno];
    [| lia].
  unfold subscript, list_index.
  replace (Z.of_nat (count_occ N.eq_dec pre 10%N) + 1 - 1)
    with (Z.of_nat (count_occ N.eq_dec pre 10%N)) by lia.
  destruct (Z.leb_spec 0 (Z.of_nat (count_occ N.eq_dec pre 10%N)));
    [| lia].
  destruct (Z.ltb_spec (Z.of_nat (count_occ N.eq_dec pre 10%N))
              (Z.of_nat (List.length (split code [10%N])))); [| lia].
  cbn [andb]. rewrite Nat2Z.id, Hnth.
  unfold bind, ret. cbn [app].
  eexists. split; [reflexivity |].
  split; [| split; reflexivity].
  exists before, after. cbn [Issue.content Issue.line].
  split; [rewrite <- Hcode, Hpre, Hpost, <- !app_assoc; reflexivity |].
  split; [exact Hseg |]. split; [exact Hb |]. split; [exact Ha |].
  split; [rewrite Hc; lia |].
  assert (List.length pre = Z.to_nat start) as Hlpre.
  { unfold pre. apply firstn_length_le. lia. }
  rewrite Hpre, length_app in Hlpre. rewrite length_app. lia.
Qed.

(** What an entry of the result says of the match it reports. *)
Lemma scan_matches_run code info :
  forall matches issues h,
    (forall start, In start matches ->
                   0 <= start <= Z.of_nat (List.length code)) ->
    exists found,
      scan_matches code info matches issues h = ([], inr (issues ++ found))
      /\ Forall2 (fun f m =>
                    located code f (snd m)
                    /\ Issue.description f = description (fst m)
                    /\ Issue.severity f = severity (fst m))
           found (map (fun start => (info, start)) matches).
Proof.
  induction matches as [| start rest IH]; intros issues h Hin;
    cbn [scan_matches map].
  - exists []. rewrite app_nil_r. split; [reflexivity | constructor].
  - destruct (issue_at_run code info start h (Hin start (or_introl eq_refl)))
      as [f [Hrun [Hloc [Hd Hs]]]].
    rewrite bind_run, Hrun. cbn [fst snd].
    destruct (IH (issues ++ [f]) (h ++ [])
                (fun s H => Hin s (or_intror H))) as [found [Hrest Hall]].
    rewrite Hrest. cbn [fst snd app].
    exists (f :: found). split.
    + rewrite <- app_assoc. reflexivity.
    + constructor; [| exact Hall]. cbn [fst snd]. auto.
Qed.

Lemma scan_patterns_run T code :
  (forall pat start, In start (re_finditer T pat code) ->
                     0 <= start <= Z.of_nat (List.length code)) ->
  forall table issues h,
    exists found,
      scan_patterns T code table issues h = ([], inr (issues ++ found))
      /\ Forall2 (fun f m =>
                    located code f (snd m)
                    /\ Issue.description f = description (fst m)
                    /\ Issue.severity f = severity (fst m))
           found
           (flat_map (fun info =>
                        map (fun start => (info, start))
                          (re_finditer T (pattern info) code)) table).
Proof.
  intros HT. induction table as [| info rest IH]; intros issues h;
    cbn [scan_patterns flat_map].
  - exists []. rewrite app_nil_r. split; [reflexivity | constructor].
  - destruct (scan_matches_run code info
                (re_finditer T (pattern info) code) issues h
                (HT (pattern info))) as [found1 [Hrun1 Hall1]].
    rewrite bind_run, Hrun1. cbn [fst snd].
    destruct (IH (issues ++ found1) (h ++ [])) as [found2 [Hrun2 Hall2]].
    rewrite Hrun2. cbn [fst snd app].
    exists (found1 ++ found2). split.
    + rewrite <- app_assoc. reflexivity.
    + apply Forall2_app; assumption.
Qed.


Lemma literal_offsets_bounds sub s :
  forall i start,
    In start (literal_offsets sub s i) ->
    i <= start < i + Z.of_nat (List.length s).
Proof.
  induction s as [| c s IH]; intros i start; cbn [literal_offsets].
  - intros [].
  - cbn [List.length]. rewrite Nat2Z.inj_succ.
    destruct (startswith sub (c :: s)).
    + intros [<- | H]; [lia |]. apply IH in H. lia.
    + intros H. apply IH in H. lia.
Qed.

Lemma sample_toolbox_offsets pat code start :
  In start (re_finditer sample_toolbox pat code) ->
  0 <= start <= Z.of_nat (List.length code).
Proof.
  cbn [re_finditer sample_toolbox].
  destruct (str_eqb pat _); [| intros []].
  intros H. apply literal_offsets_bounds in H. lia.
Qed.


(** ** Reading the created files back *)

Lemma dict_set_store d k v : dict_set d k v = dict_store d k v.
Proof.
  induction d as [| [k' v'] d IH]; [reflexivity |].
  cbn [dict_set dict_store]. rewrite IH. reflexivity.
Qed.

Lemma reads_with_app enc a b :
  reads_with enc (a ++ b) = reads_with enc a ++ reads_with enc b.
Proof. unfold reads_with. apply flat_map_app. Qed.

(** One turn of the loop. *)
Lemma read_created_file_turn W out file_path files_content h :
  let full_path := path_join W out file_path in
  exists ev files_content',
    read_created_files W out [file_path] files_content h
    = (ev, inr files_content')
    /\ reads_with Utf8 ev = [full_path]
    /\ Forall read_or_print ev
    /\ (forall path,
          In path (reads_with AsciiReplace ev) ->
          exists m, In (FileRead path Utf8 (inl (UnicodeDecodeError m))) ev)
    /\ (files_content' = files_content
        \/ exists enc text,
             files_content' = dict_store files_content file_path text
             /\ In (FileRead full_path enc (inr text)) ev).
Proof.
  cbv zeta. cbn [read_created_files].
  unfold try_except, bind, read_file, call_value, print, ret.
  destruct (open_read W h _ Utf8) as [e | text].
  - destruct e;
      try (eexists _, _; split; [reflexivity |];
           split; [reflexivity |];
           split; [repeat constructor |];
           split; [intros path [] | left; reflexivity]).
    cbn [app].
    destruct (open_read W _ _ AsciiReplace) as [e | text].
    + eexists _, _. split; [reflexivity |]. split; [reflexivity |].
      split; [repeat constructor |]. split; [| left; reflexivity].
      intros path [<- | []]. eexists. left. reflexivity.
    + eexists _, _. split; [reflexivity |]. split; [reflexivity |].
      split; [repeat constructor |]. split.
      * intros path [<- | []]. eexists. left. reflexivity.
      * right. exists AsciiReplace, text. rewrite dict_set_store.
        split; [reflexivity |]. right. left. reflexivity.
  - eexists _, _. split; [reflexivity |]. split; [reflexivity |].
    split; [repeat constructor |]. split; [intros path [] |].
    right. exists Utf8, text. rewrite dict_set_store.
    split; [reflexivity |]. left. reflexivity.
Qed.

Lemma bind_in_two {A B} (c : M A) (k : A -> M B) h :
  bind c k h
  = match bind c (fun a => ret a) h with
    | (ev, inl r) => (ev, inl r)
    | (ev, inr a) => let (ev', res) := k a (h ++ ev) in (ev ++ ev', res)
    end.
Proof.
  unfold bind, ret. destruct (c h) as [ev [r | a]]; [reflexivity |].
  rewrite app_nil_r. reflexivity.
Qed.

Lemma read_created_files_cons W out file_path rest files_content h :
  read_created_files W out (file_path :: rest) files_content h
  = match read_created_files W out [file_path] files_content h with
    | (ev, inl r) => (ev, inl r)
    | (ev, inr files_content') =>
        let (ev', res) :=
          read_created_files W out rest files_content' (h ++ ev) in
        (ev ++ ev', res)
    end.
Proof. cbn [read_created_files]. apply bind_in_two. Qed.

Lemma read_created_files_run W out created_files :
  forall files_content h,
    NoDup (map fst files_content) ->
    exists ev final,
      read_created_files W out created_files files_content h
      = (ev, inr final)
      /\ reads_with Utf8 ev = map (path_join W out) created_files
      /\ Forall read_or_print ev
      /\ (forall path,
            In path (reads_with AsciiReplace ev) ->
            exists m,
              In (FileRead path Utf8 (inl (UnicodeDecodeError m))) ev)
      /\ NoDup (map fst final)
      /\ (forall k, In k (map fst final) ->
                    In k (map fst files_content) \/ In k created_files)
      /\ (forall f text,
            In (f, text) final ->
            In (f, text) files_content
            \/ exists enc,
                 In (FileRead (path_join W out f) enc (inr text)) ev).
Proof.
  induction created_files as [| file_path rest IH]; intros files_content h Hd.
  - exists [], files_content. cbn. repeat split; auto.
  - rewrite read_created_files_cons.
    destruct (read_created_file_turn W out file_path files_content h)
      as [ev1 [fc1 [Hrun1 [Hutf [Hkind [Hascii Hfc1]]]]]].
    cbv zeta in Hutf, Hfc1. rewrite Hrun1.
    assert (NoDup (map fst fc1)) as Hd1.
    { destruct Hfc1 as [-> | [enc [text [-> _]]]];
        [exact Hd | apply dict_store_nodup; exact Hd]. }
    destruct (IH fc1 (h ++ ev1) Hd1)
      as [ev2 [final [Hrun2 [Hutf2 [Hkind2 [Hascii2 [Hnd [Hkeys Htext]]]]]]]].
    rewrite Hrun2. exists (ev1 ++ ev2), final.
    split; [reflexivity |].
    split; [rewrite reads_with_app, Hutf, Hutf2; reflexivity |].
    split; [apply Forall_app; split; assumption |].
    split.
    { intros path. rewrite reads_with_app, in_app_iff.
      intros [H | H]; [destruct (Hascii path H) as [m Hm]
                      | destruct (Hascii2 path H) as [m Hm]];
        exists m; apply in_or_app; tauto. }
    split; [exact Hnd |].
    split.
    { intros k Hk. destruct (Hkeys k Hk) as [H | H]; [| right; right; exact H].
      destruct Hfc1 as [-> | [enc [text [-> _]]]]; [left; exact H |].
      apply dict_store_keys in H. destruct H as [-> | H];
        [right; left; reflexivity | left; exact H]. }
    intros f text Hf. destruct (Htext f text Hf) as [H | [enc H]].
    + destruct Hfc1 as [-> | [enc [text' [-> Hev]]]]; [left; exact H |].
      apply dict_store_in in H. destruct H as [[-> ->] | H];
        [| left; exact H].
      right. exists enc. apply in_or_app. left. exact Hev.
    + right. exists enc. apply in_or_app. right. exact H.
Qed.

Lemma no_call_safe_write_file W file_path content :
  emits no_call (safe_write_file W file_path content).
Proof.
  unfold safe_write_file, failed_to_write, write_file. repeat emits_step.
Qed.

Lemma no_call_save_sections W tag label out sections :
  forall created, emits no_call (save_sections W tag label out sections created).
Proof.
  induction sections as [| section rest IH]; intros created;
    cbn [save_sections].
  - apply emits_ret.
  - destruct (fenced _ _); [| apply IH].
    unfold makedirs.
    repeat first [apply no_call_safe_write_file | apply IH | emits_step].
Qed.

Lemma invocations_no_call ev : Forall no_call ev -> invocations ev = [].
Proof.
  induction 1 as [| e ev He _ IH]; [reflexivity |].
  unfold invocations in *. cbn [flat_map]. rewrite IH.
  destruct e; cbn in *; tauto.
Qed.


(** ** The outcome of [create_project_in_thread] *)

Ltac invariant_simpl :=
  unfold run_invariant, opened, succeeded, failed, polling in *;
  cbn [gen mon sess progress current_phase messages is_running output_dir
       files download_ready set_progress set_current_phase set_messages
       set_is_running set_output_dir set_files set_download_ready] in *.

Lemma run_invariant_reachable out st :
  reachable out st -> run_invariant out st.
Proof.
  induction 1 as [s | st st' Hreach IH Hstep].
  - reflexivity.
  - destruct Hstep as [Hstep | Hstep]; destruct Hstep; invariant_simpl.
    all: try solve [intuition (subst; auto; try congruence)].
    all: try solve [intuition (subst; auto; try congruence);
                    right; repeat split; auto; eexists; reflexivity].
    all: try solve [
      destruct IH as (Hm & Hp & Hc & Hmsg & Hr & Hd); rewrite Hmsg;
      split; [exact Hm |]; split; [exact Hr |]; right;
      repeat split; auto; eexists; reflexivity ].
    all: match goal with
         | g : gen_pc |- _ => destruct g
         end.
    all: try solve [intuition (subst; auto; try congruence)].
    all: try solve [
      exfalso;
      match goal with
      | H : contains phases (current_phase ?s) = true |- _ =>
          let P := fresh in
          assert (current_phase s = lit "starting"
                  \/ current_phase s = lit "complete") as P
            by (intuition auto);
          destruct P as [P | P]; rewrite P in H; vm_compute in H;
          discriminate H
      end ].
Qed.

Lemma steps_reachable out n st st' :
  reachable out st -> steps out n st st' -> reachable out st'.
Proof.
  intros Hreach Hsteps. induction Hsteps as [| n st st' st'' Hstep _ IH];
    [exact Hreach |].
  apply IH. exact (reach_step out st st' Hreach Hstep).
Qed.

(** X16: along every run of [create_project_in_thread], however the
    monitor is scheduled: once the monitor is started, the download is
    offered only in a session with the estimate at 100, the phase
    "complete", the output directory set and no message; the run is shown
    as running until the generation thread is done; and at its end the run
    is no longer shown as running and has either succeeded in that sense
    or failed: no download, the estimate at 0, the phase still "starting"
    and exactly one message, the error.  After a failed run the condition
    under which the page renders its progress section, with the messages,
    is false. *)
Theorem run_outcome (out : str) (st : state) :
  reachable out st ->
  (mon st <> NotStarted ->
   download_ready (sess st) = true -> succeeded out (sess st))
  /\ (mon st <> NotStarted -> gen st <> AtEnd -> is_running (sess st) = true)
  /\ (gen st = AtEnd ->
      is_running (sess st) = false
      /\ (succeeded out (sess st) \/ failed (sess st))
      /\ (succeeded out (sess st) -> shows_progress (sess st) = true)
      /\ (failed (sess st) -> shows_progress (sess st) = false)).
Proof.
  intros Hreach. pose proof (run_invariant_reachable out st Hreach) as Hinv.
  destruct st as [s g m]. invariant_simpl. unfold shows_progress.
  split; [| split].
  - intros Hm Hd. destruct g; intuition congruence.
  - intros Hm Hg. destruct g; intuition congruence.
  - intros ->. destruct Hinv as [_ [Hr Hout]].
    split; [exact Hr |]. split; [exact Hout |]. rewrite Hr. cbn [orb].
    split.
    + intros (_ & Hp & _). rewrite Hp. reflexivity.
    + intros (_ & Hp & _). rewrite Hp. reflexivity.
Qed.

Lemma failed_run_reachable out e : reachable out (failed_run e).
Proof.
  pose proof (reach_start out fresh_session) as H.
  eapply reach_step in H; [| left; apply step_reset].
  eapply reach_step in H; [| left; apply step_starting].
  eapply reach_step in H; [| left; apply step_clear_messages].
  eapply reach_step in H; [| left; apply step_running].
  eapply reach_step in H; [| left; apply step_clear_download].
  eapply reach_step in H; [| left; apply step_start_monitor].
  eapply reach_step in H; [| left; apply (step_run_raises out _ _ e)].
  eapply reach_step in H; [| left; apply step_handler].
  eapply reach_step in H; [| left; apply step_finally].
  eapply reach_step in H; [| right; apply step_loop_exit; reflexivity].
  exact H.
Qed.

Lemma failed_run_asleep_reachable out e : reachable out (failed_run_asleep e).
Proof.
  pose proof (reach_start out fresh_session) as H.
  eapply reach_step in H; [| left; apply step_reset].
  eapply reach_step in H; [| left; apply step_starting].
  eapply reach_step in H; [| left; apply step_clear_messages].
  eapply reach_step in H; [| left; apply step_running].
  eapply reach_step in H; [| left; apply step_clear_download].
  eapply reach_step in H; [| left; apply step_start_monitor].
  eapply reach_step in H; [| left; apply (step_run_raises out _ _ e)].
  eapply reach_step in H; [| left; apply step_handler].
  eapply reach_step in H; [| right; apply step_loop_enter; reflexivity].
  eapply reach_step in H;
    [| right; apply step_not_member; vm_compute; reflexivity].
  eapply reach_step in H; [| left; apply step_finally].
  exact H.
Qed.

Lemma run_outcome_witness :
  let st := failed_run (OtherError (lit "rate limit")) in
  (mon st <> NotStarted ->
   download_ready (sess st) = true -> succeeded (lit "out") (sess st))
  /\ (mon st <> NotStarted -> gen st <> AtEnd -> is_running (sess st) = true)
  /\ (gen st = AtEnd ->
      is_running (sess st) = false
      /\ (succeeded (lit "out") (sess st) \/ failed (sess st))
      /\ (succeeded (lit "out") (sess st) -> shows_progress (sess st) = true)
      /\ (failed (sess st) -> shows_progress (sess st) = false)).
Proof.
  exact (run_outcome (lit "out") (failed_run (OtherError (lit "rate limit")))
           (failed_run_reachable (lit "out") (OtherError (lit "rate limit")))).
Defined.

(** ** The end of the monitor *)

Lemma step_at_end out st st' :
  reachable out st -> gen st = AtEnd -> step out st st' ->
  gen st' = AtEnd /\ sess st' = sess st
  /\ S (remaining (mon st')) = remaining (mon st).
Proof.
  intros Hreach Hg Hstep.
  pose proof (run_invariant_reachable out st Hreach) as Hinv.
  destruct Hstep as [Hstep | Hstep]; destruct Hstep; cbn [gen] in Hg;
    try discriminate Hg; subst; invariant_simpl; cbn [remaining].
  all: try solve [repeat split; reflexivity].
  all: try solve [exfalso; intuition congruence].
  exfalso.
  match goal with
  | H : contains phases (current_phase ?s) = true |- _ =>
      assert (current_phase s = lit "starting"
              \/ current_phase s = lit "complete") as P by (intuition auto);
      destruct P as [P | P]; rewrite P in H; vm_compute in H;
      discriminate H
  end.
Qed.

Lemma steps_at_end out n :
  forall st st',
    reachable out st -> gen st = AtEnd -> steps out n st st' ->
    gen st' = AtEnd /\ sess st' = sess st
    /\ (n + remaining (mon st') = remaining (mon st))%nat.
Proof.
  induction n as [| n IH]; intros st st' Hreach Hg Hsteps;
    inversion Hsteps as [| k a b c Hstep Hrest]; subst.
  - repeat split; auto.
  - destruct (step_at_end out st b Hreach Hg Hstep) as [Hg' [Hs Hr]].
    destruct (IH b st' (reach_step out st b Hreach Hstep) Hg' Hrest)
      as [Hg'' [Hs' Hr']].
    split; [exact Hg'' |]. split; [congruence |]. lia.
Qed.

Lemma remaining_bound m : (remaining m <= 3)%nat.
Proof. destruct m; cbn; lia. Qed.

(** X17: the monitor thread lives as long as the generation thread and
    not much longer.  Along every run it does not leave its loop before
    the generation thread is done; and once the generation thread is done,
    the two threads together can take at most three more steps, none of
    which changes the session, and from wherever the monitor stands it
    gets, within these, to the end of its loop, after which nothing
    moves. *)
Theorem monitor_lifetime (out : str) (st : state) :
  reachable out st ->
  (mon st = Exited -> gen st = AtEnd)
  /\ (gen st = AtEnd ->
      (forall n st',
         steps out n st st' ->
         (n <= 3)%nat /\ gen st' = AtEnd /\ sess st' = sess st)
      /\ exists n st',
           steps out n st st' /\ mon st' = Exited
           /\ forall st'', ~ step out st' st'').
Proof.
  intros Hreach. pose proof (run_invariant_reachable out st Hreach) as Hinv.
  split.
  { intros Hm. destruct st as [s g m]. invariant_simpl. subst m.
    destruct g; intuition congruence. }
  intros Hg. split.
  { intros n st' Hsteps.
    destruct (steps_at_end out n st st' Hreach Hg Hsteps) as [Hg' [Hs Hr]].
    pose proof (remaining_bound (mon st)). repeat split; auto. lia. }
  assert (forall s st'',
             ~ step out {| sess := s; gen := AtEnd; mon := Exited |} st'')
    as Hstuck.
  { intros s st'' [Hstep | Hstep]; inversion Hstep. }
  destruct st as [s g m]. invariant_simpl. subst g.
  destruct Hinv as [Hm [Hr Hout]].
  assert (contains phases (current_phase s) = false) as Hphase.
  { destruct Hout as [(_ & _ & -> & _) | (_ & _ & -> & _)];
      vm_compute; reflexivity. }
  assert (steps out 1 {| sess := s; gen := AtEnd; mon := AtLoopTest |}
            {| sess := s; gen := AtEnd; mon := Exited |}) as H1.
  { eapply steps_more; [right; apply step_loop_exit; exact Hr |].
    apply steps_none. }
  assert (steps out 2 {| sess := s; gen := AtEnd; mon := AtSleep |}
            {| sess := s; gen := AtEnd; mon := Exited |}) as H2.
  { eapply steps_more; [right; apply step_sleep | exact H1]. }
  assert (steps out 3 {| sess := s; gen := AtEnd; mon := AtMembership |}
            {| sess := s; gen := AtEnd; mon := Exited |}) as H3.
  { eapply steps_more; [right; apply step_not_member; exact Hphase |].
    exact H2. }
  pose proof (Hstuck s) as Hend.
  destruct m; try (destruct Hm as [[] | Hm]; discriminate Hm).
  - exists 1%nat, {| sess := s; gen := AtEnd; mon := Exited |}. auto.
  - exists 3%nat, {| sess := s; gen := AtEnd; mon := Exited |}. auto.
  - exists 2%nat, {| sess := s; gen := AtEnd; mon := Exited |}. auto.
  - exists 0%nat, {| sess := s; gen := AtEnd; mon := Exited |}.
    split; [apply steps_none | auto].
Qed.

Lemma monitor_lifetime_witness :
  let st := failed_run_asleep (OtherError (lit "rate limit")) in
  (mon st = Exited -> gen st = AtEnd)
  /\ (gen st = AtEnd ->
      (forall n st',
         steps (lit "out") n st st' ->
         (n <= 3)%nat /\ gen st' = AtEnd /\ sess st' = sess st)
      /\ exists n st',
           steps (lit "out") n st st' /\ mon st' = Exited
           /\ forall st'', ~ step (lit "out") st' st'').
Proof.
  exact (monitor_lifetime (lit "out")
           (failed_run_asleep (OtherError (lit "rate limit")))
           (failed_run_asleep_reachable (lit "out")
              (OtherError (lit "rate limit")))).
Defined.

(** ** [merge_files] *)

Lemma read_each_run W paths :
  forall contents h,
    exists ev pieces,
      read_each W paths contents h = (ev, inr (contents ++ pieces))
      /\ read_attempts ev = map (pathlib_str W) paths
      /\ Forall2
           (fun path piece =>
              In (FileRead (pathlib_str W path) Utf8 (inr piece)) ev
              \/ exists e,
                   In (FileRead (pathlib_str W path) Utf8 (inl e)) ev
                   /\ piece = error_reading W path e)
           paths pieces.
Proof.
  induction paths as [| path rest IH]; intros contents h; cbn [read_each].
  - exists [], []. rewrite app_nil_r. repeat split. constructor.
  - rewrite bind_run, try_except_run.
    unfold read_text_file, read_file, call_value. cbn [fst snd].
    destruct (open_read W h (pathlib_str W path) Utf8) as [e | text];
      cbn [fst snd ret app];
      match goal with
      | |- context [read_each W rest ?c ?h'] =>
          destruct (IH c h') as [ev [pieces [Hrun [Hreads Hall]]]]
      end;
      rewrite Hrun; cbn [fst snd];
      eexists _, (_ :: pieces);
      (split; [rewrite <- app_assoc; reflexivity |]);
      (split; [cbn [read_attempts flat_map app map] in *;
               fold (read_attempts ev); rewrite Hreads; reflexivity |]);
      constructor.
    + right. exists e. split; [left; reflexivity | reflexivity].
    + eapply Forall2_impl; [| exact Hall]. cbn beta.
      intros p c [H | [e' [H ->]]]; [left; right; exact H |].
      right. exists e'. split; [right; exact H | reflexivity].
    + left. left. reflexivity.
    + eapply Forall2_impl; [| exact Hall]. cbn beta.
      intros p c [H | [e' [H ->]]]; [left; right; exact H |].
      right. exists e'. split; [right; exact H | reflexivity].
Qed.

(** X18: a file that cannot be read does not stop [merge_files].  Every
    input is tried once, in order; the merged text has one piece for each
    input, joined by the separator: the text of the file, or the line
    "Error reading <path>: <cause>" in its place.  Then the directory of
    the output is made and the merged text is written, once; the function
    raises only when one of these two fails, and returns the output path
    otherwise. *)
Theorem merge_files_spec (W : world) (path_parent : str -> str)
  (file_paths : list str) (output_path separator : str) (h : list event) :
  exists ev contents,
    read_each W file_paths [] h = (ev, inr contents)
    /\ read_attempts ev = map (pathlib_str W) file_paths
    /\ Forall2
         (fun path piece =>
            In (FileRead (pathlib_str W path) Utf8 (inr piece)) ev
            \/ exists e,
                 In (FileRead (pathlib_str W path) Utf8 (inl e)) ev
                 /\ piece = error_reading W path e)
         file_paths contents
    /\ let parent := pathlib_str W (path_parent output_path) in
       let target := pathlib_str W output_path in
       let merged := join separator contents in
       merge_files W path_parent file_paths output_path separator h
       = match os_makedirs W (h ++ ev) parent with
         | Some e => (ev ++ [Makedirs parent (Some e)], inl (Exc e))
         | None =>
             let written :=
               open_write W ((h ++ ev) ++ [Makedirs parent None]) target Utf8
                 merged in
             (ev ++ [Makedirs parent None;
                     FileWrite target Utf8 merged written],
              match written with
              | Some e => inl (Exc e)
              | None => inr output_path
              end)
         end.
Proof.
  destruct (read_each_run W file_paths [] h)
    as [ev [contents [Hrun [Hreads Hall]]]].
  cbn [app] in Hrun. exists ev, contents.
  split; [exact Hrun |]. split; [exact Hreads |]. split; [exact Hall |].
  cbv zeta. unfold merge_files. rewrite bind_run, Hrun. cbn [fst snd].
  unfold write_text_file, ensure_directory_exists, bind, makedirs,
    write_file, call_unit, ret.
  destruct (os_makedirs W (h ++ ev) _) as [e | ]; [reflexivity |].
  cbn [app]. rewrite ?app_nil_r.
  destruct (open_write W _ _ Utf8 _); reflexivity.
Qed.

(** ** Directory trees and their descriptions *)

Lemma entry_induction (P : Fs.entry -> Prop) :
  P Fs.File ->
  (forall denied items,
     Forall (fun entry => P (snd entry)) items ->
     P (Fs.Directory denied items)) ->
  forall e, P e.
Proof.
  intros Hfile Hdir.
  refine (fix IH (e : Fs.entry) : P e :=
            match e with
            | Fs.File => Hfile
            | Fs.Directory denied items =>
                Hdir denied items
                  ((fix all (l : list (str * Fs.entry))
                      : Forall (fun entry => P (snd entry)) l :=
                      match l with
                      | [] => Forall_nil _
                      | entry :: l' =>
                          Forall_cons entry (IH (snd entry)) (all l')
                      end) items)
            end).
Qed.

Lemma dict_get_none {V} (d : list (str * V)) k :
  dict_get d k = None <-> ~ In k (map fst d).
Proof.
  induction d as [| [k' v] d IH]; cbn [dict_get map fst In]; [tauto |].
  destruct (str_eqb k' k) eqn:E.
  - apply str_eqb_eq in E. split; [discriminate | tauto].
  - rewrite IH. split; [| tauto].
    intros H [Heq | Hin]; [| tauto].
    subst k'. rewrite (proj2 (str_eqb_eq k k) eq_refl) in E. discriminate.
Qed.

Lemma dict_get_in {V} (d : list (str * V)) k v :
  NoDup (map fst d) -> In (k, v) d -> dict_get d k = Some v.
Proof.
  induction d as [| [k' v'] d IH]; cbn [dict_get map fst In];
    intros Hd; [intros [] |].
  inversion Hd as [| x l Hnotin Hrest]; subst.
  intros [H | H].
  - injection H as -> ->. rewrite (proj2 (str_eqb_eq k k) eq_refl).
    reflexivity.
  - destruct (str_eqb k' k) eqn:E; [| exact (IH Hrest H)].
    apply str_eqb_eq in E. subst k'. exfalso. apply Hnotin.
    apply in_map_iff. exists (k, v). split; [reflexivity | exact H].
Qed.

Lemma dict_store_same {V} (d : list (str * V)) k v :
  dict_get d k = Some v -> dict_store d k v = d.
Proof.
  induction d as [| [k' v'] d IH]; cbn [dict_get dict_store];
    [discriminate |].
  destruct (str_eqb k' k) eqn:E.
  - intros H. injection H as ->. reflexivity.
  - intros H. rewrite (IH H). reflexivity.
Qed.

Lemma dict_store_fresh {V} (d : list (str * V)) k v :
  ~ In k (map fst d) -> dict_store d k v = d ++ [(k, v)].
Proof.
  induction d as [| [k' v'] d IH]; cbn [dict_store map fst In app];
    [reflexivity |].
  intros H. destruct (str_eqb k' k) eqn:E.
  - apply str_eqb_eq in E. tauto.
  - rewrite IH by tauto. reflexivity.
Qed.

Ltac loop_step :=
  cbn -[_get_structure _create_structure dict_store dict_get skeleton
        mirrors].

Lemma mirrors_exists max_depth :
  forall e d, well_formed e -> exists v, mirrors max_depth d e v.
Proof.
  induction e as [| denied items IH] using entry_induction; intros d Hwf.
  { exists PyNone. reflexivity. }
  cbn [well_formed] in Hwf. destruct Hwf as [Hnd Heach].
  destruct (too_deep max_depth d) eqn:Hdeep.
  { exists (PyStr (lit "...")). split.
    - cbn [_get_structure]. rewrite Hdeep. reflexivity.
    - cbn [skeleton]. rewrite Hdeep. reflexivity. }
  destruct denied.
  { exists (PyStr (lit "Permission denied")). split.
    - cbn [_get_structure]. rewrite Hdeep. reflexivity.
    - cbn [skeleton]. rewrite Hdeep. reflexivity. }
  assert (exists dvs,
             Forall2 (fun it dv =>
                        fst dv = fst it
                        /\ mirrors max_depth (d + 1) (snd it) (snd dv))
               items dvs) as [dvs Hdvs].
  { clear Hnd. induction items as [| [name item] rest IHrest].
    - exists []. constructor.
    - inversion IH as [| x l Hitem Hrest]; subst.
      destruct Heach as [Hwf_item Hwf_rest].
      destruct (Hitem (d + 1) Hwf_item) as [v Hv].
      destruct (IHrest Hrest Hwf_rest) as [dvs Hdvs].
      exists ((name, v) :: dvs).
      constructor; [split; [reflexivity | exact Hv] | exact Hdvs]. }
  clear IH Heach.
  set (made := map (fun entry =>
                      (fst entry, skeleton max_depth (d + 1) (snd entry)))
                 items).
  exists (PyDict dvs). split; [| exists made; split; [| split]].
  - (* what the listing returns *)
    cbn [_get_structure]. rewrite Hdeep.
    match goal with
    | |- ?L items [] = _ =>
        enough (forall result,
                   (forall k, In k (map fst items) ->
                              ~ In k (map fst result)) ->
                   L items result = inr (PyDict (result ++ dvs))) as HG
    end.
    { apply (HG []). intros k _ []. }
    clear made. induction Hdvs as [| [name item] [name' v] rest dvs' [Hn Hm] _ IH];
      intros result Hfresh.
    + loop_step. rewrite app_nil_r. reflexivity.
    + cbn [fst snd] in Hn, Hm. subst name'.
      inversion Hnd as [| x l Hnotin Hrest]; subst.
      assert (forall k,
                 In k (map fst rest) ->
                 forall v', ~ In k (map fst (result ++ [(name, v')])))
        as Hnext.
      { intros k Hk v'. rewrite map_app, in_app_iff. cbn [map fst In].
        intros [H | [H | []]].
        - apply (Hfresh k); [right; exact Hk | exact H].
        - subst k. exact (Hnotin Hk). }
      loop_step. destruct item as [| denied below].
      * cbn [mirrors] in Hm. subst v.
        rewrite dict_store_fresh by (apply Hfresh; left; reflexivity).
        rewrite (IH Hrest) by (intros k Hk; apply Hnext; exact Hk).
        rewrite <- app_assoc. reflexivity.
      * destruct Hm as [Hget _]. rewrite Hget.
        rewrite dict_store_fresh by (apply Hfresh; left; reflexivity).
        rewrite (IH Hrest) by (intros k Hk; apply Hnext; exact Hk).
        rewrite <- app_assoc. reflexivity.
  - cbn [skeleton]. rewrite Hdeep. reflexivity.
  - (* the creation in an empty directory *)
    cbn [_create_structure].
    match goal with
    | |- ?L dvs [] = _ =>
        enough (forall current,
                   (forall k, In k (map fst items) ->
                              ~ In k (map fst current)) ->
                   L dvs current = inr (current ++ made)) as HC
    end.
    { apply (HC []). intros k _ []. }
    subst made.
    induction Hdvs as [| [name item] [name' v] rest dvs' [Hn Hm] _ IH];
      intros current Hfresh.
    + loop_step. rewrite app_nil_r. reflexivity.
    + cbn [fst snd] in Hn, Hm. subst name'.
      inversion Hnd as [| x l Hnotin Hrest]; subst.
      assert (forall k,
                 In k (map fst rest) ->
                 forall e', ~ In k (map fst (current ++ [(name, e')])))
        as Hnext.
      { intros k Hk e'. rewrite map_app, in_app_iff. cbn [map fst In].
        intros [H | [H | []]].
        - apply (Hfresh k); [right; exact Hk | exact H].
        - subst k. exact (Hnotin Hk). }
      assert (dict_get current name = None) as Hnone.
      { apply dict_get_none. apply Hfresh. left. reflexivity. }
      assert (~ In name (map fst current)) as Hout
        by (apply Hfresh; left; reflexivity).
      cbn [map fst snd]. loop_step. destruct item as [| denied below].
      * cbn [mirrors] in Hm. subst v. unfold touch. rewrite Hnone.
        rewrite dict_store_fresh by exact Hout.
        rewrite (IH Hrest) by (intros k Hk; apply Hnext; exact Hk).
        rewrite <- app_assoc. reflexivity.
      * destruct Hm as [_ Hm]. destruct v as [| text | sub];
          [destruct Hm | |].
        -- unfold mkdir. rewrite Hnone, Hm.
           rewrite dict_store_fresh by exact Hout.
           rewrite (IH Hrest) by (intros k Hk; apply Hnext; exact Hk).
           rewrite <- app_assoc. reflexivity.
        -- destruct Hm as [items' [Hskel [Hcreate _]]].
           unfold mkdir. rewrite Hnone, Hcreate, Hskel.
           rewrite dict_store_fresh by exact Hout.
           rewrite (IH Hrest) by (intros k Hk; apply Hnext; exact Hk).
           rewrite <- app_assoc. reflexivity.
  - (* the creation over the skeleton *)
    cbn [_create_structure].
    match goal with
    | |- ?L dvs made = _ =>
        enough (forall current,
                   (forall it, In it items ->
                               dict_get current (fst it)
                               = Some (skeleton max_depth (d + 1) (snd it))) ->
                   L dvs current = inr current) as HI
    end.
    { apply HI. intros [name item] Hin. cbn [fst snd].
      apply dict_get_in.
      - subst made. rewrite map_map. cbn [fst]. exact Hnd.
      - subst made. apply in_map_iff. exists (name, item).
        split; [reflexivity | exact Hin]. }
    clear made Hnd.
    induction Hdvs as [| [name item] [name' v] rest dvs' [Hn Hm] _ IH];
      intros current Hhas.
    + reflexivity.
    + cbn [fst snd] in Hn, Hm. subst name'.
      pose proof (Hhas (name, item) (or_introl eq_refl)) as Hhere.
      cbn [fst snd] in Hhere.
      assert (forall it, In it rest ->
                         dict_get current (fst it)
                         = Some (skeleton max_depth (d + 1) (snd it)))
        as Hnext by (intros it Hit; apply Hhas; right; exact Hit).
      loop_step. destruct item as [| denied below].
      * cbn [mirrors] in Hm. subst v. unfold touch. rewrite Hhere.
        exact (IH current Hnext).
      * destruct Hm as [_ Hm]. destruct v as [| text | sub];
          [destruct Hm | |].
        -- unfold mkdir. rewrite Hhere, Hm.
           rewrite dict_store_same by (rewrite Hhere, Hm; reflexivity).
           exact (IH current Hnext).
        -- destruct Hm as [items' [Hskel [_ Hagain]]].
           unfold mkdir. rewrite Hhere, Hskel, Hagain.
           rewrite dict_store_same by (rewrite Hhere, Hskel; reflexivity).
           exact (IH current Hnext).
Qed.

Lemma skeleton_open e :
  forall d, all_open e -> skeleton None d e = e.
Proof.
  induction e as [| denied items IH] using entry_induction; intros d Hopen;
    [reflexivity |].
  cbn [all_open] in Hopen. destruct Hopen as [-> Heach].
  cbn [skeleton too_deep orb]. f_equal.
  induction items as [| [name item] rest IHrest]; [reflexivity |].
  inversion IH as [| x l Hitem Hrest]; subst.
  destruct Heach as [Hopen_item Hopen_rest].
  cbn [map fst snd]. cbn [snd] in Hitem.
  rewrite (Hitem (d + 1) Hopen_item), (IHrest Hrest Hopen_rest).
  reflexivity.
Qed.


Lemma sample_tree_well_formed : well_formed sample_tree.
Proof.
  cbn [well_formed sample_tree map fst].
  repeat split;
    repeat (constructor;
            [intros H; vm_compute in H; intuition discriminate |]);
    constructor.
Qed.


(** ** What is confirmed is what is sent *)

Lemma bind_returned {A B} (c : M A) (k : A -> M B) h ev b :
  bind c k h = (ev, inr b) ->
  exists a ev1 ev2,
    c h = (ev1, inr a) /\ k a (h ++ ev1) = (ev2, inr b) /\ ev = ev1 ++ ev2.
Proof.
  unfold bind. destruct (c h) as [ev1 [r | a]]; [discriminate |].
  destruct (k a (h ++ ev1)) as [ev2 res] eqn:E. intros H.
  injection H as <- ->. exists a, ev1, ev2. auto.
Qed.

Lemma invocations_console ev : Forall console ev -> invocations ev = [].
Proof.
  intros H. apply invocations_no_call.
  eapply Forall_impl; [| exact H]. intros []; cbn; tauto.
Qed.

(** The messages of the calls of a run follow from its prompt. *)
Lemma run_dataflow W request out h :
  dataflow request
    (invocations (fst (run_simplified_coding_system W request out h))).
Proof.
  rewrite invocations_milestones.
  pose proof (run_simplified_coding_system_run W request out h) as Hrun.
  pose proof (run_phases_ordered W request out (h ++ opening)) as Hord.
  destruct (run_phases W request out (h ++ opening))
    as [ev [[e | code] | u]]; cbn [fst snd] in Hord;
    [| contradiction |]; rewrite Hrun; cbn [fst snd];
    destruct Hord as [Hflow _].
  - rewrite !milestones_app, opening_lines, error_line, app_nil_r.
    exact Hflow.
  - rewrite milestones_app, opening_lines. exact Hflow.
Qed.

(** The end of the questionnaire: the prompt is shown between two rules,
    the user is asked, and the answer decides. *)
Lemma interactive_returned W h asked shown :
  interactive_requirements_gathering W h = (asked, inr shown) ->
  exists before answer,
    asked
    = before
      ++ [ Print (nl ++ clipboard :: lit " Generated prompt:");
           Print rule;
           Print shown;
           Print rule;
           Input (nl ++ clipboard
                  :: lit " Do you want to proceed with this prompt? (y/n): ")
             (inr answer) ]
    /\ str_lower W answer = lit "y".
Proof.
  unfold interactive_requirements_gathering. intros H.
  do 13 (apply bind_returned in H;
         destruct H as (? & ? & ? & _ & H & ->)).
  revert H. unfold bind, print, input, call_value, ret, raise.
  cbn [app].
  match goal with
  | |- context [nth_error (stdin W) ?n] =>
      destruct (nth_error (stdin W) n) as [answer |]
  end; [| discriminate].
  destruct (str_eqb (str_lower W answer) (lit "y")) eqn:E; cbn [negb];
    [| discriminate].
  intros H. injection H as <- <-. apply str_eqb_eq in E.
  eexists _, answer. split; [| exact E].
  rewrite !app_assoc. reflexivity.
Qed.

(** After the prompt is chosen, [main] creates the directory and
    announces the start without calling the model. *)
Lemma main_setup_returned W a h ev p :
  interactive a = true \/ prompt a = None \/ prompt a = Some [] ->
  main_setup W a h = (ev, inr p) ->
  exists asked rest,
    interactive_requirements_gathering W h = (asked, inr p)
    /\ ev = asked ++ rest /\ invocations rest = [].
Proof.
  intros Hmode H. unfold main_setup in H.
  apply bind_returned in H. destruct H as (p' & asked & rest & Hq & H & ->).
  assert (interactive_requirements_gathering W h = (asked, inr p')) as Hi.
  { destruct Hmode as [Hm | [Hm | Hm]]; rewrite Hm in Hq;
      [destruct (prompt a) as [[| c q] |] |..]; exact Hq. }
  clear Hq. exists asked, rest.
  revert H. unfold makedirs, call_unit, bind, print, ret, raise.
  destruct (os_makedirs W _ _); [discriminate |]. cbn [app].
  intros H. injection H as <- <-. auto.
Qed.

(** X22: when the command line starts the questionnaire (flag -i, or no
    prompt) and [main] returns, the user accepted a prompt: the run shows
    it between two rules, asks, and reads an answer that is y or Y; no
    model call comes before that answer, and the first model call of the
    run, if there is one, carries exactly the prompt that was shown. *)
Theorem confirmed_prompt_is_sent (W : world) (a : args) (h : list event)
    (ev : list event) (code : Z) :
  interactive a = true \/ prompt a = None \/ prompt a = Some [] ->
  main W a h = (ev, inr code) ->
  exists before shown answer rest,
    ev = before
         ++ [ Print (nl ++ clipboard :: lit " Generated prompt:");
              Print rule;
              Print shown;
              Print rule;
              Input (nl ++ clipboard
                     :: lit " Do you want to proceed with this prompt? (y/n): ")
                (inr answer) ]
         ++ rest
    /\ str_lower W answer = lit "y"
    /\ invocations before = []
    /\ forall c calls, invocations ev = c :: calls -> human_message c = shown.
Proof.
  intros Hmode H. unfold main in H.
  apply bind_returned in H. destruct H as (p & ev1 & ev2 & Hsetup & H & ->).
  apply (main_setup_returned _ _ _ _ _ Hmode) in Hsetup.
  destruct Hsetup as (asked & setup & Hask & -> & Hsetup).
  pose proof (console_interactive W h) as Hconsole.
  rewrite Hask in Hconsole. cbn [fst] in Hconsole.
  apply invocations_console in Hconsole.
  apply interactive_returned in Hask.
  destruct Hask as (before & answer & -> & Hy).
  apply bind_returned in H. destruct H as (t & ev3 & ev4 & Ht & H & ->).
  injection Ht as <- _.
  apply bind_returned in H. destruct H as (ok & ev5 & ev6 & Hrun & H & ->).
  match type of H with
  | main_report _ _ _ _ ?hh = _ =>
      destruct (main_report_run W a t ok hh) as (ev7 & Hreport & Hquiet)
  end.
  rewrite H in Hreport. injection Hreport as <- _.
  apply invocations_console in Hquiet.
  exists before, p, answer, (setup ++ ev5 ++ ev6).
  rewrite invocations_app in Hconsole.
  apply app_eq_nil in Hconsole. destruct Hconsole as [Hbefore _].
  split; [rewrite <- !app_assoc; reflexivity |].
  split; [exact Hy |]. split; [exact Hbefore |].
  intros c calls.
  rewrite !invocations_app, Hbefore, Hsetup, Hquiet.
  cbn [invocations flat_map app]. rewrite ?app_nil_r.
  match type of Hrun with
  | run_simplified_coding_system _ _ ?out ?hh = _ =>
      pose proof (run_dataflow W p out hh) as Hflow
  end.
  rewrite Hrun in Hflow. cbn [fst] in Hflow.
  intros Hcalls. rewrite Hcalls in Hflow. exact (proj1 Hflow).
Qed.

Lemma confirmed_prompt_is_sent_witness :
  exists ev code before shown answer rest,
    main (typing_world confirming_answers) no_arguments [] = (ev, inr code)
    /\ ev = before
         ++ [ Print (nl ++ clipboard :: lit " Generated prompt:");
              Print rule;
              Print shown;
              Print rule;
              Input (nl ++ clipboard
                     :: lit " Do you want to proceed with this prompt? (y/n): ")
                (inr answer) ]
         ++ rest
    /\ invocations before = []
    /\ forall c calls, invocations ev = c :: calls -> human_message c = shown.
Proof.
  destruct (main (typing_world confirming_answers) no_arguments [])
    as [ev [r | code]] eqn:E; [vm_compute in E; discriminate |].
  destruct (confirmed_prompt_is_sent (typing_world confirming_answers)
              no_arguments [] ev code) as (b & s & ans & r & H1 & _ & H3 & H4).
  - right; left; reflexivity.
  - exact E.
  - exists ev, code, b, s, ans, r. auto.
Defined.
